(** * Active Redis: codec, script runner, list scripts and cascading delete

    A shallow embedding of [active_redis/core.py],
    [active_redis/datatypes/list.py] and [active_redis/datatype.py].

    The Redis server is the external collaborator of the library: the
    commands the library issues are given their documented semantics in
    [Module Redis], over a key space that maps a key to a string, list,
    hash, set or sorted set.  Lua scripts are functions in a state and
    error monad over that key space; the Python side runs in a second
    monad that threads the key space, the class-level script registration
    state and the log of round trips to the server. *)

From Stdlib Require Import ZArith String Ascii List Lia.
From Stdlib Require Import DecimalString DecimalZ.
From stdpp Require Import base option list gmap strings.

Set Warnings "-register-all".

Local Open Scope string_scope.
Local Open Scope Z_scope.

(** ** Strings *)

Module Str.

(** Python [s[n:]] for [0 <= n], Lua [string.sub(s, n + 1)]. *)
Fixpoint drop (n : nat) (s : string) : string :=
  match n, s with
  | O, _ => s
  | S n', String _ s' => drop n' s'
  | S _, EmptyString => EmptyString
  end.

(** Python [s.startswith(p)]. *)
Definition startswith (s p : string) : bool := String.prefix p s.

(** Lua [string.find(s, p)] for a pattern without magic characters: the
    1-based position of the first occurrence. *)
Definition find (s p : string) : option nat :=
  match String.index 0 p s with
  | Some i => Some (S i)
  | None => None
  end.

(** Python [s.split(sep, 1)] for a one-character separator: the text
    before the first separator and the text after it, or [None] when
    the separator does not occur (the split then has one part). *)
Fixpoint split1 (sep : ascii) (s : string) : option (string * string) :=
  match s with
  | EmptyString => None
  | String c s' =>
      if Ascii.eqb c sep then Some (EmptyString, s')
      else match split1 sep s' with
           | Some (a, b) => Some (String c a, b)
           | None => None
           end
  end.

(** Decimal rendering of an integer, as [str(i)] in Python and as the
    server prints integers. *)
Definition of_Z (z : Z) : string := NilZero.string_of_int (Z.to_int z).

(** How the server reads an integer argument: only the canonical decimal
    rendering of an integer is one (no sign [+], no leading zero, no
    [-0]).  The server also bounds integers to 64 bits; Python and this
    model count with unbounded integers, and no index the library sends
    comes near the bound. *)
Definition to_Z (s : string) : option Z :=
  match NilZero.int_of_string s with
  | Some d =>
      let z := Z.of_int d in
      if String.eqb (of_Z z) s then Some z else None
  | None => None
  end.

End Str.

(** ** The Redis server *)

Module Redis.

(** A value held at a key.  Hashes keep their fields, sets their members
    and sorted sets their scored members in the order the server
    enumerates them. *)
Inductive rvalue : Type :=
  | VString (s : string)
  | VList (l : list string)
  | VHash (h : list (string * string))
  | VSet (m : list string)
  | VZSet (z : list (string * Z)).

Abbreviation store := (gmap string rvalue).

(** A reply of the server. *)
Inductive reply : Type :=
  | RNil
  | RBulk (s : string)
  | RInt (z : Z)
  | RStatus (s : string)
  | RMulti (l : list reply)
  | RError (msg : string).

(** A string that may be absent, as a reply. *)
Definition bulk_reply (o : option string) : reply :=
  match o with
  | Some x => RBulk x
  | None => RNil
  end.

Definition WRONGTYPE : string :=
  "WRONGTYPE Operation against a key holding the wrong kind of value".
Definition ERR_ARITY : string := "ERR wrong number of arguments".
Definition ERR_NOT_INT : string := "ERR value is not an integer or out of range".
Definition ERR_NO_KEY : string := "ERR no such key".
Definition ERR_INDEX : string := "ERR index out of range".
Definition ERR_SYNTAX : string := "ERR syntax error".
Definition ERR_UNKNOWN : string := "ERR unknown command".

(** The name [TYPE] reports for a value. *)
Definition type_name (v : rvalue) : string :=
  match v with
  | VString _ => "string"
  | VList _ => "list"
  | VHash _ => "hash"
  | VSet _ => "set"
  | VZSet _ => "zset"
  end.

Definition type_of (s : store) (key : string) : string :=
  match s !! key with
  | Some v => type_name v
  | None => "none"
  end.

(** An index counted from the tail when negative; [None] out of range. *)
Definition norm_index (len : nat) (i : Z) : option nat :=
  let j := if i <? 0 then Z.of_nat len + i else i in
  if (0 <=? j) && (j <? Z.of_nat len) then Some (Z.to_nat j) else None.

(** The element a list holds at an index. *)
Definition at_index (l : list string) (i : Z) : option string :=
  match norm_index (length l) i with
  | Some n => l !! n
  | None => None
  end.

(** The list a key holds; a key that is not there holds the empty list. *)
Definition list_at (s : store) (key : string) : option (list string) :=
  match s !! key with
  | None => Some []
  | Some (VList l) => Some l
  | Some _ => None
  end.

(** A list never stays in the key space empty. *)
Definition put_list (key : string) (l : list string) (s : store) : store :=
  match l with
  | [] => delete key s
  | _ => <[key := VList l]> s
  end.

(** Remove the first [n] occurrences of [v], counting the removals. *)
Fixpoint remove_first (n : nat) (v : string) (l : list string) : list string * nat :=
  match n, l with
  | O, _ => (l, O)
  | _, [] => ([], O)
  | S n', x :: l' =>
      if String.eqb x v
      then let '(r, k) := remove_first n' v l' in (r, S k)
      else let '(r, k) := remove_first n v l' in (x :: r, k)
  end.

(** [LREM key count v]: [count > 0] removes from the head, [count < 0]
    from the tail, [count = 0] removes every occurrence. *)
Definition lrem (count : Z) (v : string) (l : list string) : list string * nat :=
  if count =? 0 then remove_first (length l) v l
  else if 0 <? count then remove_first (Z.to_nat count) v l
  else let '(r, k) := remove_first (Z.to_nat (- count)) v (rev l) in (rev r, k).

(** [LINSERT]: insert before or after the first occurrence of the pivot. *)
Fixpoint linsert (before : bool) (pivot v : string) (l : list string) : option (list string) :=
  match l with
  | [] => None
  | x :: l' =>
      if String.eqb x pivot
      then Some (if before then v :: x :: l' else x :: v :: l')
      else match linsert before pivot v l' with
           | Some r => Some (x :: r)
           | None => None
           end
  end.

(** The members of ranks [start..stop], both counted from the tail when
    negative and clamped to the collection. *)
Definition range {A} (start stop : Z) (l : list A) : list A :=
  let len := Z.of_nat (length l) in
  let a := Z.max 0 (if start <? 0 then len + start else start) in
  let b := Z.min (len - 1) (if stop <? 0 then len + stop else stop) in
  if b <? a then [] else firstn (Z.to_nat (b - a + 1)) (skipn (Z.to_nat a) l).

(** One command, given as the server receives it: the command name and
    its arguments, all strings.  An error reply leaves the key space as
    it was. *)
Definition command (argv : list string) (s : store) : reply * store :=
  match argv with
  | "TYPE" :: rest =>
      match rest with
      | [key] => (RStatus (type_of s key), s)
      | _ => (RError ERR_ARITY, s)
      end
  | "DEL" :: rest =>
      match rest with
      | [] => (RError ERR_ARITY, s)
      | _ => (RInt (Z.of_nat (length (filter (fun k => is_Some (s !! k)) rest))),
              foldr (fun k acc => delete k acc) s rest)
      end
  | "LINDEX" :: rest =>
      match rest with
      | [key; index] =>
          match Str.to_Z index with
          | None => (RError ERR_NOT_INT, s)
          | Some i =>
              match s !! key with
              | None => (RNil, s)
              | Some (VList l) => (bulk_reply (at_index l i), s)
              | Some _ => (RError WRONGTYPE, s)
              end
          end
      | _ => (RError ERR_ARITY, s)
      end
  | "LLEN" :: rest =>
      match rest with
      | [key] =>
          match s !! key with
          | None => (RInt 0, s)
          | Some (VList l) => (RInt (Z.of_nat (length l)), s)
          | Some _ => (RError WRONGTYPE, s)
          end
      | _ => (RError ERR_ARITY, s)
      end
  | "LSET" :: rest =>
      match rest with
      | [key; index; v] =>
          match s !! key with
          | None => (RError ERR_NO_KEY, s)
          | Some (VList l) =>
              match Str.to_Z index with
              | None => (RError ERR_NOT_INT, s)
              | Some i =>
                  match norm_index (length l) i with
                  | Some n => (RStatus "OK", <[key := VList (<[n := v]> l)]> s)
                  | None => (RError ERR_INDEX, s)
                  end
              end
          | Some _ => (RError WRONGTYPE, s)
          end
      | _ => (RError ERR_ARITY, s)
      end
  | "LREM" :: rest =>
      match rest with
      | [key; count; v] =>
          match Str.to_Z count with
          | None => (RError ERR_NOT_INT, s)
          | Some c =>
              match s !! key with
              | None => (RInt 0, s)
              | Some (VList l) =>
                  let '(r, k) := lrem c v l in
                  (RInt (Z.of_nat k), put_list key r s)
              | Some _ => (RError WRONGTYPE, s)
              end
          end
      | _ => (RError ERR_ARITY, s)
      end
  | "LINSERT" :: rest =>
      match rest with
      | [key; where_; pivot; v] =>
          let place :=
            if String.eqb where_ "BEFORE" then Some true
            else if String.eqb where_ "AFTER" then Some false
            else None in
          match place with
          | None => (RError ERR_SYNTAX, s)
          | Some before =>
              match s !! key with
              | None => (RInt 0, s)
              | Some (VList l) =>
                  match linsert before pivot v l with
                  | Some r => (RInt (Z.of_nat (length r)), <[key := VList r]> s)
                  | None => (RInt (-1), s)
                  end
              | Some _ => (RError WRONGTYPE, s)
              end
          end
      | _ => (RError ERR_ARITY, s)
      end
  | "RPUSH" :: rest =>
      match rest with
      | key :: v :: vs =>
          match s !! key with
          | None => (RInt (Z.of_nat (length (v :: vs))), <[key := VList (v :: vs)]> s)
          | Some (VList l) =>
              (RInt (Z.of_nat (length (l ++ v :: vs))), <[key := VList (l ++ v :: vs)]> s)
          | Some _ => (RError WRONGTYPE, s)
          end
      | _ => (RError ERR_ARITY, s)
      end
  | "LPOP" :: rest =>
      match rest with
      | [key] =>
          match s !! key with
          | None => (RNil, s)
          | Some (VList []) => (RNil, s)
          | Some (VList (x :: l)) => (RBulk x, put_list key l s)
          | Some _ => (RError WRONGTYPE, s)
          end
      | _ => (RError ERR_ARITY, s)
      end
  | "HVALS" :: rest =>
      match rest with
      | [key] =>
          match s !! key with
          | None => (RMulti [], s)
          | Some (VHash h) => (RMulti (map (fun fv => RBulk (snd fv)) h), s)
          | Some _ => (RError WRONGTYPE, s)
          end
      | _ => (RError ERR_ARITY, s)
      end
  | "SMEMBERS" :: rest =>
      match rest with
      | [key] =>
          match s !! key with
          | None => (RMulti [], s)
          | Some (VSet m) => (RMulti (map RBulk m), s)
          | Some _ => (RError WRONGTYPE, s)
          end
      | _ => (RError ERR_ARITY, s)
      end
  | "ZCARD" :: rest =>
      match rest with
      | [key] =>
          match s !! key with
          | None => (RInt 0, s)
          | Some (VZSet z) => (RInt (Z.of_nat (length z)), s)
          | Some _ => (RError WRONGTYPE, s)
          end
      | _ => (RError ERR_ARITY, s)
      end
  | "ZRANGE" :: rest =>
      match rest with
      | [key; start; stop] =>
          match Str.to_Z start, Str.to_Z stop with
          | Some a, Some b =>
              match s !! key with
              | None => (RMulti [], s)
              | Some (VZSet z) => (RMulti (map (fun ms => RBulk (fst ms)) (range a b z)), s)
              | Some _ => (RError WRONGTYPE, s)
              end
          | _, _ => (RError ERR_NOT_INT, s)
          end
      | _ => (RError ERR_ARITY, s)
      end
  | _ => (RError ERR_UNKNOWN, s)
  end.

End Redis.

(** ** Lua scripts run by the server *)

Module Lua.
Import Redis.

(** The Lua values a script handles.  A status reply reaches Lua as the
    table [{ok = s}], a multi-bulk reply as an array. *)
Inductive value : Type :=
  | Nil
  | Bool (b : bool)
  | Num (z : Z)
  | Str (s : string)
  | Status (s : string)
  | Array (l : list value).

(** The outcome of running Lua code on a key space.  The server does not
    roll back what a script wrote before it failed. *)
Inductive result (A : Type) : Type :=
  | Ret (a : A) (s : store)
  | Error (msg : string) (s : store)
  | OutOfFuel.
Arguments Ret {A} a s.
Arguments Error {A} msg s.
Arguments OutOfFuel {A}.

Definition M (A : Type) : Type := store -> result A.

Definition ret {A} (a : A) : M A := fun s => Ret a s.

Definition bind {A B} (m : M A) (k : A -> M B) : M B :=
  fun s =>
    match m s with
    | Ret a s' => k a s'
    | Error msg s' => Error msg s'
    | OutOfFuel => OutOfFuel
    end.

Definition throw {A} (msg : string) : M A := fun s => Error msg s.

Definition out_of_fuel {A} : M A := fun _ => OutOfFuel.

Declare Scope lua_scope.
Delimit Scope lua_scope with lua.
Notation "x <- m ;; k" := (bind m (fun x => k))
  (at level 100, m at next level, right associativity) : lua_scope.
Notation "m ;; k" := (bind m (fun _ => k))
  (at level 100, right associativity) : lua_scope.

(** Redis reply to Lua value (an error reply never gets here as a
    value: [redis_call] raises it). *)
Fixpoint of_reply (r : reply) : value :=
  match r with
  | RNil => Bool false
  | RBulk s => Str s
  | RInt z => Num z
  | RStatus s => Status s
  | RMulti l => Array (map of_reply l)
  | RError msg => Status msg
  end.

(** Lua value to Redis reply, for the value a script returns. *)
Fixpoint to_reply (v : value) : reply :=
  match v with
  | Nil => RNil
  | Bool false => RNil
  | Bool true => RInt 1
  | Num z => RInt z
  | Str s => RBulk s
  | Status s => RStatus s
  | Array l => RMulti (map to_reply l)
  end.

Definition ERR_ARGS : string := "Lua redis() command arguments must be strings or integers".
Definition ERR_LUA_ARITY : string := "Wrong number of args calling Redis command From Lua script".

(** An argument of [redis.call] must be a string or a number. *)
Definition arg_string (v : value) : option string :=
  match v with
  | Str s => Some s
  | Num z => Some (Str.of_Z z)
  | _ => None
  end.

Fixpoint arg_strings (vs : list value) : option (list string) :=
  match vs with
  | [] => Some []
  | v :: vs' =>
      match arg_string v, arg_strings vs' with
      | Some s, Some ss => Some (s :: ss)
      | _, _ => None
      end
  end.

(** [redis.call(...)]: an error reply raises a Lua error. *)
Definition redis_call (args : list value) : M value :=
  fun s =>
    match arg_strings args with
    | None => Error ERR_ARGS s
    | Some argv =>
        match command argv s with
        | (RError msg, s') =>
            Error (if String.eqb msg ERR_ARITY then ERR_LUA_ARITY else msg) s'
        | (r, s') => Ret (of_reply r) s'
        end
    end.

(** [t[i]] on an array, 1-based; [nil] when absent. *)
Definition index (t : list value) (i : nat) : value :=
  match i with
  | O => Nil
  | S n => match t !! n with Some v => v | None => Nil end
  end.

(** Lua truth: everything but [nil] and [false]. *)
Definition truthy (v : value) : bool :=
  match v with
  | Nil | Bool false => false
  | _ => true
  end.

(** [t['ok']]: the field of a status table. *)
Definition field_ok (v : value) : value :=
  match v with
  | Status s => Str s
  | _ => Nil
  end.

(** The body of a script: from [KEYS], [ARGV] and a bound on the calls
    and loop rounds it may take to a computation. *)
Definition body : Type := list value -> list value -> nat -> M value.

End Lua.

(** ** The Python side: exceptions, process state and the client *)

Module Py.
Import Redis.

(** The exceptions the modelled code raises or lets through.
    [ResponseError] is the client's exception for an error reply of the
    server; [ValueError] and [TypeError] are what [json.loads],
    [json.dumps] and a call of a non-callable raise, [AttributeError]
    what reading an attribute that an object lacks raises. *)
Inductive exn : Type :=
  | EncodingError
  | DataTypeError
  | ScriptError
  | IndexError
  | KeyError
  | ResponseError (msg : string)
  | ValueError
  | TypeError
  | AttributeError.

(** One round trip to the server. *)
Inductive event : Type :=
  | Command (argv : list string)
  | ScriptLoad (cls : string)
  | EvalSha (cls : string) (keys args : list string).

(** What the class attribute [script] of a script class holds: the Lua
    source it was declared with, or the compiled script object that
    [register_script] returned. *)
Inductive script_attr : Type := Source | Compiled.

(** The class-level attributes [register] writes. *)
Record class_attrs : Type := ClassAttrs {
  is_registered : bool;
  script_slot : script_attr
}.

(** The attributes a script class starts with: those of the class body. *)
Definition class_default : class_attrs :=
  {| is_registered := false; script_slot := Source |}.

(** The process and the server it talks to: the key space, the
    attributes written on script classes (by class name), and the round
    trips made so far, oldest first. *)
Record world : Type := World {
  db : store;
  classes : gmap string class_attrs;
  log : list event
}.

Definition class_of (w : world) (cls : string) : class_attrs :=
  match classes w !! cls with
  | Some a => a
  | None => class_default
  end.

Inductive result (A : Type) : Type :=
  | Ret (a : A) (w : world)
  | Raise (e : exn) (w : world)
  | OutOfFuel.
Arguments Ret {A} a w.
Arguments Raise {A} e w.
Arguments OutOfFuel {A}.

Definition M (A : Type) : Type := world -> result A.

Definition ret {A} (a : A) : M A := fun w => Ret a w.

Definition bind {A B} (m : M A) (k : A -> M B) : M B :=
  fun w =>
    match m w with
    | Ret a w' => k a w'
    | Raise e w' => Raise e w'
    | OutOfFuel => OutOfFuel
    end.

Definition raise {A} (e : exn) : M A := fun w => Raise e w.

(** A pure computation that may raise. *)
Definition lift {A} (r : exn + A) : M A :=
  match r with
  | inl e => raise e
  | inr a => ret a
  end.

Declare Scope py_scope.
Delimit Scope py_scope with py.
Notation "x <- m ;; k" := (bind m (fun x => k))
  (at level 100, m at next level, right associativity) : py_scope.
Notation "m ;; k" := (bind m (fun _ => k))
  (at level 100, right associativity) : py_scope.

(** The world after one more round trip. *)
Definition logged (w : world) (e : event) : world :=
  {| db := db w; classes := classes w; log := (log w ++ [e])%list |}.

(** The world after more round trips. *)
Definition logs (w : world) (es : list event) : world :=
  {| db := db w; classes := classes w; log := (log w ++ es)%list |}.

(** The world a finished computation leaves. *)
Definition world_of {A} (r : result A) : option world :=
  match r with
  | Ret _ w | Raise _ w => Some w
  | OutOfFuel => None
  end.

End Py.

(** ** The client ([redis-py]) *)

Module Client.
Import Redis Py.
Local Open Scope py_scope.

(** Send one command; an error reply is raised as [ResponseError]. *)
Definition execute_command (argv : list string) : M reply :=
  fun w =>
    let '(r, s') := command argv (db w) in
    let w' := {| db := s'; classes := classes w; log := (log w ++ [Command argv])%list |} in
    match r with
    | RError msg => Raise (ResponseError msg) w'
    | _ => Ret r w'
    end.

Definition bulk (r : reply) : option string :=
  match r with
  | RBulk s => Some s
  | _ => None
  end.

Definition type (key : string) : M (option string) :=
  r <- execute_command ["TYPE"; key] ;;
  ret (match r with RStatus s => Some s | _ => None end).

Definition lindex (key : string) (index : Z) : M (option string) :=
  r <- execute_command ["LINDEX"; key; Str.of_Z index] ;;
  ret (bulk r).

Definition rpush (key : string) (values : list string) : M reply :=
  execute_command ("RPUSH" :: key :: values).

Definition lpop (key : string) : M (option string) :=
  r <- execute_command ["LPOP"; key] ;;
  ret (bulk r).

Definition delete (key : string) : M reply :=
  execute_command ["DEL"; key].

(** [register_script(body)]: the body goes to the server once and a
    script object comes back. *)
Definition register_script (cls : string) : M script_attr :=
  fun w =>
    Ret Compiled {| db := db w; classes := classes w; log := (log w ++ [ScriptLoad cls])%list |}.

(** Calling the script object: one [EVALSHA] with the keys and the
    arguments as strings. *)
Definition evalsha (cls : string) (body : Lua.body) (fuel : nat)
    (keys args : list string) : M reply :=
  fun w =>
    let lg := (log w ++ [EvalSha cls keys args])%list in
    match body (map Lua.Str keys) (map Lua.Str args) fuel (db w) with
    | Lua.Ret v s' => Ret (Lua.to_reply v) {| db := s'; classes := classes w; log := lg |}
    | Lua.Error msg s' =>
        Raise (ResponseError msg) {| db := s'; classes := classes w; log := lg |}
    | Lua.OutOfFuel => OutOfFuel
    end.

End Client.

(** ** [core.py]: [class Script] *)

Module Script.
Import Redis Py.
Local Open Scope py_scope.

(** A value passed to a script from Python: a string or an integer.  The
    client renders both as strings on the wire. *)
Inductive arg : Type :=
  | AStr (s : string)
  | AInt (z : Z).

Definition wire (a : arg) : string :=
  match a with
  | AStr s => s
  | AInt z => Str.of_Z z
  end.

(** A script class: its class name, its [id], the declared [keys] and
    [args] parameter names and the Lua [script] it was declared with. *)
Record cls : Type := Cls {
  name : string;
  id : string;
  keys : list string;
  args : list string;
  script : Lua.body
}.

Definition set_script (c : string) (v : script_attr) : M unit :=
  fun w =>
    let a := class_of w c in
    Ret tt {| db := db w;
              classes := <[c := {| is_registered := is_registered a; script_slot := v |}]> (classes w);
              log := log w |}.

Definition set_is_registered (c : string) (v : bool) : M unit :=
  fun w =>
    let a := class_of w c in
    Ret tt {| db := db w;
              classes := <[c := {| is_registered := v; script_slot := script_slot a |}]> (classes w);
              log := log w |}.

Definition get_is_registered (c : string) : M bool :=
  fun w => Ret (is_registered (class_of w c)) w.

Definition get_script (c : string) : M script_attr :=
  fun w => Ret (script_slot (class_of w c)) w.

(** [Script.register]. *)
Definition register (self : cls) : M unit :=
  registered <- get_is_registered (name self) ;;
  if negb registered then
    compiled <- Client.register_script (name self) ;;
    set_script (name self) compiled ;;
    set_is_registered (name self) true
  else ret tt.

(** [Script.prepare]: the hook a subclass may override; no script of the
    library does. *)
Definition prepare (keys args : list arg) : list arg * list arg := (keys, args).

(** [Script.process]: likewise. *)
Definition process (value : reply) : reply := value.

(** The two [for] loops of [execute]: each declared name is looked up in
    the keyword arguments, and when it is missing there the positional
    argument at [current_index] is taken and the index moves on; a name
    found in neither raises [ScriptError]. *)
Fixpoint resolve (names : list string) (args : list arg) (kwargs : gmap string arg)
    (current_index : nat) : exn + (list arg * nat) :=
  match names with
  | [] => inr ([], current_index)
  | key :: names' =>
      match kwargs !! key with
      | Some v =>
          match resolve names' args kwargs current_index with
          | inr (vs, i) => inr (v :: vs, i)
          | inl e => inl e
          end
      | None =>
          match args !! current_index with
          | Some v =>
              match resolve names' args kwargs (S current_index) with
              | inr (vs, i) => inr (v :: vs, i)
              | inl e => inl e
              end
          | None => inl ScriptError
          end
      end
  end.

(** [self.script(keys=keys, args=arguments, client=self.client)]: the
    class attribute is called; it is callable once [register] has
    replaced the source by the script object. *)
Definition call (self : cls) (fuel : nat) (keys arguments : list arg) : M reply :=
  slot <- get_script (name self) ;;
  match slot with
  | Source => raise TypeError
  | Compiled => Client.evalsha (name self) (script self) fuel (map wire keys) (map wire arguments)
  end.

(** [Script.execute], called with positional arguments [args_] and
    keyword arguments [kwargs]. *)
Definition execute (self : cls) (fuel : nat) (args_ : list arg) (kwargs : gmap string arg)
    : M reply :=
  registered <- get_is_registered (name self) ;;
  (if negb registered then register self else ret tt) ;;
  r1 <- lift (resolve (keys self) args_ kwargs 0) ;;
  let '(keys_, current_index) := r1 in
  r2 <- lift (resolve (args self) args_ kwargs current_index) ;;
  let '(arguments, _) := r2 in
  let '(keys', arguments') := prepare keys_ arguments in
  value <- call self fuel keys' arguments' ;;
  ret (process value).

(** The class attributes agree: a class marked registered holds the
    script object.  [register] is the only writer of both. *)
Definition consistent (w : world) (c : string) : Prop :=
  is_registered (class_of w c) = true -> script_slot (class_of w c) = Compiled.

(** The world [register] leaves: as it was for a registered class, else
    with the body uploaded and both attributes written. *)
Definition registered_world (self : cls) (w : world) : world :=
  if is_registered (class_of w (name self)) then w
  else {| db := db w;
          classes := <[name self := {| is_registered := true; script_slot := Compiled |}]>
                       (<[name self := {| is_registered := false; script_slot := Compiled |}]>
                          (classes w));
          log := (log w ++ [ScriptLoad (name self)])%list |}.

(** A process before any script class was touched. *)
Definition fresh (s : store) : world := {| db := s; classes := ∅; log := [] |}.

(** What a caller may do with script classes, and a run of such calls;
    an exception of one call is seen by the caller and the run goes on.
    [None]: a script did not finish within its fuel. *)
Inductive op : Type :=
  | Register (self : cls)
  | Execute (self : cls) (fuel : nat) (args_ : list arg) (kwargs : gmap string arg).





(** How often a script was invoked on the server. *)
Definition is_eval (e : event) : bool :=
  match e with
  | EvalSha _ _ _ => true
  | _ => false
  end.

Definition evals (lg : list event) : list event := List.filter is_eval lg.


End Script.

(** ** Parameter resolution in the words of the specification *)

Module Resolution.
Import Script.

(** Among the first [j] declared names, those the named arguments do
    not bind: the positional arguments used up before name [j]. *)
Definition cursor (kwargs : gmap string arg) (params : list string) (j : nat) : nat :=
  length (List.filter (fun p => bool_decide (kwargs !! p = None)) (firstn j params)).

(** The value of declared name [j]: the named argument when there is
    one, else the next unused positional argument. *)
Definition bound (args_ : list arg) (kwargs : gmap string arg) (params : list string)
    (j : nat) : option arg :=
  match params !! j with
  | None => None
  | Some p =>
      match kwargs !! p with
      | Some v => Some v
      | None => args_ !! cursor kwargs params j
      end
  end.

(** All declared names in declaration order, [None] when one of them is
    bound by neither. *)
Definition resolved (args_ : list arg) (kwargs : gmap string arg) (params : list string)
    : option (list arg) :=
  mapM (bound args_ kwargs params) (seq 0 (length params)).

End Resolution.

(** ** [core.py]: [class DeleteAll] *)

Module DeleteAll.
Import Redis Lua.
Local Open Scope lua_scope.

(** [string.find(value, 'redis:struct') == 1]. *)
Definition is_redis_datatype (value : string) : bool :=
  match Str.find value "redis:struct" with
  | Some 1%nat => true
  | _ => false
  end.

(** [string.sub(value, 14)]. *)
Definition get_reference (value : string) : string := Str.drop 13 value.

Definition get_type (key : value) : M value := redis_call [Str "TYPE"; key].

(** [for i = 1, #t do f(t[i]) end]. *)
Fixpoint for_each (f : value -> M unit) (t : list value) : M unit :=
  match t with
  | [] => ret tt
  | v :: t' => f v ;; for_each f t'
  end.

Definition elements (v : value) : list value :=
  match v with
  | Array l => l
  | _ => []
  end.

(** The local function [check_references], closed over the enclosing
    [delete_references]. *)
Definition check_references (delete_references : value -> M unit) (value : value) : M unit :=
  match value with
  | Str s =>
      if is_redis_datatype s
      then delete_references (Str (get_reference s))
      else ret tt
  | _ => throw "bad argument #1 to 'find' (string expected)"
  end.

(** The [while item do ... end] loop of [delete_list], entered with
    [item] read at index [i]; each round takes one unit of [n]. *)
Fixpoint delete_list_loop (check : value -> M unit) (key : value) (n : nat) (i : Z)
    (item : value) : M unit :=
  if truthy item then
    match n with
    | O => out_of_fuel
    | S n' =>
        check item ;;
        item' <- redis_call [Str "LINDEX"; key; Num (i + 1)] ;;
        delete_list_loop check key n' (i + 1) item'
    end
  else ret tt.

Definition delete_list (check : value -> M unit) (fuel : nat) (key : value) : M unit :=
  item <- redis_call [Str "LINDEX"; key; Num 0] ;;
  delete_list_loop check key fuel 0 item ;;
  redis_call [Str "DEL"; key] ;;
  ret tt.

Definition delete_hash (check : value -> M unit) (key : value) : M unit :=
  vals <- redis_call [Str "HVALS"; key] ;;
  for_each check (elements vals) ;;
  redis_call [Str "DEL"; key] ;;
  ret tt.

Definition delete_set (check : value -> M unit) (key : value) : M unit :=
  members <- redis_call [Str "SMEMBERS"; key] ;;
  for_each check (elements members) ;;
  redis_call [Str "DEL"; key] ;;
  ret tt.

Definition delete_sorted_set (check : value -> M unit) (key : value) : M unit :=
  count <- redis_call [Str "ZCARD"; key] ;;
  members <- redis_call [Str "ZRANGE"; key; Num 0; count] ;;
  for_each check (elements members) ;;
  redis_call [Str "DEL"; key] ;;
  ret tt.

(** [delete_references(key)].  Every call and every round of the
    [while] loop takes one unit of [fuel]. *)
Fixpoint delete_references (fuel : nat) (key : value) : M unit :=
  match fuel with
  | O => out_of_fuel
  | S fuel' =>
      let check := check_references (delete_references fuel') in
      t <- get_type key ;;
      match field_ok t with
      | Str "list" => delete_list check fuel' key
      | Str "hash" => delete_hash check key
      | Str "set" => delete_set check key
      | Str "sorted_set" => delete_sorted_set check key
      | _ => redis_call [Str "DEL"; key] ;; ret tt
      end
  end.

(** The script body: [delete_references(KEYS[1])]. *)
Definition script : body :=
  fun KEYS ARGV fuel => delete_references fuel (index KEYS 1) ;; ret Nil.

(** The reference payload for the key [H], as the script reads it. *)
Definition ref (H : string) : string := "redis:struct:" ++ H.

(** The key space after one element [p] of a container was checked,
    when the only structure the container refers to is [H]. *)
Definition follow (H : string) (s : store) (p : string) : store :=
  if is_redis_datatype p then delete H s else s.

(** The key space while a list [L] of [items] that refers to a hash [H]
    of [fields] is walked: [L] is as it was, [H] is as it was or gone. *)
Definition walking (L H : string) (items : list string) (fields : list (string * string))
    (s : store) : Prop :=
  s !! L = Some (VList items) /\ (s !! H = Some (VHash fields) \/ s !! H = None).

End DeleteAll.

(** ** Structure handles and the handle registry *)

Module Handle.
Import Py.

(** The data type classes: [String], [List], [Hash], [Set] and
    [SortedSet]. *)
Inductive kind : Type := KString | KList | KHash | KSet | KSortedSet.

#[global] Instance kind_eq_dec : EqDecision kind.
Proof. solve_decision. Defined.

(** The class attribute [type]. *)
Definition type (k : kind) : string :=
  match k with
  | KString => "string"
  | KList => "list"
  | KHash => "hash"
  | KSet => "set"
  | KSortedSet => "sorted_set"
  end.

(** An instance of a data type class, bound to a key. *)
Record t : Type := Make { cls : kind; key : string }.

#[global] Instance t_eq_dec : EqDecision t.
Proof. solve_decision. Defined.

(** [DataType.register], applied by the decorator to every class:
    [cls.handlers[handler.type] = handler]. *)
Definition register (handler : kind) (handlers : gmap string kind) : gmap string kind :=
  <[type handler := handler]> handlers.

(** [DataType.handlers] once the classes are defined.  [core.py] keeps
    the same table behind [registry.DataType], a module that is not
    among the sources; the table of [datatype.py] stands for both. *)
Definition handlers : gmap string kind :=
  register KSortedSet (register KSet (register KHash (register KList (register KString ∅)))).

(** [DataType.get_handler] ([DataType.get] in [core.py]). *)
Definition get_handler (type : string) : exn + kind :=
  match handlers !! type with
  | Some h => inr h
  | None => inl DataTypeError
  end.

End Handle.

(** ** [core.py]: [class Encoder] and [class DataType] *)

Module Core.
Import Redis Py.
Local Open Scope py_scope.

Section Codec.

(** The Python values [json] serializes, with [json.dumps] ([None]: the
    value is not serializable, a [TypeError]) and [json.loads] ([None]:
    the text is not JSON, a [ValueError]). *)
Context {pyval : Type}.
Variable json_dumps : pyval -> option string.
Variable json_loads : string -> option pyval.

(** What a slot of a structure may be given: an observed value wrapped
    for notification, a data type instance, or a plain Python value. *)
Inductive item : Type :=
  | Wrapper (subject : item)
  | Redis (h : Handle.t)
  | Structure (v : pyval).

Definition REDIS_STRUCTURE_PREFIX : string := "redis:struct".
Definition ABSOLUTE_VALUE_PREFIX : string := "redis:abs".

(** ["%s:%s" % (a, b)]. *)
Definition format2 (a b : string) : string := a ++ ":" ++ b.

Definition _is_redis_item (i : item) : bool :=
  match i with
  | Redis _ => true
  | _ => false
  end.

Definition _encode_redis_item (h : Handle.t) : string :=
  format2 REDIS_STRUCTURE_PREFIX (Handle.key h).

Definition _encode_structure_item (i : item) : exn + string :=
  match i with
  | Structure v =>
      match json_dumps v with
      | Some t => inr (format2 ABSOLUTE_VALUE_PREFIX t)
      | None => inl TypeError
      end
  | _ => inl TypeError
  end.

(** [Encoder.encode]: a wrapper is replaced by its subject, then a data
    type instance is encoded by [_encode_redis_item] and anything else
    by [_encode_structure_item] (the test [_is_redis_item] and the
    access to [item.key] are the one [match]).  It reads nothing but its
    argument. *)
Definition encode (i : item) : exn + string :=
  let i := match i with Wrapper subject => subject | _ => i end in
  match i with
  | Redis h => inr (_encode_redis_item h)
  | _ => _encode_structure_item i
  end.

Definition _is_redis_value (value : string) : bool :=
  Str.startswith value REDIS_STRUCTURE_PREFIX.

Definition _is_structure_value (value : string) : bool :=
  Str.startswith value ABSOLUTE_VALUE_PREFIX.

(** [Encoder._decode_redis_value]. *)
Definition _decode_redis_value (value : string) : M item :=
  let key := Str.drop (String.length REDIS_STRUCTURE_PREFIX + 1) value in
  type <- Client.type key ;;
  match type with
  | None => raise EncodingError
  | Some t =>
      if String.eqb t "none" then raise EncodingError
      else
        handler <- lift (Handle.get_handler t) ;;
        ret (Redis (Handle.Make handler key))
  end.

(** [Encoder._decode_structure_value]. *)
Definition _decode_structure_value (value : string) : M item :=
  match json_loads (Str.drop (String.length ABSOLUTE_VALUE_PREFIX + 1) value) with
  | Some v => ret (Structure v)
  | None => raise ValueError
  end.

(** [Encoder.decode]. *)
Definition decode (value : string) : M item :=
  if _is_redis_value value then _decode_redis_value value
  else if _is_structure_value value then _decode_structure_value value
  else raise EncodingError.

(** What [decode] returns, as a function of the key space alone, and
    the round trips it makes. *)
Definition decoded (s : store) (value : string) : exn + item :=
  if _is_redis_value value then
    let key := Str.drop (String.length REDIS_STRUCTURE_PREFIX + 1) value in
    if String.eqb (type_of s key) "none" then inl EncodingError
    else match Handle.get_handler (type_of s key) with
         | inr k => inr (Redis (Handle.Make k key))
         | inl e => inl e
         end
  else if _is_structure_value value then
    match json_loads (Str.drop (String.length ABSOLUTE_VALUE_PREFIX + 1) value) with
    | Some v => inr (Structure v)
    | None => inl ValueError
    end
  else inl EncodingError.

Definition decode_trips (value : string) : list event :=
  if _is_redis_value value
  then [Command ["TYPE"; Str.drop (String.length REDIS_STRUCTURE_PREFIX + 1) value]]
  else [].

(** [DataType._scripts]: the class attribute, the empty table.  The
    [__new__] that would enter the cascading delete under
    ['delete_all'] takes a name, the bases and the attributes, as the
    [__new__] of a metaclass does, and a class is never made through
    it, so nothing is entered. *)
Definition _scripts : gmap string Script.cls := ∅.

(** [DataType._load_script]: [self._scripts[script](self.key.client)].
    A script that is not in the table raises [ScriptError]; for one
    that is, the argument [self.key.client] is evaluated next, and the
    key, a string, has no such attribute. *)
Definition _load_script (script : string) : exn + Script.cls :=
  match _scripts !! script with
  | Some _ => inl AttributeError
  | None => inl ScriptError
  end.

(** [DataType._execute_script]. *)
Definition _execute_script (fuel : nat) (script : string) (args : list Script.arg)
    (kwargs : gmap string Script.arg) : M reply :=
  c <- lift (_load_script script) ;;
  Script.execute c fuel args kwargs.

(** [DataType.delete], on an instance taken as given. *)
Definition delete (self : Handle.t) (fuel : nat) : M unit :=
  _execute_script fuel "delete_all" [Script.AStr (Handle.key self)] ∅ ;;
  ret tt.

End Codec.

End Core.

(** ** [datatypes/list.py]: the list scripts *)

Module ListScripts.
Import Redis Lua.
Local Open Scope lua_scope.

Definition DELETE_MARK : string := "____delete____".

(** [class ListInsert]. *)
Definition insert_script : body :=
  fun KEYS ARGV _ =>
    let key := index KEYS 1 in
    let index_ := index KEYS 2 in
    let item := index ARGV 1 in
    pivot <- redis_call [Str "LINDEX"; key; index_] ;;
    redis_call [Str "LINSERT"; key; pivot; item].

Definition ListInsert : Script.cls :=
  {| Script.name := "ListInsert"; Script.id := "insert";
     Script.keys := ["key"; "index"]; Script.args := ["item"];
     Script.script := insert_script |}.

(** [class ListPop]. *)
Definition pop_script : body :=
  fun KEYS ARGV _ =>
    let key := index KEYS 1 in
    let index_ := index ARGV 1 in
    item <- redis_call [Str "LINDEX"; key; index_] ;;
    redis_call [Str "LSET"; key; index_; Str DELETE_MARK] ;;
    redis_call [Str "LREM"; key; Num 0; Str DELETE_MARK] ;;
    ret item.

Definition ListPop : Script.cls :=
  {| Script.name := "ListPop"; Script.id := "pop";
     Script.keys := ["key"]; Script.args := ["index"];
     Script.script := pop_script |}.

(** Lua [==] on the values a list holds. *)
Definition value_eqb (a b : value) : bool :=
  match a, b with
  | Str x, Str y => String.eqb x y
  | Num x, Num y => Z.eqb x y
  | Bool x, Bool y => Bool.eqb x y
  | Nil, Nil => true
  | _, _ => false
  end.

(** [class ListCount]: its indexed reads leave the key out. *)
Fixpoint count_loop (n : nat) (item : value) (i count : Z) (val : value) : M value :=
  if truthy val then
    match n with
    | O => out_of_fuel
    | S n' =>
        let count' := if value_eqb val item then count + 1 else count in
        val' <- redis_call [Str "LINDEX"; Num (i + 1)] ;;
        count_loop n' item (i + 1) count' val'
    end
  else ret (Num count).

Definition count_script : body :=
  fun KEYS ARGV fuel =>
    let item := index ARGV 1 in
    val <- redis_call [Str "LINDEX"; Num 0] ;;
    count_loop fuel item 0 0 val.

Definition ListCount : Script.cls :=
  {| Script.name := "ListCount"; Script.id := "count";
     Script.keys := ["key"]; Script.args := ["item"];
     Script.script := count_script |}.

(** [class ListContains]. *)
Fixpoint contains_loop (n : nat) (key item : value) (i : Z) (val : value) : M value :=
  if truthy val then
    match n with
    | O => out_of_fuel
    | S n' =>
        if value_eqb val item then ret (Bool true)
        else
          val' <- redis_call [Str "LINDEX"; key; Num (i + 1)] ;;
          contains_loop n' key item (i + 1) val'
    end
  else ret (Bool false).

Definition contains_script : body :=
  fun KEYS ARGV fuel =>
    let key := index KEYS 1 in
    let item := index ARGV 1 in
    val <- redis_call [Str "LINDEX"; key; Num 0] ;;
    contains_loop fuel key item 0 val.

Definition ListContains : Script.cls :=
  {| Script.name := "ListContains"; Script.id := "contains";
     Script.keys := ["key"]; Script.args := ["item"];
     Script.script := contains_script |}.

(** [class ListDelete]. *)
Definition delete_script : body :=
  fun KEYS ARGV _ =>
    let key := index KEYS 1 in
    let index_ := index ARGV 1 in
    redis_call [Str "LSET"; key; index_; Str DELETE_MARK] ;;
    redis_call [Str "LREM"; key; Num 1; Str DELETE_MARK] ;;
    ret Nil.

Definition ListDelete : Script.cls :=
  {| Script.name := "ListDelete"; Script.id := "delete";
     Script.keys := ["key"]; Script.args := ["index"];
     Script.script := delete_script |}.

End ListScripts.

(** ** [datatypes/list.py]: [class List] *)

Module ListPy.
Import Redis Py.
Local Open Scope py_scope.

(** [DataType.script], applied by the [@List.script] decorator:
    [cls.scripts[script.id] = script]. *)
Definition script (s : Script.cls) (scripts : gmap string Script.cls) : gmap string Script.cls :=
  <[Script.id s := s]> scripts.

(** [List.scripts] once the five script classes are defined. *)
Definition scripts : gmap string Script.cls :=
  script ListScripts.ListDelete
    (script ListScripts.ListContains
       (script ListScripts.ListCount
          (script ListScripts.ListPop
             (script ListScripts.ListInsert ∅)))).

(** [DataType.get_script]. *)
Definition get_script (id : string) : exn + Script.cls :=
  match scripts !! id with
  | Some s => inr s
  | None => inl DataTypeError
  end.

(** [DataType._execute_script]. *)
Definition _execute_script (fuel : nat) (id : string) (args : list Script.arg)
    (kwargs : gmap string Script.arg) : M reply :=
  s <- lift (get_script id) ;;
  Script.execute s fuel args kwargs.

(** The state of the generator [List.__iter__] returns: not started,
    suspended at the [yield] for index [i], or finished. *)
Inductive generator : Type :=
  | GenStart
  | GenAt (i : Z)
  | GenDone.

Definition out_of_fuel {A} : M A := fun _ => OutOfFuel.

(** The decimal renderings of the [n] indices from [a] on. *)
Definition index_strings (a n : nat) : list string :=
  map (fun j => Str.of_Z (Z.of_nat j)) (seq a n).

(** The index a generator reads at its next [next()]. *)
Definition position (g : generator) : Z :=
  match g with
  | GenStart => 0
  | GenAt i => i + 1
  | GenDone => 0
  end.

Section Codec.

Context {pyval : Type}.
Variable json_dumps : pyval -> option string.
Variable json_loads : string -> option pyval.

(** [self.wrap(value, index)], a method of the base class this module
    was written against; the sources do not hold it.  In [core.py],
    [Observer.observe] hands an observable value to a notifier and
    returns any other value as it is. *)
Variable wrap : Core.item (pyval := pyval) -> Z -> Core.item (pyval := pyval).

(** [self.encode] and [self.decode] come from the same base class; they
    are the encoder's, as [ActiveRedis] binds them in [core.py]. *)
Abbreviation item := (Core.item (pyval := pyval)).
Abbreviation encode := (Core.encode json_dumps).
Abbreviation decode := (Core.decode json_loads).

(** The loop of [__iter__] from the read of index [i] to the next
    [yield] or to the end. *)
Definition fetch (key : string) (i : Z) : M (option item * generator) :=
  payload <- Client.lindex key i ;;
  match payload with
  | None => ret (None, GenDone)
  | Some p =>
      v <- decode p ;;
      ret (Some (wrap v i), GenAt i)
  end.

(** One [next()] on the generator: [Some v] for a yielded value,
    [None] for [StopIteration]. *)
Definition next (key : string) (g : generator) : M (option item * generator) :=
  match g with
  | GenStart => fetch key 0
  | GenAt i => fetch key (i + 1)
  | GenDone => ret (None, GenDone)
  end.

(** Draining a generator, as [list(...)] or a [for] loop does. *)
Fixpoint drain (fuel : nat) (key : string) (g : generator) : M (list item) :=
  match fuel with
  | O => out_of_fuel
  | S fuel' =>
      r <- next key g ;;
      match r with
      | (None, _) => ret []
      | (Some v, g') =>
          vs <- drain fuel' key g' ;;
          ret (v :: vs)
      end
  end.

(** The indices of the [LINDEX] reads of [key] in a log, in order. *)
Definition lindex_read (key : string) (e : event) : option string :=
  match e with
  | Command ["LINDEX"; k; i] => if String.eqb k key then Some i else None
  | _ => None
  end.

Definition lindex_reads (key : string) (lg : list event) : list string :=
  omap (lindex_read key) lg.

(** What an iteration over the payloads [l], the first of them at index
    [i], yields: each payload decoded and wrapped with its index, up to
    the first that does not decode. *)
Fixpoint yields (s : store) (i : Z) (l : list string) : exn + list item :=
  match l with
  | [] => inr []
  | p :: l' =>
      match Core.decoded json_loads s p with
      | inl e => inl e
      | inr v =>
          match yields s (i + 1) l' with
          | inl e => inl e
          | inr vs => inr (wrap v i :: vs)
          end
      end
  end.

(** [list(iter(self))]: a new iteration, run to its end. *)
Definition __iter__ (fuel : nat) (key : string) : M (list item) :=
  drain fuel key GenStart.

(** [List.__len__]. *)
Definition __len__ (key : string) : M reply :=
  Client.execute_command ["LLEN"; key].

(** [List.__getitem__]. *)
Definition __getitem__ (key : string) (index : Z) : M item :=
  payload <- Client.lindex key index ;;
  match payload with
  | None => raise IndexError
  | Some p =>
      v <- decode p ;;
      ret (wrap v index)
  end.

(** [List.__setitem__]. *)
Definition __setitem__ (key : string) (index : Z) (i : item) : M reply :=
  p <- lift (encode i) ;;
  Client.execute_command ["LSET"; key; Str.of_Z index; p].

(** [List.__delitem__]: a [ResponseError] of the script becomes an
    [IndexError]. *)
Definition __delitem__ (fuel : nat) (key : string) (index : Z) : M reply :=
  fun w =>
    match _execute_script fuel "delete" [Script.AStr key; Script.AInt index] ∅ w with
    | Raise (ResponseError _) w' => Raise IndexError w'
    | r => r
    end.

(** [List.__contains__]. *)
Definition __contains__ (fuel : nat) (key : string) (i : item) : M reply :=
  p <- lift (encode i) ;;
  _execute_script fuel "contains" [Script.AStr key; Script.AStr p] ∅.

(** [List.append]. *)
Definition append (key : string) (i : item) : M unit :=
  p <- lift (encode i) ;;
  Client.rpush key [p] ;;
  ret tt.

(** [List.insert]. *)
Definition insert (fuel : nat) (key : string) (index : Z) (i : item) : M reply :=
  p <- lift (encode i) ;;
  _execute_script fuel "insert" [Script.AStr key; Script.AInt index; Script.AStr p] ∅.

(** [List.pop]. *)
Definition pop (fuel : nat) (key : string) (index : Z) : M reply :=
  _execute_script fuel "pop" [Script.AStr key; Script.AInt index] ∅.

(** [List.index]. *)
Definition index (key : string) (index : Z) : M item :=
  payload <- Client.lindex key index ;;
  match payload with
  | Some p => decode p
  | None => raise IndexError
  end.

(** [List.count]. *)
Definition count (fuel : nat) (key : string) (i : item) : M reply :=
  p <- lift (encode i) ;;
  _execute_script fuel "count" [Script.AStr key; Script.AStr p] ∅.

End Codec.

End ListPy.

(** ** [datatype.py]: the earlier [Encoder], [DataType] and [List] *)

Module Legacy.
Import Redis Py.
Local Open Scope py_scope.

Section Codec.

Context {pyval : Type}.
Variable json_loads : string -> option pyval.

Abbreviation item := (Core.item (pyval := pyval)).

(** [Encoder._decode_redis_value]: the key is what follows the first
    colon of the payload. *)
Definition _decode_redis_value (value : string) : M item :=
  match Str.split1 ":" value with
  | None => raise ValueError
  | Some (_, key) =>
      type <- Client.type key ;;
      match type with
      | None => raise EncodingError
      | Some t =>
          handler <- lift (Handle.get_handler t) ;;
          ret (Core.Redis (Handle.Make handler key))
      end
  end.

(** [Encoder.decode]. *)
Definition decode (value : string) : M item :=
  if Core._is_redis_value value then _decode_redis_value value
  else if Core._is_structure_value value then Core._decode_structure_value json_loads value
  else raise EncodingError.

(** [DataType.delete]. *)
Definition delete (self : Handle.t) : M unit :=
  Client.delete (Handle.key self) ;;
  ret tt.

(** [List.pop]. *)
Definition pop (key : string) (index : Z) : M (option string) :=
  Client.lindex key index.

(** One [next()] on the generator of [List.__iter__]; [true]: the
    generator has not finished.  The attribute [lib] the loop decodes
    through is not defined in the sources; its [decode] is taken to be
    the encoder's. *)
Definition next (key : string) (running : bool) : M (option item * bool) :=
  if running then
    payload <- Client.lpop key ;;
    match payload with
    | None => ret (None, false)
    | Some p =>
        v <- decode p ;;
        ret (Some v, true)
    end
  else ret (None, false).

Fixpoint drain (fuel : nat) (key : string) (running : bool) : M (list item) :=
  match fuel with
  | O => ListPy.out_of_fuel
  | S fuel' =>
      r <- next key running ;;
      match r with
      | (None, _) => ret []
      | (Some v, running') =>
          vs <- drain fuel' key running' ;;
          ret (v :: vs)
      end
  end.

(** [list(iter(self))]. *)
Definition __iter__ (fuel : nat) (key : string) : M (list item) :=
  drain fuel key true.

End Codec.

End Legacy.

(** ** A serializer to run examples with *)

(** The integers of JSON: [json.dumps] renders an integer in decimal and
    [json.loads] reads a decimal rendering back. *)
Module IntJson.

Definition dumps (z : Z) : option string := Some (Str.of_Z z).

Definition loads (s : string) : option Z := Str.to_Z s.

(** [wrap] on values that are not observable: the value itself. *)
Definition wrap (v : Core.item (pyval := Z)) (index : Z) : Core.item (pyval := Z) := v.

End IntJson.

(** The serializer on integers, the empty list and the empty tuple,
    [loads] on the texts [dumps] writes: [json.dumps] writes a tuple as
    it writes a list, and [json.loads] reads a list. *)
Module TupleJson.

Inductive pyval : Type :=
  | PInt (z : Z)
  | PEmptyList
  | PEmptyTuple.

Definition dumps (v : pyval) : option string :=
  match v with
  | PInt z => Some (Str.of_Z z)
  | PEmptyList | PEmptyTuple => Some "[]"
  end.

Definition loads (s : string) : option pyval :=
  if String.eqb s "[]" then Some PEmptyList
  else match Str.to_Z s with
       | Some z => Some (PInt z)
       | None => None
       end.

End TupleJson.

(** ** What the cascading delete reaches *)

Module Reach.
Import Redis.

(** The payloads the delete script walks in a value: the elements of a
    list, the values of a hash, the members of a set.  A string has
    none, and a sorted set is not walked (the server calls it [zset]). *)
Definition payloads (v : rvalue) : list string :=
  match v with
  | VList l => l
  | VHash h => map snd h
  | VSet m => m
  | VString _ | VZSet _ => []
  end.

(** The keys the reference payloads among [ps] name, in order. *)
Definition refs (ps : list string) : list string :=
  map DeleteAll.get_reference (List.filter DeleteAll.is_redis_datatype ps).

Definition targets (v : rvalue) : list string := refs (payloads v).

(** [a] holds a structure with a reference to [b]. *)
Definition edge (s : store) (a b : string) : Prop :=
  exists v, s !! a = Some v /\ b ∈ targets v.

(** [b] is [a] or is reached from [a] through references. *)
Definition reach (s : store) : string -> string -> Prop := rtc (edge s).

(** The references below [key] nest fewer than [n] deep: they form no
    cycle. *)
Fixpoint depth_within (n : nat) (s : store) (key : string) : bool :=
  match n with
  | O => false
  | S n' =>
      match s !! key with
      | Some v => forallb (depth_within n' s) (targets v)
      | None => true
      end
  end.

(** The key space the script leaves when it is run on [key] with
    references nesting fewer than [n] deep: the structures referred to
    are swept in order, then the key goes. *)
Fixpoint sweep (n : nat) (key : string) (s : store) : store :=
  match n with
  | O => s
  | S n' =>
      match s !! key with
      | Some v => delete key (fold_left (fun acc b => sweep n' b acc) (targets v) s)
      | None => s
      end
  end.

Definition sweeps (n : nat) (bs : list string) (s : store) : store :=
  fold_left (fun acc b => sweep n b acc) bs s.

(** [s1] is [s] with some keys deleted. *)
Definition shrunk (s1 s : store) : Prop :=
  forall k, s1 !! k = None \/ s1 !! k = s !! k.

(** [s1] is [s] with keys deleted that are reached from [bs], and no
    others. *)
Definition swept_from (s : store) (bs : list string) (s1 : store) : Prop :=
  shrunk s1 s /\
  forall k, s1 !! k = None -> s !! k = None \/ exists b, b ∈ bs /\ reach s b k.

(** From [key] a structure is reached that refers, through references,
    to itself. *)
Definition loops (s : store) (key : string) : Prop :=
  exists a b, reach s key a /\ edge s a b /\ reach s b a.

(** A run of a script came back with a value: it neither failed nor
    ran on beyond its bound. *)
Definition returned {A} (r : Lua.result A) : bool :=
  match r with
  | Lua.Ret _ _ => true
  | _ => false
  end.

End Reach.
(** ** [datatypes/list.py]: [List.extend], and a run of appends *)

Module ListMore.
Import Redis Py.
Local Open Scope py_scope.

Section Codec.

Context {pyval : Type}.
Variable json_dumps : pyval -> option string.

Abbreviation item := (Core.item (pyval := pyval)).

(** [[self.encode(item) for item in items]]: the payloads in order, or
    what the first item that does not encode raises. *)
Fixpoint encode_all (items : list item) : exn + list string :=
  match items with
  | [] => inr []
  | i :: items' =>
      match Core.encode json_dumps i with
      | inl e => inl e
      | inr p =>
          match encode_all items' with
          | inl e => inl e
          | inr ps => inr (p :: ps)
          end
      end
  end.

(** [List.extend]: the payloads are spread into [rpush(name, *values)],
    so the first of them is taken for the name; [self.key] is not
    passed.  With no payload the call lacks its [name] argument, a
    [TypeError]. *)
Definition extend (key : string) (items : list item) : M unit :=
  ps <- lift (encode_all items) ;;
  match ps with
  | [] => raise TypeError
  | name :: values => Client.rpush name values ;; ret tt
  end.

(** [for i in items: self.append(i)]. *)
Fixpoint appends (key : string) (items : list item) : M unit :=
  match items with
  | [] => ret tt
  | i :: items' => ListPy.append json_dumps key i ;; appends key items'
  end.

End Codec.

End ListMore.
(** ** The server: hashes, sets and [RENAME] *)

Module RedisMore.
Import Redis.

(** The hash a key holds; a key that is not there holds the empty one. *)
Definition hash_at (s : store) (key : string) : option (list (string * string)) :=
  match s !! key with
  | None => Some []
  | Some (VHash h) => Some h
  | Some _ => None
  end.

Definition set_at (s : store) (key : string) : option (list string) :=
  match s !! key with
  | None => Some []
  | Some (VSet m) => Some m
  | Some _ => None
  end.

(** Neither a hash nor a set stays in the key space empty. *)
Definition put_hash (key : string) (h : list (string * string)) (s : store) : store :=
  match h with
  | [] => delete key s
  | _ => <[key := VHash h]> s
  end.

Definition put_set (key : string) (m : list string) (s : store) : store :=
  match m with
  | [] => delete key s
  | _ => <[key := VSet m]> s
  end.

Fixpoint hget (field : string) (h : list (string * string)) : option string :=
  match h with
  | [] => None
  | (f, v) :: h' => if String.eqb f field then Some v else hget field h'
  end.

Fixpoint hset (field value : string) (h : list (string * string)) : list (string * string) :=
  match h with
  | [] => [(field, value)]
  | (f, v) :: h' =>
      if String.eqb f field then (f, value) :: h' else (f, v) :: hset field value h'
  end.

Definition hexists (field : string) (h : list (string * string)) : bool :=
  match hget field h with
  | Some _ => true
  | None => false
  end.

Definition hdel (field : string) (h : list (string * string)) : list (string * string) :=
  List.filter (fun fv => negb (String.eqb (fst fv) field)) h.

Definition sismember (m : string) (l : list string) : bool := existsb (String.eqb m) l.

Definition sadd (m : string) (l : list string) : list string :=
  if sismember m l then l else (l ++ [m])%list.

Definition srem (m : string) (l : list string) : list string :=
  List.filter (fun x => negb (String.eqb x m)) l.

(** The union of sets, the members of the first that are in all the
    others, and the members of the first that are in none of them. *)
Definition sunion (ls : list (list string)) : list string :=
  fold_left (fun acc l => fold_left (fun a x => sadd x a) l acc) ls [].

Definition sinter (ls : list (list string)) : list string :=
  match ls with
  | [] => []
  | l :: ls' => List.filter (fun x => forallb (sismember x) ls') l
  end.

Definition sdiff (ls : list (list string)) : list string :=
  match ls with
  | [] => []
  | l :: ls' => List.filter (fun x => negb (existsb (sismember x) ls')) l
  end.

Fixpoint sets_at (s : store) (keys : list string) : option (list (list string)) :=
  match keys with
  | [] => Some []
  | k :: keys' =>
      match set_at s k, sets_at s keys' with
      | Some m, Some ms => Some (m :: ms)
      | _, _ => None
      end
  end.

(** [SUNIONSTORE], [SINTERSTORE], [SDIFFSTORE]: the result replaces
    whatever the destination held. *)
Definition store_set (op : list (list string) -> list string) (dest : string)
    (keys : list string) (s : store) : reply * store :=
  match keys with
  | [] => (RError ERR_ARITY, s)
  | _ =>
      match sets_at s keys with
      | None => (RError WRONGTYPE, s)
      | Some ls => (RInt (Z.of_nat (length (op ls))), put_set dest (op ls) s)
      end
  end.

(** The commands of [Redis.command] and those the hash and set classes
    send besides. *)
Definition command (argv : list string) (s : store) : reply * store :=
  match argv with
  | "HGET" :: rest =>
      match rest with
      | [key; field] =>
          match hash_at s key with
          | Some h => (bulk_reply (hget field h), s)
          | None => (RError WRONGTYPE, s)
          end
      | _ => (RError ERR_ARITY, s)
      end
  | "HEXISTS" :: rest =>
      match rest with
      | [key; field] =>
          match hash_at s key with
          | Some h => (RInt (if hexists field h then 1 else 0), s)
          | None => (RError WRONGTYPE, s)
          end
      | _ => (RError ERR_ARITY, s)
      end
  | "HSET" :: rest =>
      match rest with
      | [key; field; value] =>
          match hash_at s key with
          | Some h =>
              (RInt (if hexists field h then 0 else 1), <[key := VHash (hset field value h)]> s)
          | None => (RError WRONGTYPE, s)
          end
      | _ => (RError ERR_ARITY, s)
      end
  | "HDEL" :: rest =>
      match rest with
      | key :: field :: fields =>
          match hash_at s key with
          | Some h =>
              let h' := fold_left (fun a f => hdel f a) (field :: fields) h in
              (RInt (Z.of_nat (length h - length h')), put_hash key h' s)
          | None => (RError WRONGTYPE, s)
          end
      | _ => (RError ERR_ARITY, s)
      end
  | "HKEYS" :: rest =>
      match rest with
      | [key] =>
          match hash_at s key with
          | Some h => (RMulti (map (fun fv => RBulk (fst fv)) h), s)
          | None => (RError WRONGTYPE, s)
          end
      | _ => (RError ERR_ARITY, s)
      end
  | "SADD" :: rest =>
      match rest with
      | key :: member :: members =>
          match set_at s key with
          | Some m =>
              let m' := fold_left (fun a x => sadd x a) (member :: members) m in
              (RInt (Z.of_nat (length m' - length m)), <[key := VSet m']> s)
          | None => (RError WRONGTYPE, s)
          end
      | _ => (RError ERR_ARITY, s)
      end
  | "SREM" :: rest =>
      match rest with
      | key :: member :: members =>
          match set_at s key with
          | Some m =>
              let m' := fold_left (fun a x => srem x a) (member :: members) m in
              (RInt (Z.of_nat (length m - length m')), put_set key m' s)
          | None => (RError WRONGTYPE, s)
          end
      | _ => (RError ERR_ARITY, s)
      end
  | "SISMEMBER" :: rest =>
      match rest with
      | [key; member] =>
          match set_at s key with
          | Some m => (RInt (if sismember member m then 1 else 0), s)
          | None => (RError WRONGTYPE, s)
          end
      | _ => (RError ERR_ARITY, s)
      end
  | "SUNIONSTORE" :: rest =>
      match rest with
      | dest :: keys => store_set sunion dest keys s
      | _ => (RError ERR_ARITY, s)
      end
  | "SINTERSTORE" :: rest =>
      match rest with
      | dest :: keys => store_set sinter dest keys s
      | _ => (RError ERR_ARITY, s)
      end
  | "SDIFFSTORE" :: rest =>
      match rest with
      | dest :: keys => store_set sdiff dest keys s
      | _ => (RError ERR_ARITY, s)
      end
  | "RENAME" :: rest =>
      match rest with
      | [old; new] =>
          match s !! old with
          | Some v => (RStatus "OK", <[new := v]> (delete old s))
          | None => (RError ERR_NO_KEY, s)
          end
      | _ => (RError ERR_ARITY, s)
      end
  | _ => Redis.command argv s
  end.

End RedisMore.

(** ** The client methods of the hash and set classes *)

Module ClientMore.
Import Redis Py.
Local Open Scope py_scope.

Definition execute_command (argv : list string) : M reply :=
  fun w =>
    let '(r, s') := RedisMore.command argv (db w) in
    let w' := {| db := s'; classes := classes w; log := (log w ++ [Command argv])%list |} in
    match r with
    | RError msg => Raise (ResponseError msg) w'
    | _ => Ret r w'
    end.

(** [bool(response)] on an integer reply. *)
Definition truth (r : reply) : bool :=
  match r with
  | RInt z => negb (z =? 0)
  | _ => false
  end.

Definition strings (r : reply) : list string :=
  match r with
  | RMulti l => omap Client.bulk l
  | _ => []
  end.

Definition hget (key field : string) : M (option string) :=
  r <- execute_command ["HGET"; key; field] ;;
  ret (Client.bulk r).

Definition hexists (key field : string) : M bool :=
  r <- execute_command ["HEXISTS"; key; field] ;;
  ret (truth r).

Definition hset (key field value : string) : M reply :=
  execute_command ["HSET"; key; field; value].

Definition hdel (key field : string) : M reply :=
  execute_command ["HDEL"; key; field].

Definition hkeys (key : string) : M (list string) :=
  r <- execute_command ["HKEYS"; key] ;;
  ret (strings r).

Definition sadd (key member : string) : M reply :=
  execute_command ["SADD"; key; member].

(** [srem(name, *values)]. *)
Definition srem (name : string) (values : list string) : M reply :=
  execute_command ("SREM" :: name :: values).

Definition sismember (key member : string) : M bool :=
  r <- execute_command ["SISMEMBER"; key; member] ;;
  ret (truth r).

Definition sunionstore (dest : string) (keys : list string) : M reply :=
  execute_command ("SUNIONSTORE" :: dest :: keys).

Definition sinterstore (dest : string) (keys : list string) : M reply :=
  execute_command ("SINTERSTORE" :: dest :: keys).

Definition sdiffstore (dest : string) (keys : list string) : M reply :=
  execute_command ("SDIFFSTORE" :: dest :: keys).

Definition rename (old new : string) : M reply :=
  execute_command ["RENAME"; old; new].

(** [SRANDMEMBER]: the server picks; [pick] stands for its choice, a
    position in the set taken modulo its size. *)
Definition srandmember (pick : list string -> nat) (key : string) : M (option string) :=
  fun w =>
    let w' := logged w (Command ["SRANDMEMBER"; key]) in
    match RedisMore.set_at (db w) key with
    | Some m => Ret (m !! (pick m mod length m)%nat) w'
    | None => Raise (ResponseError WRONGTYPE) w'
    end.

End ClientMore.

(** ** [datatype.py]: [DataType.rename], [class Hash], [class Set] *)

Module LegacyData.
Import Redis Py.
Local Open Scope py_scope.

(** [key or self._create_unique_key()]: [unique] is the key that would
    be generated. *)
Definition key_or (key : option string) (unique : string) : string :=
  match key with
  | Some k => if String.eqb k "" then unique else k
  | None => unique
  end.

(** [DataType.rename]: the handle is bound to the new key first, then
    the command is sent.  The first component is the handle as the call
    leaves it, whether it returns or raises. *)
Definition rename (self : Handle.t) (key : option string) (unique : string)
    : Handle.t * M string :=
  let oldkey := Handle.key self in
  let self' := Handle.Make (Handle.cls self) (key_or key unique) in
  (self', ClientMore.rename oldkey (Handle.key self') ;; ret (Handle.key self')).

End LegacyData.

Module LegacyHash.
Import Redis Py.
Local Open Scope py_scope.

Definition has_key (key field : string) : M bool := ClientMore.hexists key field.

(** The loop of [items]: one [HGET] for each field [HKEYS] gave. *)
Fixpoint items_loop (key : string) (fields : list string) : M (list (string * option string)) :=
  match fields with
  | [] => ret []
  | f :: fields' =>
      v <- ClientMore.hget key f ;;
      rest <- items_loop key fields' ;;
      ret ((f, v) :: rest)
  end.

Definition items (key : string) : M (list (string * option string)) :=
  fields <- ClientMore.hkeys key ;;
  items_loop key fields.

(** [Hash.pop(key, *args)]: the stored value, else the first of [args],
    else [KeyError].  Nothing is removed. *)
Definition pop (key field : string) (args : list string) : M string :=
  value <- ClientMore.hget key field ;;
  match value with
  | Some v => ret v
  | None =>
      match args with
      | a :: _ => ret a
      | [] => raise KeyError
      end
  end.

Definition setdefault (key field default : string) : M (option string) :=
  e <- ClientMore.hexists key field ;;
  if e then ClientMore.hget key field
  else ClientMore.hset key field default ;; ret (Some default).

Definition __getitem__ (key field : string) : M (option string) := ClientMore.hget key field.

Definition __setitem__ (key field value : string) : M reply := ClientMore.hset key field value.

Definition __delitem__ (key field : string) : M reply := ClientMore.hdel key field.

Definition __contains__ (key field : string) : M bool := has_key key field.

End LegacyHash.

Module LegacySet.
Import Redis Py.
Local Open Scope py_scope.

Definition __contains__ (key item : string) : M bool := ClientMore.sismember key item.

Definition add (key item : string) : M unit :=
  ClientMore.sadd key item ;; ret tt.

Definition remove (key item : string) : M unit :=
  c <- __contains__ key item ;;
  if c then ClientMore.srem key [item] ;; ret tt
  else raise KeyError.

Definition discard (key item : string) : M unit :=
  ClientMore.srem key [item] ;; ret tt.

(** [update(other)], [other] any iterable of items. *)
Fixpoint update (key : string) (other : list string) : M unit :=
  match other with
  | [] => ret tt
  | item :: other' =>
      c <- __contains__ key item ;;
      (if negb c then add key item else ret tt) ;;
      update key other'
  end.

(** [union], [intersection], [difference]: [newkey] is the key
    [_create_unique_key()] generates. *)
Definition union (key other newkey : string) : M Handle.t :=
  ClientMore.sunionstore newkey [key; other] ;;
  ret (Handle.Make Handle.KSet newkey).

Definition intersection (key other newkey : string) : M Handle.t :=
  ClientMore.sinterstore newkey [key; other] ;;
  ret (Handle.Make Handle.KSet newkey).

Definition difference (key other newkey : string) : M Handle.t :=
  ClientMore.sdiffstore newkey [key; other] ;;
  ret (Handle.Make Handle.KSet newkey).

(** [issuperset(other)], [other] any iterable of items. *)
Fixpoint issuperset (key : string) (other : list string) : M bool :=
  match other with
  | [] => ret true
  | item :: other' =>
      c <- __contains__ key item ;;
      if negb c then ret false else issuperset key other'
  end.

(** The state of the generator [Set.__iter__] returns: not started,
    suspended at the [yield] of [item], or finished. *)
Inductive generator : Type :=
  | GenStart
  | GenAt (item : string)
  | GenDone.

Section Pick.

Variable pick : list string -> nat.

(** From a [SRANDMEMBER] to the next [yield] or to the end. *)
Definition fetch (key : string) : M (option string * generator) :=
  item <- ClientMore.srandmember pick key ;;
  match item with
  | None => ret (None, GenDone)
  | Some i => ret (Some i, GenAt i)
  end.

(** One [next()]: resumed after a [yield], the generator first calls
    [self.redis.srem(item)], the item in the place of the key. *)
Definition next (key : string) (g : generator) : M (option string * generator) :=
  match g with
  | GenStart => fetch key
  | GenAt item => ClientMore.srem item [] ;; fetch key
  | GenDone => ret (None, GenDone)
  end.

End Pick.

End LegacySet.

(** * Properties *)

(** ** Strings *)

Module StrFacts.

Lemma drop_app (p s : string) : Str.drop (String.length p) (p ++ s) = s.
Proof. induction p as [|c p IH]; simpl; auto. Qed.

Lemma prefix_app (p s : string) : String.prefix p (p ++ s) = true.
Proof.
  induction p as [|c p IH]; simpl.
  - destruct s; reflexivity.
  - destruct (ascii_dec c c); [exact IH | congruence].
Qed.

Lemma of_Z_to_Z (z : Z) : Str.to_Z (Str.of_Z z) = Some z.
Proof.
  unfold Str.to_Z, Str.of_Z.
  rewrite NilZero.isi.
  - rewrite DecimalZ.of_to. rewrite String.eqb_refl. reflexivity.
  - destruct z; simpl; try discriminate.
    intros [= H]. apply (f_equal Pos.of_uint) in H.
    rewrite DecimalPos.Unsigned.of_to in H. discriminate.
  - destruct z; simpl; try discriminate.
    intros [= H]. apply (f_equal Pos.of_uint) in H.
    rewrite DecimalPos.Unsigned.of_to in H. discriminate.
Qed.

Lemma index_0_prefix (p s : string) :
  String.index 0 p s = Some 0%nat <-> String.prefix p s = true.
Proof.
  destruct s as [|c s].
  - destruct p; simpl; split; congruence.
  - cbn [String.index].
    destruct (String.prefix p (String c s)); [split; reflexivity|].
    destruct (String.index 0 p s); split; congruence.
Qed.

Lemma find_1_prefix (s p : string) :
  Str.find s p = Some 1%nat <-> Str.startswith s p = true.
Proof.
  unfold Str.find, Str.startswith. rewrite <- index_0_prefix.
  destruct (String.index 0 p s) as [i|]; split; intros H; try congruence.
Qed.

End StrFacts.

(** ** The codec *)

Module CoreFacts.
Import Redis Py Core StrFacts.

Lemma client_type_eq (key : string) (w : world) :
  Client.type key w = Ret (Some (type_of (db w) key)) (logged w (Command ["TYPE"; key])).
Proof. reflexivity. Qed.




Lemma get_handler_error (t : string) (e : exn) :
  Handle.get_handler t = inl e -> e = DataTypeError.
Proof. unfold Handle.get_handler. destruct (Handle.handlers !! t); congruence. Qed.

Section Codec.

Context {pyval : Type}.
Variable json_dumps : pyval -> option string.
Variable json_loads : string -> option pyval.

Lemma is_redis_value_reference (key : string) :
  _is_redis_value (format2 REDIS_STRUCTURE_PREFIX key) = true.
Proof. reflexivity. Qed.

Lemma is_redis_value_inline (t : string) :
  _is_redis_value (format2 ABSOLUTE_VALUE_PREFIX t) = false.
Proof. reflexivity. Qed.

Lemma is_structure_value_inline (t : string) :
  _is_structure_value (format2 ABSOLUTE_VALUE_PREFIX t) = true.
Proof. reflexivity. Qed.

Lemma decode_redis_value_eq (value : string) (w : world) :
  _decode_redis_value (pyval := pyval) value w =
    let key := Str.drop 13 value in
    let w' := logged w (Command ["TYPE"; key]) in
    if String.eqb (type_of (db w) key) "none" then Raise EncodingError w'
    else match Handle.get_handler (type_of (db w) key) with
         | inr k => Ret (Redis (Handle.Make k key)) w'
         | inl e => Raise e w'
         end.
Proof.
  unfold _decode_redis_value, bind. rewrite client_type_eq. cbn zeta.
  change (Str.drop (String.length REDIS_STRUCTURE_PREFIX + 1) value) with (Str.drop 13 value).
  destruct (String.eqb _ "none"); [reflexivity|].
  unfold lift. destruct (Handle.get_handler _); reflexivity.
Qed.

Lemma decode_structure_value_eq (value : string) (w : world) :
  _decode_structure_value json_loads value w =
    match json_loads (Str.drop 10 value) with
    | Some v => Ret (Structure v) w
    | None => Raise ValueError w
    end.
Proof.
  unfold _decode_structure_value.
  change (Str.drop (String.length ABSOLUTE_VALUE_PREFIX + 1) value) with (Str.drop 10 value).
  destruct (json_loads _); reflexivity.
Qed.

(** [decode] leaves the key space and the class attributes alone. *)
Lemma decode_frame (value : string) (w w' : world) :
  world_of (decode json_loads value w) = Some w' ->
  db w' = db w /\ classes w' = classes w.
Proof.
  unfold decode. destruct (_is_redis_value value).
  - rewrite decode_redis_value_eq. cbn zeta.
    destruct (String.eqb _ _); [simpl; intros [= <-]; auto|].
    destruct (Handle.get_handler _); simpl; intros [= <-]; auto.
  - destruct (_is_structure_value value).
    + rewrite decode_structure_value_eq.
      destruct (json_loads _); simpl; intros [= <-]; auto.
    + simpl. intros [= <-]. auto.
Qed.

(** [decode] always comes back. *)
Lemma decode_finishes (value : string) (w : world) :
  decode json_loads value w <> OutOfFuel.
Proof.
  unfold decode. destruct (_is_redis_value value).
  - rewrite decode_redis_value_eq. cbn zeta.
    destruct (String.eqb _ _); [discriminate|].
    destruct (Handle.get_handler _); discriminate.
  - destruct (_is_structure_value value).
    + rewrite decode_structure_value_eq. destruct (json_loads _); discriminate.
    + discriminate.
Qed.

(** [decode] raises nothing but [EncodingError], [DataTypeError] and
    [ValueError]. *)
Lemma decode_raises (value : string) (w w' : world) (e : exn) :
  decode json_loads value w = Raise e w' ->
  e = EncodingError \/ e = DataTypeError \/ e = ValueError.
Proof.
  unfold decode. destruct (_is_redis_value value).
  - rewrite decode_redis_value_eq. cbn zeta.
    destruct (String.eqb _ _); [intros [= <- _]; auto|].
    destruct (Handle.get_handler _) eqn:E; [|discriminate].
    intros [= <- _]. apply get_handler_error in E. auto.
  - destruct (_is_structure_value value).
    + rewrite decode_structure_value_eq. destruct (json_loads _); [discriminate|].
      intros [= <- _]. auto.
    + intros [= <- _]. auto.
Qed.

(** C3.  For a value [v] that is a plain Python value and that the
    serializer round-trips ([json.dumps] gives [t] and [json.loads]
    reads [t] back as [v]): [encode] gives the inline payload
    [redis:abs:t], [decode] of that payload gives [v] back, and neither
    touches the world (no round trip is logged, nothing is written). *)
Theorem inline_roundtrip (v : pyval) (t : string) (w : world) :
  json_dumps v = Some t -> json_loads t = Some v ->
  lift (encode json_dumps (Structure v)) w = Ret (format2 ABSOLUTE_VALUE_PREFIX t) w /\
  decode json_loads (format2 ABSOLUTE_VALUE_PREFIX t) w = Ret (Structure v) w.
Proof.
  intros Hd Hl. split.
  - unfold encode, _encode_structure_item. rewrite Hd. reflexivity.
  - unfold decode. rewrite is_redis_value_inline, is_structure_value_inline.
    rewrite decode_structure_value_eq.
    change (Str.drop 10 (format2 ABSOLUTE_VALUE_PREFIX t)) with t.
    rewrite Hl. reflexivity.
Qed.



End Codec.

(** C3 at the integer [5]. *)
Lemma inline_roundtrip_witness :
  lift (encode IntJson.dumps (Structure 5)) (Script.fresh ∅) =
    Ret "redis:abs:5" (Script.fresh ∅) /\
  decode IntJson.loads "redis:abs:5" (Script.fresh ∅) = Ret (Structure 5) (Script.fresh ∅).
Proof.
  exact (inline_roundtrip IntJson.dumps IntJson.loads 5 "5" (Script.fresh ∅) eq_refl eq_refl).
Defined.

(** C3 as stated fails.  The empty tuple is serializable, [json.dumps]
    writes it as it writes the empty list, and [json.loads] reads a
    list: what [decode] gives back is the empty list, not the tuple
    that was encoded. *)
Lemma inline_roundtrip_counterexample :
  TupleJson.dumps TupleJson.PEmptyTuple = Some "[]" /\
  encode TupleJson.dumps (Structure TupleJson.PEmptyTuple) = inr "redis:abs:[]" /\
  decode TupleJson.loads "redis:abs:[]" (Script.fresh ∅) =
    Ret (Structure TupleJson.PEmptyList) (Script.fresh ∅) /\
  Structure TupleJson.PEmptyList <> Structure TupleJson.PEmptyTuple.
Proof.
  split; [reflexivity|]. split; [reflexivity|]. split; [reflexivity|].
  discriminate.
Qed.





End CoreFacts.

(** ** The script runner *)

Module ScriptFacts.
Import Redis Py Script Resolution.
Local Open Scope py_scope.
Local Open Scope nat_scope.

Lemma mapM_option_app {A B} (f : A -> option B) (l1 l2 : list A) :
  mapM f (l1 ++ l2)%list =
    match mapM f l1, mapM f l2 with
    | Some a, Some b => Some (a ++ b)%list
    | _, _ => None
    end.
Proof.
  induction l1 as [|x l1 IH]; simpl.
  - destruct (mapM f l2); reflexivity.
  - destruct (f x); simpl; [|reflexivity].
    rewrite IH. destruct (mapM f l1), (mapM f l2); reflexivity.
Qed.

Lemma mapM_option_ext {A B} (f g : A -> option B) (l : list A) :
  (forall x, x ∈ l -> f x = g x) -> mapM f l = mapM g l.
Proof.
  induction l as [|x l IH]; intros H; [reflexivity|].
  simpl. rewrite H by left. rewrite IH by (intros y Hy; apply H; right; exact Hy).
  reflexivity.
Qed.

Lemma cursor_app (kwargs : gmap string arg) (pre names : list string) :
  cursor kwargs (pre ++ names)%list (length pre) = cursor kwargs pre (length pre).
Proof.
  unfold cursor. rewrite firstn_app, Nat.sub_diag, firstn_all. simpl.
  rewrite app_nil_r. reflexivity.
Qed.

Lemma cursor_snoc (kwargs : gmap string arg) (pre : list string) (key : string) :
  cursor kwargs (pre ++ [key])%list (length (pre ++ [key])%list) =
    (cursor kwargs pre (length pre) + match kwargs !! key with Some _ => 0 | None => 1 end)%nat.
Proof.
  unfold cursor. rewrite !firstn_all, List.filter_app, length_app. simpl.
  case_bool_decide as E.
  - rewrite E. reflexivity.
  - destruct (kwargs !! key); [reflexivity | congruence].
Qed.

Lemma resolve_closed (args_ : list arg) (kwargs : gmap string arg) (names pre : list string) :
  resolve names args_ kwargs (cursor kwargs pre (length pre)) =
    match mapM (bound args_ kwargs (pre ++ names)%list) (seq (length pre) (length names)) with
    | Some vs => inr (vs, cursor kwargs (pre ++ names)%list (length (pre ++ names)%list))
    | None => inl ScriptError
    end.
Proof.
  revert pre. induction names as [|key names IH]; intros pre.
  - simpl. rewrite app_nil_r. reflexivity.
  - cbn [resolve length seq mapM].
    assert (Hb : bound args_ kwargs (pre ++ key :: names)%list (length pre) =
                 match kwargs !! key with
                 | Some v => Some v
                 | None => args_ !! cursor kwargs pre (length pre)
                 end).
    { unfold bound. rewrite list_lookup_middle by reflexivity.
      rewrite cursor_app. reflexivity. }
    specialize (IH (pre ++ [key])%list).
    rewrite cursor_snoc in IH.
    replace (length (pre ++ [key])%list) with (S (length pre)) in IH
      by (rewrite length_app; simpl; lia).
    rewrite <- app_assoc in IH. simpl in IH.
    simpl. rewrite Hb.
    destruct (kwargs !! key) as [v|] eqn:Ek; simpl.
    + rewrite Nat.add_0_r in IH. rewrite IH.
      destruct (mapM _ _); reflexivity.
    + destruct (args_ !! cursor kwargs pre (length pre)) as [v|]; simpl; [|reflexivity].
      replace (S (cursor kwargs pre (length pre))) with (cursor kwargs pre (length pre) + 1)%nat by lia.
      rewrite IH. destruct (mapM _ _); reflexivity.
Qed.


Lemma register_eq (self : cls) (w : world) :
  register self w = Ret tt (registered_world self w).
Proof.
  unfold register, registered_world, bind, get_is_registered.
  destruct (is_registered (class_of w (name self))) eqn:E; simpl; [reflexivity|].
  unfold set_script, set_is_registered, class_of; simpl.
  rewrite lookup_insert_eq. simpl.
  fold (class_of w (name self)). rewrite E. reflexivity.
Qed.

Lemma class_of_registered_world_eq (self : cls) (w : world) :
  consistent w (name self) ->
  class_of (registered_world self w) (name self) =
    {| is_registered := true; script_slot := Compiled |}.
Proof.
  intros Hc. unfold registered_world.
  destruct (is_registered (class_of w (name self))) eqn:E.
  - specialize (Hc E). destruct (class_of w (name self)); simpl in *; congruence.
  - unfold class_of; simpl. rewrite lookup_insert_eq. reflexivity.
Qed.


Lemma db_registered_world (self : cls) (w : world) : db (registered_world self w) = db w.
Proof. unfold registered_world. destruct (is_registered _); reflexivity. Qed.

Lemma evals_app (l1 l2 : list event) : evals (l1 ++ l2)%list = (evals l1 ++ evals l2)%list.
Proof. apply List.filter_app. Qed.

Lemma evals_registered_world (self : cls) (w : world) :
  evals (log (registered_world self w)) = evals (log w).
Proof.
  unfold registered_world. destruct (is_registered _); [reflexivity|].
  simpl. rewrite evals_app. simpl. apply app_nil_r.
Qed.

Lemma execute_eq (self : cls) (fuel : nat) (args_ : list arg) (kwargs : gmap string arg)
    (w : world) :
  execute self fuel args_ kwargs w =
    match resolved args_ kwargs (keys self ++ args self)%list with
    | Some vs =>
        call self fuel (firstn (length (keys self)) vs) (skipn (length (keys self)) vs)
          (registered_world self w)
    | None => Raise ScriptError (registered_world self w)
    end.
Proof.
  unfold execute.
  assert (Hreg : forall k : unit -> M reply,
            bind (get_is_registered (name self))
              (fun registered => bind (if negb registered then register self else ret tt) k) w =
            k tt (registered_world self w)).
  { intros k. unfold bind at 1. unfold get_is_registered.
    unfold registered_world.
    destruct (is_registered (class_of w (name self))) eqn:E; simpl.
    - reflexivity.
    - unfold bind. rewrite register_eq. unfold registered_world. rewrite E. reflexivity. }
  rewrite Hreg. clear Hreg.
  unfold resolved. rewrite length_app, seq_app, mapM_option_app.
  pose proof (resolve_closed args_ kwargs (keys self) []) as H1.
  pose proof (resolve_closed args_ kwargs (args self) (keys self)) as H2.
  simpl in H1. change (cursor kwargs [] 0) with 0%nat in H1.
  assert (Hk : forall j, (j < length (keys self))%nat ->
             bound args_ kwargs (keys self ++ args self)%list j = bound args_ kwargs (keys self) j).
  { intros j Hj. unfold bound, cursor.
    rewrite lookup_app_l by exact Hj.
    rewrite firstn_app. replace (j - length (keys self))%nat with 0%nat by lia.
    simpl. rewrite app_nil_r. reflexivity. }
  assert (Hm : mapM (bound args_ kwargs (keys self ++ args self)%list) (seq 0 (length (keys self))) =
               mapM (bound args_ kwargs (keys self)) (seq 0 (length (keys self)))).
  { apply mapM_option_ext. intros j Hj. apply elem_of_seq in Hj. apply Hk. lia. }
  rewrite Hm. unfold bind at 1. unfold lift at 1. rewrite H1.
  destruct (mapM (bound args_ kwargs (keys self)) (seq 0 (length (keys self)))) as [ks|] eqn:Eks;
    [|reflexivity].
  cbn [ret raise]. unfold bind at 1. unfold lift. simpl Nat.add. rewrite H2.
  destruct (mapM _ (seq (length (keys self)) (length (args self)))) as [as_|] eqn:Eas;
    [|reflexivity].
  cbn [ret raise prepare].
  assert (Hlen : length ks = length (keys self)).
  { apply length_mapM in Eks. rewrite length_seq in Eks. lia. }
  rewrite <- Hlen, firstn_app, Nat.sub_diag, firstn_all, skipn_app, Nat.sub_diag, skipn_all.
  change (skipn 0 as_) with as_. rewrite app_nil_r. simpl app.
  unfold bind, process, ret. destruct (call self fuel ks as_ _); reflexivity.
Qed.


(** C5.  [execute] binds every declared name of [keys], then of [args],
    in declaration order: name [j] gets the named argument when there is
    one, else the positional argument at the cursor, which counts the
    names before [j] that had no named argument and runs on from the
    keys into the arguments.  With every name bound, the script is
    registered if need be and called on the bound keys and arguments.
    With a name bound by neither, [execute] raises [ScriptError]; the
    key space is as before and no script invocation was added to the
    log. *)
Theorem execute_resolves (self : cls) (fuel : nat) (args_ : list arg)
    (kwargs : gmap string arg) (w : world) :
  let params := (keys self ++ args self)%list in
  let n := length (keys self) in
  match resolved args_ kwargs params with
  | Some vs =>
      (forall j, j < length params -> vs !! j = bound args_ kwargs params j) /\
      execute self fuel args_ kwargs w =
        (register self ;; call self fuel (firstn n vs) (skipn n vs)) w
  | None =>
      (exists j, j < length params /\ bound args_ kwargs params j = None) /\
      exists w', execute self fuel args_ kwargs w = Raise ScriptError w' /\
                 db w' = db w /\ evals (log w') = evals (log w)
  end.
Proof.
  intros params n. rewrite execute_eq. fold params. fold n.
  destruct (resolved args_ kwargs params) as [vs|] eqn:E.
  - split.
    + intros j Hj. unfold resolved in E. apply mapM_Some in E.
      assert (Hs : seq 0 (length params) !! j = Some j) by (apply lookup_seq; lia).
      destruct (Forall2_lookup_l _ _ _ _ _ E Hs) as (y & Hy & Hb).
      rewrite Hy, Hb. reflexivity.
    + unfold bind. rewrite register_eq. reflexivity.
  - split.
    + unfold resolved in E.
      assert (Hn : ~ Forall (fun j => is_Some (bound args_ kwargs params j)) (seq 0 (length params))).
      { intros HF. apply (mapM_is_Some (bound args_ kwargs params)) in HF.
        rewrite E in HF. destruct HF as [? ?]; discriminate. }
      apply not_Forall_Exists in Hn; [|intros j; apply _].
      apply Exists_exists in Hn. destruct Hn as (j & Hj & Hb).
      exists j. apply elem_of_seq in Hj. split; [lia|].
      destruct (bound args_ kwargs params j) eqn:Eb; [|reflexivity].
      exfalso. apply Hb. eauto.
    + eexists. split; [reflexivity|]. split.
      * apply db_registered_world.
      * apply evals_registered_world.
Qed.
















(** C5 at the pop script, called with the key by position and the index
    by name. *)
Lemma execute_resolves_witness :
  execute ListScripts.ListPop 0 [AStr "L"] {[ "index" := AInt 1 ]} (fresh ∅) =
    (register ListScripts.ListPop ;;
     call ListScripts.ListPop 0 [AStr "L"] [AInt 1]) (fresh ∅).
Proof.
  exact (proj2 (execute_resolves ListScripts.ListPop 0 [AStr "L"] {[ "index" := AInt 1 ]}
                  (fresh ∅))).
Defined.


End ScriptFacts.

(** ** Commands called from Lua *)

Module LuaFacts.
Import Redis Lua StrFacts.

Lemma redis_call_type (key : string) (s : store) :
  redis_call [Str "TYPE"; Str key] s = Ret (Status (type_of s key)) s.
Proof. reflexivity. Qed.

Lemma redis_call_del (key : string) (s : store) :
  exists n, redis_call [Str "DEL"; Str key] s = Ret (Num n) (delete key s).
Proof. eexists. reflexivity. Qed.

Lemma command_lindex (key : string) (i : Z) (s : store) (l : list string) :
  s !! key = Some (VList l) ->
  command ["LINDEX"; key; Str.of_Z i] s =
    (bulk_reply (at_index l i), s).
Proof.
  intros H. cbn [command]. rewrite of_Z_to_Z, H. reflexivity.
Qed.

Lemma command_lindex_absent (key : string) (i : Z) (s : store) :
  s !! key = None -> command ["LINDEX"; key; Str.of_Z i] s = (RNil, s).
Proof. intros H. cbn [command]. rewrite of_Z_to_Z, H. reflexivity. Qed.

Lemma redis_call_lindex (key : string) (i : Z) (s : store) (l : list string) :
  s !! key = Some (VList l) ->
  redis_call [Str "LINDEX"; Str key; Num i] s = Ret (of_reply (bulk_reply (at_index l i))) s.
Proof.
  intros H. unfold redis_call. cbn [arg_strings arg_string].
  rewrite (command_lindex key i s l H). destruct (at_index l i); reflexivity.
Qed.

Lemma redis_call_hvals (key : string) (s : store) (h : list (string * string)) :
  s !! key = Some (VHash h) ->
  redis_call [Str "HVALS"; Str key] s = Ret (Array (map (fun fv => Str (snd fv)) h)) s.
Proof.
  intros H. unfold redis_call. cbn [arg_strings arg_string command]. rewrite H.
  cbn [of_reply]. rewrite map_map. reflexivity.
Qed.

Lemma at_index_nat (l : list string) (i : nat) : at_index l (Z.of_nat i) = l !! i.
Proof.
  unfold at_index, norm_index.
  destruct (Z.ltb_spec (Z.of_nat i) 0); [lia|].
  destruct (Z.leb_spec 0 (Z.of_nat i)); [|lia]. simpl.
  destruct (Z.ltb_spec (Z.of_nat i) (Z.of_nat (length l))).
  - rewrite Nat2Z.id. reflexivity.
  - symmetry. apply lookup_ge_None. lia.
Qed.

End LuaFacts.

(** ** The cascading delete *)

Module DeleteAllFacts.
Import Redis Lua StrFacts LuaFacts DeleteAll.

(** X7.  The test of the delete script for a reference payload,
    [string.find(value, 'redis:struct') == 1], and the test of the
    encoder, [value.startswith('redis:struct')], agree on every string. *)
Theorem is_redis_datatype_eq (value : string) :
  is_redis_datatype value = Core._is_redis_value value.
Proof.
  unfold is_redis_datatype, Core._is_redis_value.
  pose proof (find_1_prefix value "redis:struct") as H.
  change Core.REDIS_STRUCTURE_PREFIX with "redis:struct".
  destruct (Str.startswith value "redis:struct").
  - rewrite (proj2 H eq_refl). reflexivity.
  - destruct (Str.find value "redis:struct") as [[|[|n]]|]; try reflexivity.
    destruct H as [H _]. specialize (H eq_refl). discriminate.
Qed.

Lemma is_redis_datatype_reference (key : string) :
  is_redis_datatype (Core.format2 Core.REDIS_STRUCTURE_PREFIX key) = true.
Proof. rewrite is_redis_datatype_eq. reflexivity. Qed.

Lemma is_redis_datatype_inline (t : string) :
  is_redis_datatype (Core.format2 Core.ABSOLUTE_VALUE_PREFIX t) = false.
Proof. rewrite is_redis_datatype_eq. reflexivity. Qed.

Lemma get_reference_reference (key : string) :
  get_reference (Core.format2 Core.REDIS_STRUCTURE_PREFIX key) = key.
Proof. reflexivity. Qed.

Lemma ref_eq (H : string) : ref H = Core.format2 Core.REDIS_STRUCTURE_PREFIX H.
Proof. reflexivity. Qed.

Lemma for_each_skip (f : value -> M unit) (l : list string) (s : store) :
  Forall (fun p => is_redis_datatype p = false) l ->
  for_each (check_references f) (map Str l) s = Ret tt s.
Proof.
  induction 1 as [|p l Hp _ IH]; [reflexivity|].
  simpl. unfold bind at 1. unfold check_references at 1. rewrite Hp. exact IH.
Qed.

Lemma delete_references_unfold (fuel : nat) (key : value) :
  delete_references (S fuel) key =
    bind (get_type key) (fun t =>
      match field_ok t with
      | Str "list" => delete_list (check_references (delete_references fuel)) fuel key
      | Str "hash" => delete_hash (check_references (delete_references fuel)) key
      | Str "set" => delete_set (check_references (delete_references fuel)) key
      | Str "sorted_set" => delete_sorted_set (check_references (delete_references fuel)) key
      | _ => bind (redis_call [Str "DEL"; key]) (fun _ => ret tt)
      end).
Proof. reflexivity. Qed.

(** A key that is not there: one [TYPE], one [DEL]. *)
Lemma delete_references_absent (fuel : nat) (key : string) (s : store) :
  s !! key = None -> delete_references (S fuel) (Str key) s = Ret tt s.
Proof.
  intros H. rewrite delete_references_unfold. unfold bind at 1, get_type.
  rewrite redis_call_type. unfold type_of. rewrite H. cbn [field_ok].
  unfold bind. destruct (redis_call_del key s) as [n ->].
  rewrite (delete_id _ _ H). reflexivity.
Qed.

(** A hash of inline payloads: its values are walked, none is followed,
    and the hash is deleted. *)
Lemma delete_references_hash (fuel : nat) (key : string) (s : store)
    (h : list (string * string)) :
  s !! key = Some (VHash h) ->
  Forall (fun fv => is_redis_datatype (snd fv) = false) h ->
  delete_references (S fuel) (Str key) s = Ret tt (delete key s).
Proof.
  intros H Hh. rewrite delete_references_unfold. unfold bind at 1, get_type.
  rewrite redis_call_type. unfold type_of. rewrite H. cbn [field_ok type_name].
  unfold delete_hash, bind. rewrite (redis_call_hvals key s h H). cbn [elements].
  rewrite <- (map_map snd Str), for_each_skip by (apply Forall_map; exact Hh).
  destruct (redis_call_del key s) as [n ->]. reflexivity.
Qed.

(** X8.  A sorted set is not walked: the server reports it as [zset], the
    script tests for [sorted_set], so the key is deleted as a plain key
    and no reference among its members is followed. *)
Theorem sorted_set_not_walked (fuel : nat) (key : string) (s : store) (z : list (string * Z)) :
  s !! key = Some (VZSet z) ->
  delete_references (S fuel) (Str key) s = Ret tt (delete key s).
Proof.
  intros H. rewrite delete_references_unfold. unfold bind at 1, get_type.
  rewrite redis_call_type. unfold type_of. rewrite H. cbn [field_ok type_name].
  unfold bind. destruct (redis_call_del key s) as [n ->]. reflexivity.
Qed.

(** A sorted set whose member is a reference to the hash [H]: [H] stays. *)
Lemma sorted_set_not_walked_witness :
  let s : store :=
    <["Z" := VZSet [("redis:struct:H", 1)]]> (<["H" := VHash [("f", "redis:abs:2")]]> ∅) in
  delete_references 5 (Str "Z") s = Ret tt (delete "Z" s).
Proof.
  cbv zeta.
  exact (sorted_set_not_walked 4 "Z"
           (<["Z" := VZSet [("redis:struct:H", 1)]]> (<["H" := VHash [("f", "redis:abs:2")]]> ∅))
           [("redis:struct:H", 1)] eq_refl).
Defined.

Section Cascade.

Variables (L H : string) (items : list string) (fields : list (string * string)).
Hypothesis HLH : L <> H.
Hypothesis Hfields : Forall (fun fv => is_redis_datatype (snd fv) = false) fields.
Hypothesis Hitems : Forall (fun p => p = ref H \/ is_redis_datatype p = false) items.

Lemma follow_walking (s : store) (p : string) : walking L H items fields s -> walking L H items fields (follow H s p).
Proof.
  intros [HL HH]. unfold follow. destruct (is_redis_datatype p); [|split; assumption].
  split.
  - rewrite lookup_delete_ne by congruence. exact HL.
  - right. apply lookup_delete_eq.
Qed.

Lemma check_follow (fuel : nat) (s : store) (p : string) :
  walking L H items fields s -> p ∈ items ->
  check_references (delete_references (S fuel)) (Str p) s = Ret tt (follow H s p).
Proof.
  intros [HL HH] Hin. unfold check_references, follow.
  rewrite Forall_forall in Hitems. destruct (Hitems p Hin) as [-> | Hp].
  - rewrite ref_eq, is_redis_datatype_reference, get_reference_reference.
    destruct HH as [HH | HH].
    + apply (delete_references_hash fuel H s fields HH Hfields).
    + rewrite (delete_references_absent fuel H s HH), (delete_id _ _ HH). reflexivity.
  - rewrite Hp. reflexivity.
Qed.

Lemma loop_walk (fuel n : nat) (rest pre : list string) (s : store) :
  items = (pre ++ rest)%list -> walking L H items fields s -> (length rest <= n)%nat ->
  delete_list_loop (check_references (delete_references (S fuel))) (Str L) n
    (Z.of_nat (length pre)) (of_reply (bulk_reply (items !! length pre))) s =
    Ret tt (fold_left (follow H) rest s).
Proof.
  revert n pre s. induction rest as [|p rest IH]; intros n pre s Hit Hw Hn.
  - rewrite Hit, app_nil_r, lookup_ge_None_2 by lia.
    destruct n; reflexivity.
  - destruct n as [|n]; [simpl in Hn; lia|].
    assert (Hp : items !! length pre = Some p).
    { rewrite Hit. apply list_lookup_middle. reflexivity. }
    rewrite Hp. cbn [bulk_reply of_reply delete_list_loop truthy].
    unfold bind at 1. rewrite check_follow; [|exact Hw|].
    2:{ rewrite Hit. apply elem_of_app. right. left. }
    pose proof (follow_walking s p Hw) as Hw'.
    unfold bind at 1.
    replace (Z.of_nat (length pre) + 1) with (Z.of_nat (length (pre ++ [p])%list))
      by (rewrite length_app; simpl; lia).
    rewrite (redis_call_lindex L _ _ items (proj1 Hw')), at_index_nat.
    apply IH.
    + rewrite <- app_assoc. exact Hit.
    + exact Hw'.
    + simpl in Hn. lia.
Qed.

Lemma fold_follow_gone (rest : list string) (s : store) :
  s !! H = None -> fold_left (follow H) rest s = s.
Proof.
  intros HH. induction rest as [|p rest IH]; [reflexivity|].
  simpl. unfold follow at 2. destruct (is_redis_datatype p); [|exact IH].
  rewrite (delete_id _ _ HH). exact IH.
Qed.

Lemma fold_follow_ref (rest : list string) (s : store) :
  ref H ∈ rest -> Forall (fun p => p = ref H \/ is_redis_datatype p = false) rest ->
  fold_left (follow H) rest s = delete H s.
Proof.
  induction rest as [|p rest IH]; intros Hin Hall; [inversion Hin|].
  simpl. inversion Hall as [|? ? Hp Hrest]; subst.
  destruct Hp as [-> | Hp].
  - replace (follow H s (ref H)) with (delete H s)
      by (unfold follow; rewrite ref_eq, is_redis_datatype_reference;
          reflexivity).
    apply fold_follow_gone, lookup_delete_eq.
  - replace (follow H s p) with s by (unfold follow; rewrite Hp; reflexivity).
    apply IH; [|exact Hrest].
    apply elem_of_cons in Hin. destruct Hin as [<- | Hin]; [|exact Hin].
    rewrite ref_eq, is_redis_datatype_reference in Hp. discriminate.
Qed.

Lemma delete_references_list (fuel : nat) (s : store) :
  s !! L = Some (VList items) -> s !! H = Some (VHash fields) ->
  ref H ∈ items -> (length items <= S fuel)%nat ->
  delete_references (S (S fuel)) (Str L) s = Ret tt (delete L (delete H s)).
Proof.
  intros HL HH Hin Hfuel.
  rewrite delete_references_unfold. unfold bind at 1, get_type.
  rewrite redis_call_type. unfold type_of. rewrite HL. cbn [field_ok type_name].
  unfold delete_list. unfold bind at 1.
  rewrite (redis_call_lindex L 0 s items HL).
  change (at_index items 0) with (at_index items (Z.of_nat 0)).
  rewrite (at_index_nat items 0). unfold bind at 1.
  pose proof (loop_walk fuel (S fuel) items [] s eq_refl (conj HL (or_introl HH))) as Hloop.
  change (Z.of_nat (length (@nil string))) with 0 in Hloop.
  change (length (@nil string)) with 0%nat in Hloop. rewrite Hloop by lia.
  rewrite (fold_follow_ref items s Hin Hitems).
  unfold bind. destruct (redis_call_del L (delete H s)) as [n ->]. reflexivity.
Qed.

End Cascade.

End DeleteAllFacts.

Module DeleteFacts.
Import Redis Py StrFacts LuaFacts ScriptFacts CoreFacts.

Lemma inline_not_reference (p : string) :
  (exists t, p = Core.format2 Core.ABSOLUTE_VALUE_PREFIX t) ->
  DeleteAll.is_redis_datatype p = false.
Proof. intros [t ->]. apply DeleteAllFacts.is_redis_datatype_inline. Qed.

(** C1, as the code has it.  A list [L] whose elements are inline
    payloads and the reference payload to [H], a hash of inline
    payloads.  [delete()] of [core.py] on the handle of [L] finds no
    script under ['delete_all'], raises [ScriptError] and sends
    nothing: [L] and [H] stay.  [delete()] of [datatype.py] deletes the
    key [L] and nothing else: [H] stays.  The cascading delete script
    itself, run on [L] with fuel for one round per element and two
    calls, returns and leaves the key space without [L] and [H]. *)
Theorem delete_leaves_reference (w : world) (L H : string) (items : list string)
    (fields : list (string * string)) (fuel : nat) :
  L <> H ->
  db w !! L = Some (VList items) ->
  db w !! H = Some (VHash fields) ->
  DeleteAll.ref H ∈ items ->
  Forall (fun p => p = DeleteAll.ref H \/ exists t, p = Core.format2 Core.ABSOLUTE_VALUE_PREFIX t) items ->
  Forall (fun fv => exists t, snd fv = Core.format2 Core.ABSOLUTE_VALUE_PREFIX t) fields ->
  (length items + 2 <= fuel)%nat ->
  Core.delete (Handle.Make Handle.KList L) fuel w = Raise ScriptError w /\
  (exists w',
     Legacy.delete (Handle.Make Handle.KList L) w = Ret tt w' /\
     db w' !! L = None /\ db w' !! H = Some (VHash fields)) /\
  DeleteAll.script [Lua.Str L] [] fuel (db w) =
    Lua.Ret Lua.Nil (delete L (delete H (db w))).
Proof.
  intros HLH HL HH Hin Hitems Hfields Hfuel.
  split; [reflexivity|]. split.
  - unfold Legacy.delete, Client.delete, bind, Client.execute_command.
    cbn [command foldr Handle.key]. eexists. split; [reflexivity|]. cbn [db].
    split; [apply lookup_delete_eq|].
    rewrite lookup_delete_ne by congruence. exact HH.
  - destruct fuel as [|[|fuel]]; [lia | lia |].
    assert (Hi : Forall (fun p => p = DeleteAll.ref H \/ DeleteAll.is_redis_datatype p = false)
                   items).
    { eapply Forall_impl; [exact Hitems|]. intros p [-> | Hp]; [left; reflexivity|].
      right. apply inline_not_reference, Hp. }
    assert (Hf : Forall (fun fv => DeleteAll.is_redis_datatype (snd fv) = false) fields).
    { eapply Forall_impl; [exact Hfields|]. intros fv Hp. apply inline_not_reference, Hp. }
    unfold DeleteAll.script. unfold Lua.bind at 1. cbn [Lua.index lookup list_lookup].
    rewrite (DeleteAllFacts.delete_references_list L H items fields HLH Hf Hi fuel (db w)
               HL HH Hin) by lia.
    reflexivity.
Qed.

(** C1 at a list of the inline integer [1] and a reference to the hash
    [H]. *)
Lemma delete_leaves_reference_witness :
  let s : store :=
    <["L" := VList ["redis:abs:1"; "redis:struct:H"]]>
      (<["H" := VHash [("f", "redis:abs:2")]]> ∅) in
  Core.delete (Handle.Make Handle.KList "L") 4 (Script.fresh s) =
    Raise ScriptError (Script.fresh s) /\
  (exists w',
     Legacy.delete (Handle.Make Handle.KList "L") (Script.fresh s) = Ret tt w' /\
     db w' !! "L" = None /\ db w' !! "H" = Some (VHash [("f", "redis:abs:2")])) /\
  DeleteAll.script [Lua.Str "L"] [] 4%nat s = Lua.Ret Lua.Nil (delete "L" (delete "H" s)).
Proof.
  cbv zeta.
  refine (delete_leaves_reference
            (Script.fresh
               (<["L" := VList ["redis:abs:1"; "redis:struct:H"]]>
                  (<["H" := VHash [("f", "redis:abs:2")]]> ∅)))
            "L" "H" ["redis:abs:1"; "redis:struct:H"] [("f", "redis:abs:2")] 4
            _ _ _ _ _ _ _).
  - discriminate.
  - reflexivity.
  - reflexivity.
  - right. left.
  - apply Forall_cons. split; [right; exists "1"; reflexivity|].
    apply Forall_cons. split; [left; reflexivity | apply Forall_nil; exact I].
  - apply Forall_cons. split; [exists "2"; reflexivity | apply Forall_nil; exact I].
  - simpl. lia.
Defined.

End DeleteFacts.

(** ** The list: indexed reads and iteration *)

Module ListFacts.
Import Redis Py StrFacts LuaFacts ScriptFacts CoreFacts.
Local Open Scope py_scope.

Lemma logs_nil (w : world) : logs w [] = w.
Proof. destruct w. unfold logs. simpl. rewrite app_nil_r. reflexivity. Qed.

Lemma at_index_nil (i : Z) : at_index [] i = None.
Proof. unfold at_index. destruct (norm_index _ i); reflexivity. Qed.

Lemma lindex_eq (key : string) (i : Z) (w : world) (l : list string) :
  list_at (db w) key = Some l ->
  Client.lindex key i w =
    Ret (at_index l i) (logged w (Command ["LINDEX"; key; Str.of_Z i])).
Proof.
  unfold list_at. intros H. unfold Client.lindex, bind, Client.execute_command.
  destruct (db w !! key) as [v|] eqn:E.
  - destruct v; try discriminate. injection H as ->.
    rewrite (command_lindex key i (db w) l E).
    destruct (at_index l i); reflexivity.
  - injection H as <-. rewrite (command_lindex_absent key i (db w) E), at_index_nil.
    reflexivity.
Qed.

Lemma lindex_reads_app (key : string) (l1 l2 : list event) :
  ListPy.lindex_reads key (l1 ++ l2)%list =
    (ListPy.lindex_reads key l1 ++ ListPy.lindex_reads key l2)%list.
Proof. apply omap_app. Qed.

Lemma lindex_read_lindex (key i : string) :
  ListPy.lindex_read key (Command ["LINDEX"; key; i]) = Some i.
Proof. simpl. rewrite String.eqb_refl. reflexivity. Qed.

Lemma at_index_range (l : list string) (i : Z) :
  let n := Z.of_nat (length l) in
  (- n <= i < n -> at_index l i = l !! Z.to_nat (i mod n)) /\
  (at_index l i = None -> i < - n \/ n <= i).
Proof.
  cbv zeta. unfold at_index, norm_index. split.
  - intros Hr. destruct (Z.ltb_spec i 0).
    + destruct (Z.leb_spec 0 (Z.of_nat (length l) + i)); [|lia].
      destruct (Z.ltb_spec (Z.of_nat (length l) + i) (Z.of_nat (length l))); [|lia].
      simpl. f_equal. f_equal.
      apply Z.mod_unique with (q := -1); lia.
    + destruct (Z.leb_spec 0 i); [|lia].
      destruct (Z.ltb_spec i (Z.of_nat (length l))); [|lia].
      simpl. rewrite Z.mod_small by lia. reflexivity.
  - destruct (Z.ltb_spec i 0).
    + destruct (Z.leb_spec 0 (Z.of_nat (length l) + i)); [|simpl; lia].
      destruct (Z.ltb_spec (Z.of_nat (length l) + i) (Z.of_nat (length l))); [|lia].
      simpl. intros Hn. apply lookup_ge_None in Hn. lia.
    + destruct (Z.leb_spec 0 i); [|lia].
      destruct (Z.ltb_spec i (Z.of_nat (length l))); [|simpl; lia].
      simpl. intros Hn. apply lookup_ge_None in Hn. lia.
Qed.

Section Codec.
Context {pyval : Type}.
Variable json_dumps : pyval -> option string.
Variable json_loads : string -> option pyval.
Variable wrap : Core.item (pyval := pyval) -> Z -> Core.item (pyval := pyval).

Abbreviation decode := (Core.decode json_loads).
Abbreviation decoded := (Core.decoded json_loads).
Abbreviation yields := (ListPy.yields json_loads wrap).
Abbreviation drain := (ListPy.drain json_loads wrap).

Lemma index_eq (w : world) (key : string) (l : list string) (i : Z) :
  list_at (db w) key = Some l ->
  ListPy.index json_loads key i w =
    match at_index l i with
    | Some p => decode p (logged w (Command ["LINDEX"; key; Str.of_Z i]))
    | None => Raise IndexError (logged w (Command ["LINDEX"; key; Str.of_Z i]))
    end.
Proof.
  intros Hl. unfold ListPy.index, bind. rewrite (lindex_eq key i w l Hl).
  destruct (at_index l i); reflexivity.
Qed.

Lemma getitem_eq (w : world) (key : string) (l : list string) (i : Z) :
  list_at (db w) key = Some l ->
  ListPy.__getitem__ json_loads wrap key i w =
    match at_index l i with
    | Some p => (v <- decode p ;; ret (wrap v i)) (logged w (Command ["LINDEX"; key; Str.of_Z i]))
    | None => Raise IndexError (logged w (Command ["LINDEX"; key; Str.of_Z i]))
    end.
Proof.
  intros Hl. unfold ListPy.__getitem__, bind. rewrite (lindex_eq key i w l Hl).
  destruct (at_index l i); reflexivity.
Qed.

(** C10.  On a list of length [n], for [-n <= i <= -1] the stored
    payload at position [n + i] is read, and [index(i)] returns what
    [decode] makes of it, [__getitem__(i)] the same wrapped with the
    index; and either raises [IndexError] only for [i < -n] or
    [i >= n]. *)
Theorem negative_index (w : world) (key : string) (l : list string) (i : Z) :
  list_at (db w) key = Some l ->
  let n := Z.of_nat (length l) in
  let w1 := logged w (Command ["LINDEX"; key; Str.of_Z i]) in
  (- n <= i <= -1 ->
     exists p, l !! Z.to_nat (n + i) = Some p /\
       ListPy.index json_loads key i w = decode p w1 /\
       ListPy.__getitem__ json_loads wrap key i w = (v <- decode p ;; ret (wrap v i)) w1) /\
  ((exists w', ListPy.index json_loads key i w = Raise IndexError w') -> i < - n \/ n <= i) /\
  ((exists w', ListPy.__getitem__ json_loads wrap key i w = Raise IndexError w') ->
     i < - n \/ n <= i).
Proof.
  intros Hl n w1. pose proof (at_index_range l i) as [Hin Hout]. fold n in Hin, Hout.
  rewrite (index_eq w key l i Hl), (getitem_eq w key l i Hl). fold w1.
  split; [|split].
  - intros Hr. rewrite Hin by lia.
    replace (i mod n) with (n + i) by (apply Z.mod_unique with (q := -1); lia).
    destruct (l !! Z.to_nat (n + i)) as [p|] eqn:Ep.
    + exists p. split; [reflexivity|]. split; reflexivity.
    + apply lookup_ge_None in Ep. lia.
  - intros [w' H]. destruct (at_index l i) as [p|] eqn:Ep; [|apply Hout; reflexivity].
    apply decode_raises in H. destruct H as [H | [H | H]]; discriminate.
  - intros [w' H]. destruct (at_index l i) as [p|] eqn:Ep; [|apply Hout; reflexivity].
    unfold bind in H. destruct (decode p w1) as [v w2|e w2|] eqn:Ed; try discriminate.
    injection H as -> _. apply decode_raises in Ed. destruct Ed as [H | [H | H]]; discriminate.
Qed.


Lemma decode_decoded (value : string) (w : world) :
  decode value w = lift (decoded (db w) value) (logs w (Core.decode_trips value)).
Proof.
  unfold Core.decode, Core.decoded, Core.decode_trips.
  destruct (Core._is_redis_value value).
  - rewrite decode_redis_value_eq. cbn zeta.
    change (Str.drop (String.length Core.REDIS_STRUCTURE_PREFIX + 1) value)
      with (Str.drop 13 value).
    destruct (String.eqb _ _); [reflexivity|].
    destruct (Handle.get_handler _); reflexivity.
  - rewrite logs_nil. destruct (Core._is_structure_value value); [|reflexivity].
    rewrite decode_structure_value_eq.
    change (Str.drop (String.length Core.ABSOLUTE_VALUE_PREFIX + 1) value)
      with (Str.drop 10 value).
    destruct (json_loads _); reflexivity.
Qed.

Lemma lindex_reads_decode_trips (key value : string) :
  ListPy.lindex_reads key (Core.decode_trips value) = [].
Proof. unfold Core.decode_trips. destruct (Core._is_redis_value value); reflexivity. Qed.

Lemma next_eq (key : string) (g : ListPy.generator) (w : world) :
  g <> ListPy.GenDone ->
  ListPy.next json_loads wrap key g w = ListPy.fetch json_loads wrap key (ListPy.position g) w.
Proof. destruct g; [reflexivity | reflexivity | congruence]. Qed.

Lemma fetch_eq (key : string) (i : Z) (w : world) (l : list string) :
  list_at (db w) key = Some l ->
  ListPy.fetch json_loads wrap key i w =
    let w1 := logged w (Command ["LINDEX"; key; Str.of_Z i]) in
    match at_index l i with
    | None => Ret (None, ListPy.GenDone) w1
    | Some p =>
        match decoded (db w) p with
        | inr v => Ret (Some (wrap v i), ListPy.GenAt i) (logs w1 (Core.decode_trips p))
        | inl e => Raise e (logs w1 (Core.decode_trips p))
        end
    end.
Proof.
  intros Hl. unfold ListPy.fetch, bind. rewrite (lindex_eq key i w l Hl). cbn zeta.
  destruct (at_index l i) as [p|]; [|reflexivity].
  rewrite decode_decoded. cbn [db logged].
  destruct (decoded (db w) p); reflexivity.
Qed.

Lemma drain_from (key : string) (rest pre : list string) (w : world) (fuel : nat)
    (g : ListPy.generator) :
  list_at (db w) key = Some (pre ++ rest)%list ->
  (length rest < fuel)%nat ->
  g <> ListPy.GenDone ->
  ListPy.position g = Z.of_nat (length pre) ->
  exists w' k,
    drain fuel key g w = lift (yields (db w) (Z.of_nat (length pre)) rest) w' /\
    db w' = db w /\ classes w' = classes w /\
    (k <= length rest)%nat /\
    (forall vs, yields (db w) (Z.of_nat (length pre)) rest = inr vs -> k = length rest) /\
    ListPy.lindex_reads key (log w') =
      (ListPy.lindex_reads key (log w) ++ ListPy.index_strings (length pre) (S k))%list.
Proof.
  revert pre w fuel g. induction rest as [|p rest IH]; intros pre w fuel g Hl Hf Hg Hpos.
  - destruct fuel as [|fuel]; [simpl in Hf; lia|].
    cbn [ListPy.drain]. unfold bind at 1. rewrite next_eq by exact Hg.
    rewrite (fetch_eq key _ w _ Hl), Hpos. cbn zeta.
    rewrite at_index_nat, lookup_ge_None_2 by (rewrite app_nil_r; lia).
    eexists. exists 0%nat. split; [reflexivity|]. cbn [db classes log logged].
    repeat split; [lia|].
    rewrite lindex_reads_app. f_equal. unfold ListPy.index_strings. simpl.
    rewrite String.eqb_refl. reflexivity.
  - destruct fuel as [|fuel]; [simpl in Hf; lia|].
    cbn [ListPy.drain]. unfold bind at 1. rewrite next_eq by exact Hg.
    rewrite (fetch_eq key _ w _ Hl), Hpos. cbn zeta.
    rewrite at_index_nat, list_lookup_middle by reflexivity.
    cbn [ListPy.yields].
    destruct (decoded (db w) p) as [e|v] eqn:Ed.
    + eexists. exists 0%nat. split; [reflexivity|]. cbn [db classes log logged logs].
      repeat split; [lia | discriminate |].
      rewrite !lindex_reads_app, lindex_reads_decode_trips, app_nil_r. f_equal.
      unfold ListPy.index_strings. simpl. rewrite String.eqb_refl. reflexivity.
    + set (w2 := logs _ _).
      destruct (IH (pre ++ [p])%list w2 fuel (ListPy.GenAt (Z.of_nat (length pre))))
        as (w' & k & Hd & Hdb & Hcl & Hk & Hall & Hreads).
      * rewrite <- app_assoc. exact Hl.
      * simpl in Hf. lia.
      * discriminate.
      * simpl. rewrite length_app. simpl. lia.
      * replace (Z.of_nat (length (pre ++ [p])%list)) with (Z.of_nat (length pre) + 1) in Hd, Hall
          by (rewrite length_app; simpl; lia).
        change (db w2) with (db w) in Hd, Hall, Hdb.
        exists w', (S k). unfold bind at 1. rewrite Hd.
        split; [destruct (yields (db w) (Z.of_nat (length pre) + 1) rest); reflexivity|].
        split; [exact Hdb|]. split; [exact Hcl|]. split; [simpl; lia|].
        split.
        -- intros vs Hvs. destruct (yields (db w) (Z.of_nat (length pre) + 1) rest) as [e|vs'] eqn:Ey;
             [discriminate|]. simpl. f_equal. eapply Hall. reflexivity.
        -- rewrite Hreads. unfold w2. cbn [log logs logged].
           rewrite !lindex_reads_app, lindex_reads_decode_trips, app_nil_r.
           rewrite <- app_assoc. f_equal.
           rewrite length_app. simpl length.
           unfold ListPy.index_strings. replace (length pre + 1)%nat with (S (length pre)) by lia.
           simpl. rewrite String.eqb_refl. reflexivity.
Qed.


(** C9.  On a list of payloads [l]: every [next()] of the generator makes
    exactly one indexed read, at the generator's position, and leaves
    the key space as it is; an iteration run to its end, within
    [length l + 1] steps, yields the payloads decoded and wrapped in
    order (or raises what the first undecodable payload raises), reads
    the indices [0, 1, ..., k] in this order with [k = length l] when it
    ends on an absent lookup, and leaves the stored list unchanged; a
    second iteration started afterwards reads from index [0] again and
    yields the same. *)
Theorem iteration_restartable (w : world) (key : string) (l : list string) (fuel : nat) :
  list_at (db w) key = Some l ->
  (length l < fuel)%nat ->
  (forall g, g <> ListPy.GenDone ->
     exists w', world_of (ListPy.next json_loads wrap key g w) = Some w' /\
       db w' = db w /\
       ListPy.lindex_reads key (log w') =
         (ListPy.lindex_reads key (log w) ++ [Str.of_Z (ListPy.position g)])%list) /\
  exists w1 w2 k1 k2,
    ListPy.__iter__ json_loads wrap fuel key w = lift (yields (db w) 0 l) w1 /\
    db w1 = db w /\
    (k1 <= length l)%nat /\
    (forall vs, yields (db w) 0 l = inr vs -> k1 = length l) /\
    ListPy.lindex_reads key (log w1) =
      (ListPy.lindex_reads key (log w) ++ ListPy.index_strings 0 (S k1))%list /\
    ListPy.__iter__ json_loads wrap fuel key w1 = lift (yields (db w) 0 l) w2 /\
    db w2 = db w /\
    (k2 <= length l)%nat /\
    ListPy.lindex_reads key (log w2) =
      (ListPy.lindex_reads key (log w1) ++ ListPy.index_strings 0 (S k2))%list.
Proof.
  intros Hl Hf. split.
  - intros g Hg. rewrite next_eq by exact Hg. rewrite (fetch_eq key _ w l Hl). cbn zeta.
    destruct (at_index l (ListPy.position g)) as [p|].
    + destruct (decoded (db w) p); eexists; (split; [reflexivity|]);
        cbn [db log logs logged]; (split; [reflexivity|]);
        rewrite !lindex_reads_app, lindex_reads_decode_trips, app_nil_r;
        f_equal; simpl; rewrite String.eqb_refl; reflexivity.
    + eexists. split; [reflexivity|]. cbn [db log logged]. split; [reflexivity|].
      rewrite lindex_reads_app. f_equal. simpl. rewrite String.eqb_refl. reflexivity.
  - destruct (drain_from key l [] w fuel ListPy.GenStart Hl Hf ltac:(discriminate) eq_refl)
      as (w1 & k1 & Hd1 & Hdb1 & _ & Hk1 & Hall1 & Hr1).
    assert (Hl1 : list_at (db w1) key = Some l) by (rewrite Hdb1; exact Hl).
    destruct (drain_from key l [] w1 fuel ListPy.GenStart Hl1 Hf ltac:(discriminate) eq_refl)
      as (w2 & k2 & Hd2 & Hdb2 & _ & Hk2 & _ & Hr2).
    rewrite Hdb1 in Hd2.
    exists w1, w2, k1, k2. unfold ListPy.__iter__.
    repeat split; try assumption. congruence.
Qed.

End Codec.

(** C10 at the last element of a list of three. *)
Lemma negative_index_witness :
  let w := Script.fresh (<["L" := VList ["redis:abs:1"; "redis:abs:2"; "redis:abs:3"]]> ∅) in
  let w1 := logged w (Command ["LINDEX"; "L"; "-1"]) in
  exists p, ["redis:abs:1"; "redis:abs:2"; "redis:abs:3"] !! 2%nat = Some p /\
    ListPy.index IntJson.loads "L" (-1) w = Core.decode IntJson.loads p w1 /\
    ListPy.__getitem__ IntJson.loads IntJson.wrap "L" (-1) w =
      (v <- Core.decode IntJson.loads p ;; ret (IntJson.wrap v (-1))) w1.
Proof.
  cbv zeta.
  refine (proj1 (negative_index IntJson.loads IntJson.wrap
                   (Script.fresh (<["L" := VList ["redis:abs:1"; "redis:abs:2"; "redis:abs:3"]]> ∅))
                   "L" ["redis:abs:1"; "redis:abs:2"; "redis:abs:3"] (-1) eq_refl) _).
  simpl. lia.
Defined.

(** C9 at a list of two. *)
Lemma iteration_restartable_witness :
  let l := ["redis:abs:1"; "redis:abs:2"] in
  let w := Script.fresh (<["L" := VList l]> ∅) in
  exists w1 w2 k1 k2,
    ListPy.__iter__ IntJson.loads IntJson.wrap 3 "L" w =
      lift (ListPy.yields IntJson.loads IntJson.wrap (db w) 0 l) w1 /\
    db w1 = db w /\
    (k1 <= length l)%nat /\
    (forall vs, ListPy.yields IntJson.loads IntJson.wrap (db w) 0 l = inr vs -> k1 = length l) /\
    ListPy.lindex_reads "L" (log w1) =
      (ListPy.lindex_reads "L" (log w) ++ ListPy.index_strings 0 (S k1))%list /\
    ListPy.__iter__ IntJson.loads IntJson.wrap 3 "L" w1 =
      lift (ListPy.yields IntJson.loads IntJson.wrap (db w) 0 l) w2 /\
    db w2 = db w /\
    (k2 <= length l)%nat /\
    ListPy.lindex_reads "L" (log w2) =
      (ListPy.lindex_reads "L" (log w1) ++ ListPy.index_strings 0 (S k2))%list.
Proof.
  cbv zeta.
  refine (proj2 (iteration_restartable IntJson.loads IntJson.wrap
                   (Script.fresh (<["L" := VList ["redis:abs:1"; "redis:abs:2"]]> ∅))
                   "L" ["redis:abs:1"; "redis:abs:2"] 3 eq_refl _)).
  simpl. lia.
Defined.

End ListFacts.


(** ** The list: the pop and insert scripts *)

Module ListScriptFacts.
Import Redis Py StrFacts LuaFacts ScriptFacts CoreFacts ListFacts.
Local Open Scope py_scope.

(** A script object is called on the server once its class is
    registered. *)
Lemma call_registered (self : Script.cls) (fuel : nat) (ks as_ : list Script.arg) (w : world) :
  Script.consistent w (Script.name self) ->
  Script.call self fuel ks as_ (Script.registered_world self w) =
    Client.evalsha (Script.name self) (Script.script self) fuel
      (map Script.wire ks) (map Script.wire as_) (Script.registered_world self w).
Proof.
  intros Hc. unfold Script.call, bind, Script.get_script.
  rewrite (class_of_registered_world_eq self w Hc). reflexivity.
Qed.

Lemma rpush_eq (key p : string) (w : world) (l : list string) :
  list_at (db w) key = Some l ->
  exists n,
    Client.rpush key [p] w =
      Ret (RInt n) {| db := <[key := VList (l ++ [p])]> (db w);
                      classes := classes w;
                      log := (log w ++ [Command ["RPUSH"; key; p]])%list |}.
Proof.
  unfold list_at. intros H. unfold Client.rpush, Client.execute_command. cbn [command].
  destruct (db w !! key) as [v|] eqn:E.
  - destruct v; try discriminate. injection H as ->. eexists. reflexivity.
  - injection H as <-. eexists. reflexivity.
Qed.

(** The pop script on a list and an index within it. *)
Lemma pop_script_eq (key : string) (i : Z) (fuel n : nat) (s : store) (l : list string)
    (x : string) :
  s !! key = Some (VList l) ->
  norm_index (length l) i = Some n ->
  l !! n = Some x ->
  ListScripts.pop_script [Lua.Str key] [Lua.Str (Str.of_Z i)] fuel s =
    Lua.Ret (Lua.Str x)
      (put_list key (fst (lrem 0 ListScripts.DELETE_MARK (<[n := ListScripts.DELETE_MARK]> l)))
         (<[key := VList (<[n := ListScripts.DELETE_MARK]> l)]> s)).
Proof.
  intros Hs Hn Hx. unfold ListScripts.pop_script. cbn [Lua.index lookup list_lookup].
  unfold Lua.bind at 1. unfold Lua.redis_call at 1. cbn [Lua.arg_strings Lua.arg_string].
  rewrite (command_lindex key i s l Hs). unfold at_index. rewrite Hn, Hx.
  cbn [bulk_reply Lua.of_reply].
  unfold Lua.bind at 1. unfold Lua.redis_call at 1. cbn [Lua.arg_strings Lua.arg_string].
  cbn [command]. rewrite Hs, of_Z_to_Z, Hn. cbn [Lua.of_reply].
  unfold Lua.bind at 1. unfold Lua.redis_call at 1. cbn [Lua.arg_strings Lua.arg_string].
  cbn [command]. rewrite of_Z_to_Z, lookup_insert_eq.
  destruct (lrem 0 ListScripts.DELETE_MARK (<[n:=ListScripts.DELETE_MARK]> l)) as [r k].
  reflexivity.
Qed.

Section Codec.
Context {pyval : Type}.
Variable json_dumps : pyval -> option string.
Variable json_loads : string -> option pyval.
Variable wrap : Core.item (pyval := pyval) -> Z -> Core.item (pyval := pyval).

Lemma append_eq (key p : string) (i : Core.item) (w : world) (l : list string) :
  Core.encode json_dumps i = inr p ->
  list_at (db w) key = Some l ->
  ListPy.append json_dumps key i w =
    Ret tt {| db := <[key := VList (l ++ [p])]> (db w);
              classes := classes w;
              log := (log w ++ [Command ["RPUSH"; key; p]])%list |}.
Proof.
  intros He Hl. unfold ListPy.append, bind. rewrite He. cbn [lift ret].
  destruct (rpush_eq key p w l Hl) as [n ->]. reflexivity.
Qed.

(** [pop] on a list and an index within it: the stored payload comes
    back as it is stored. *)
Lemma pop_eq (key : string) (i : Z) (fuel n : nat) (w : world) (l : list string) (x : string) :
  Script.consistent w "ListPop" ->
  db w !! key = Some (VList l) ->
  norm_index (length l) i = Some n ->
  l !! n = Some x ->
  exists w',
    ListPy.pop fuel key i w = Ret (RBulk x) w' /\
    classes w' = classes (Script.registered_world ListScripts.ListPop w) /\
    db w' = put_list key
              (fst (lrem 0 ListScripts.DELETE_MARK (<[n := ListScripts.DELETE_MARK]> l)))
              (<[key := VList (<[n := ListScripts.DELETE_MARK]> l)]> (db w)).
Proof.
  intros Hc Hs Hn Hx. unfold ListPy.pop, ListPy._execute_script.
  unfold bind at 1.
  change (lift (ListPy.get_script "pop") w) with (Ret ListScripts.ListPop w).
  cbn match. rewrite execute_eq.
  change (Resolution.resolved [Script.AStr key; Script.AInt i] ∅
            (Script.keys ListScripts.ListPop ++ Script.args ListScripts.ListPop)%list)
    with (Some [Script.AStr key; Script.AInt i]).
  cbn match. cbn [firstn skipn length Script.keys ListScripts.ListPop].
  rewrite (call_registered ListScripts.ListPop fuel _ _ w Hc).
  unfold Client.evalsha. rewrite db_registered_world.
  cbn [map Script.wire Script.script ListScripts.ListPop Script.name].
  rewrite (pop_script_eq key i fuel n (db w) l x Hs Hn Hx).
  eexists. split; [reflexivity|]. split; reflexivity.
Qed.


Lemma decoded_inline (s : store) (t : string) (v : pyval) :
  json_loads t = Some v ->
  Core.decoded json_loads s (Core.format2 Core.ABSOLUTE_VALUE_PREFIX t) = inr (Core.Structure v).
Proof.
  intros Hl. unfold Core.decoded.
  rewrite is_redis_value_inline, is_structure_value_inline.
  change (Str.drop _ (Core.format2 Core.ABSOLUTE_VALUE_PREFIX t)) with t.
  rewrite Hl. reflexivity.
Qed.

(** C4, as the code has it.  On a fresh list, after [append(a)],
    [append(b)], [append(c)] of three values the serializer
    round-trips, [pop(1)] removes the middle element from the stored
    list and a following iteration yields [a] and [c], wrapped with
    their indices; what [pop(1)] returns is the stored payload of [b],
    the string [redis:abs:...] that [decode] would still have to turn
    into [b]. *)
Theorem pop_middle (w : world) (key : string) (va vb vc : pyval) (ta tb tc : string)
    (fuel : nat) :
  db w !! key = None ->
  Script.consistent w "ListPop" ->
  json_dumps va = Some ta -> json_dumps vb = Some tb -> json_dumps vc = Some tc ->
  json_loads ta = Some va -> json_loads tb = Some vb -> json_loads tc = Some vc ->
  let pa := Core.format2 Core.ABSOLUTE_VALUE_PREFIX ta in
  let pb := Core.format2 Core.ABSOLUTE_VALUE_PREFIX tb in
  let pc := Core.format2 Core.ABSOLUTE_VALUE_PREFIX tc in
  exists w1 w2,
    (ListPy.append json_dumps key (Core.Structure va) ;;
     ListPy.append json_dumps key (Core.Structure vb) ;;
     ListPy.append json_dumps key (Core.Structure vc) ;;
     ListPy.pop fuel key 1) w = Ret (RBulk pb) w1 /\
    Core.decode json_loads pb w1 = Ret (Core.Structure vb) w1 /\
    db w1 = <[key := VList [pa; pc]]> (db w) /\
    ListPy.__iter__ json_loads wrap 3 key w1 =
      Ret [wrap (Core.Structure va) 0; wrap (Core.Structure vc) 1] w2.
Proof.
  intros Hk Hc Hda Hdb Hdc Hla Hlb Hlc pa pb pc.
  assert (Hea : Core.encode json_dumps (Core.Structure va) = inr pa)
    by (unfold Core.encode, Core._encode_structure_item; rewrite Hda; reflexivity).
  assert (Heb : Core.encode json_dumps (Core.Structure vb) = inr pb)
    by (unfold Core.encode, Core._encode_structure_item; rewrite Hdb; reflexivity).
  assert (Hec : Core.encode json_dumps (Core.Structure vc) = inr pc)
    by (unfold Core.encode, Core._encode_structure_item; rewrite Hdc; reflexivity).
  unfold bind at 1.
  rewrite (append_eq key pa _ w [] Hea) by (unfold list_at; rewrite Hk; reflexivity).
  set (w_a := {| db := _ |}).
  unfold bind at 1.
  rewrite (append_eq key pb _ w_a [pa] Heb)
    by (unfold list_at, w_a; cbn [db]; rewrite lookup_insert_eq; reflexivity).
  set (w_b := {| db := _ |}).
  unfold bind at 1.
  rewrite (append_eq key pc _ w_b [pa; pb] Hec)
    by (unfold list_at, w_b; cbn [db]; rewrite lookup_insert_eq; reflexivity).
  set (w_c := {| db := _ |}).
  destruct (pop_eq key 1 fuel 1 w_c [pa; pb; pc] pb) as (w1 & Hpop & _ & Hdb1).
  - exact Hc.
  - unfold w_c. cbn [db]. apply lookup_insert_eq.
  - reflexivity.
  - reflexivity.
  - assert (Hdb1' : db w1 = <[key := VList [pa; pc]]> (db w)).
    { rewrite Hdb1. unfold w_c, w_b, w_a. cbn [db app].
      change (fst (lrem 0 ListScripts.DELETE_MARK
                     (<[1%nat := ListScripts.DELETE_MARK]> [pa; pb; pc])))
        with [pa; pc].
      unfold put_list. rewrite !insert_insert_eq. reflexivity. }
    assert (Hl1 : list_at (db w1) key = Some [pa; pc])
      by (unfold list_at; rewrite Hdb1', lookup_insert_eq; reflexivity).
    destruct (drain_from json_loads wrap key [pa; pc] [] w1 3 ListPy.GenStart Hl1
                ltac:(simpl; lia) ltac:(discriminate) eq_refl)
      as (w2 & k & Hd & _).
    exists w1, w2. split; [exact Hpop|]. split; [|split; [exact Hdb1'|]].
    + apply (proj2 (inline_roundtrip json_dumps json_loads vb tb w1 Hdb Hlb)).
    + unfold ListPy.__iter__. rewrite Hd. cbn [ListPy.yields].
      unfold pa, pc. rewrite (decoded_inline _ ta va Hla), (decoded_inline _ tc vc Hlc).
      reflexivity.
Qed.

(** The insert script never gets to insert: the [LINSERT] it sends has
    no [BEFORE] or [AFTER], one argument too few. *)
Lemma insert_script_fails (key p : string) (i : Z) (fuel : nat) (s : store) :
  exists msg, ListScripts.insert_script [Lua.Str key; Lua.Str (Str.of_Z i)] [Lua.Str p] fuel s =
                Lua.Error msg s /\
    (forall l, s !! key = Some (VList l) ->
       msg = match at_index l i with
             | Some _ => Lua.ERR_LUA_ARITY
             | None => Lua.ERR_ARGS
             end).
Proof.
  unfold ListScripts.insert_script. cbn [Lua.index lookup list_lookup].
  unfold Lua.bind. unfold Lua.redis_call at 1. cbn [Lua.arg_strings Lua.arg_string].
  cbn [command]. rewrite of_Z_to_Z.
  destruct (s !! key) as [v|] eqn:E.
  - destruct v as [x|l|h|m|z];
      try (eexists; split; [reflexivity | intros l' [=]]).
    destruct (at_index l i) as [x|] eqn:Ea; cbn [bulk_reply Lua.of_reply].
    + eexists. split; [reflexivity|]. intros l' [= <-]. rewrite Ea. reflexivity.
    + eexists. split; [reflexivity|]. intros l' [= <-]. rewrite Ea. reflexivity.
  - eexists. split; [reflexivity|]. intros l [=].
Qed.

(** C8, as the code has it.  [insert] raises whatever the list, the index
    and the item, and leaves the key space as it was; on a list, with
    the insert script registered consistently, what it raises is the
    server's error on the malformed [LINSERT] for an index in range,
    and the error on a non-string argument for an index out of range,
    never [IndexError]. *)
Theorem insert_raises (w : world) (key : string) (index : Z) (i : Core.item) (fuel : nat) :
  (exists e w', ListPy.insert json_dumps fuel key index i w = Raise e w' /\ db w' = db w) /\
  (forall l p, Script.consistent w "ListInsert" ->
     db w !! key = Some (VList l) -> Core.encode json_dumps i = inr p ->
     exists w', ListPy.insert json_dumps fuel key index i w =
       Raise (ResponseError (match at_index l index with
                             | Some _ => Lua.ERR_LUA_ARITY
                             | None => Lua.ERR_ARGS
                             end)) w').
Proof.
  unfold ListPy.insert, ListPy._execute_script.
  destruct (Core.encode json_dumps i) as [e|p] eqn:He.
  - split; [|intros l p _ _ [=]]. exists e, w. split; reflexivity.
  - unfold bind at 1 3. cbn [lift ret]. unfold bind at 1 2.
    change (lift (ListPy.get_script "insert") w) with (Ret ListScripts.ListInsert w).
    cbn match. rewrite execute_eq.
    change (Resolution.resolved [Script.AStr key; Script.AInt index; Script.AStr p] ∅
              (Script.keys ListScripts.ListInsert ++ Script.args ListScripts.ListInsert)%list)
      with (Some [Script.AStr key; Script.AInt index; Script.AStr p]).
    cbn match. cbn [firstn skipn length Script.keys ListScripts.ListInsert].
    destruct (insert_script_fails key p index fuel (db w)) as (msg & Hs & Hmsg).
    split.
    + unfold Script.call, bind, Script.get_script.
      destruct (script_slot _).
      * eexists _, _. split; [reflexivity|]. apply db_registered_world.
      * unfold Client.evalsha. rewrite db_registered_world.
        cbn [map Script.wire Script.script ListScripts.ListInsert Script.name].
        rewrite Hs. eexists _, _. split; [reflexivity|]. reflexivity.
    + intros l p' Hc Hl [= <-].
      rewrite (call_registered ListScripts.ListInsert fuel _ _ w Hc).
      unfold Client.evalsha. rewrite db_registered_world.
      cbn [map Script.wire Script.script ListScripts.ListInsert Script.name].
      rewrite Hs, (Hmsg l Hl). eexists. reflexivity.
Qed.

End Codec.

(** C4 at the integers [1], [2], [3]: [pop(1)] returns the string
    [redis:abs:2]. *)
Lemma pop_middle_witness :
  exists w1 w2,
    (ListPy.append IntJson.dumps "L" (Core.Structure 1) ;;
     ListPy.append IntJson.dumps "L" (Core.Structure 2) ;;
     ListPy.append IntJson.dumps "L" (Core.Structure 3) ;;
     ListPy.pop 0 "L" 1) (Script.fresh ∅) = Ret (RBulk "redis:abs:2") w1 /\
    Core.decode IntJson.loads "redis:abs:2" w1 = Ret (Core.Structure 2) w1 /\
    db w1 = <["L" := VList ["redis:abs:1"; "redis:abs:3"]]> ∅ /\
    ListPy.__iter__ IntJson.loads IntJson.wrap 3 "L" w1 =
      Ret [Core.Structure 1; Core.Structure 3] w2.
Proof.
  refine (pop_middle IntJson.dumps IntJson.loads IntJson.wrap (Script.fresh ∅) "L"
            1 2 3 "1" "2" "3" 0 eq_refl _ eq_refl eq_refl eq_refl eq_refl eq_refl eq_refl).
  intros Hr. discriminate Hr.
Defined.

(** C8 at a list of one and the index [0]. *)
Lemma insert_raises_witness :
  let w := Script.fresh (<["L" := VList ["redis:abs:1"]]> ∅) in
  exists w',
    ListPy.insert IntJson.dumps 0 "L" 0 (Core.Structure 5) w =
      Raise (ResponseError Lua.ERR_LUA_ARITY) w'.
Proof.
  cbv zeta.
  refine (proj2 (insert_raises IntJson.dumps
                   (Script.fresh (<["L" := VList ["redis:abs:1"]]> ∅)) "L" 0 (Core.Structure 5) 0)
            ["redis:abs:1"] "redis:abs:5" _ eq_refl eq_refl).
  intros Hr. discriminate Hr.
Defined.

End ListScriptFacts.

(** ** The list: removal by index, counting *)

Module MoreListFacts.
Import Redis Py StrFacts LuaFacts ScriptFacts CoreFacts ListFacts ListScriptFacts.
Local Open Scope py_scope.

Lemma remove_first_absent (k : nat) (v : string) (l : list string) :
  v ∉ l -> remove_first k v l = (l, 0%nat).
Proof.
  revert k. induction l as [|x l IH]; intros k Hv.
  - destruct k; reflexivity.
  - destruct k as [|k]; [reflexivity|].
    apply not_elem_of_cons in Hv. destruct Hv as [Hx Hl].
    cbn [remove_first].
    destruct (String.eqb_spec x v) as [->|_]; [congruence|].
    rewrite (IH (S k) Hl). reflexivity.
Qed.

Lemma remove_first_mark (k n : nat) (v : string) (l : list string) :
  v ∉ l -> (n < length l)%nat ->
  remove_first (S k) v (<[n := v]> l) = (delete n l, 1%nat).
Proof.
  revert n. induction l as [|x l IH]; intros n Hv Hn; [simpl in Hn; lia|].
  apply not_elem_of_cons in Hv. destruct Hv as [Hx Hl].
  destruct n as [|n].
  - cbn [list_insert insert remove_first]. rewrite String.eqb_refl.
    rewrite (remove_first_absent k v l Hl). reflexivity.
  - change (<[S n := v]> (x :: l)) with (x :: <[n := v]> l).
    cbn [remove_first].
    destruct (String.eqb_spec x v) as [->|_]; [congruence|].
    rewrite (IH n Hl) by (simpl in Hn; lia). reflexivity.
Qed.

Lemma put_list_insert (key : string) (r l : list string) (s : store) :
  put_list key r (<[key := VList l]> s) = put_list key r s.
Proof.
  unfold put_list. destruct r.
  - apply delete_insert_eq.
  - apply insert_insert_eq.
Qed.

Lemma norm_index_lt (len : nat) (i : Z) (n : nat) :
  norm_index len i = Some n -> (n < len)%nat.
Proof.
  unfold norm_index.
  destruct ((0 <=? _) && (_ <? _))%bool eqn:E; [|discriminate].
  intros [= <-]. apply andb_true_iff in E. destruct E as [E1 E2].
  apply Z.leb_le in E1. apply Z.ltb_lt in E2. lia.
Qed.

(** X1.  [pop] on a list that does not hold the deletion mark, at an
    index within it, counted from the tail when negative: the stored
    payload at that index is returned and exactly that element is taken
    out of the stored list. *)
Theorem pop_removes (w : world) (key : string) (i : Z) (fuel n : nat) (l : list string)
    (x : string) :
  Script.consistent w "ListPop" ->
  db w !! key = Some (VList l) ->
  ListScripts.DELETE_MARK ∉ l ->
  norm_index (length l) i = Some n ->
  l !! n = Some x ->
  exists w',
    ListPy.pop fuel key i w = Ret (RBulk x) w' /\
    db w' = put_list key (delete n l) (db w).
Proof.
  intros Hc Hs Hm Hn Hx.
  destruct (pop_eq key i fuel n w l x Hc Hs Hn Hx) as (w' & Hp & _ & Hdb).
  exists w'. split; [exact Hp|]. rewrite Hdb, put_list_insert.
  unfold lrem. cbn [Z.eqb]. rewrite length_insert.
  pose proof (norm_index_lt _ _ _ Hn) as Hlt.
  destruct (length l) as [|k] eqn:El; [lia|].
  rewrite (remove_first_mark k n _ l Hm) by lia. reflexivity.
Qed.


(** The delete script on a list. *)
Lemma delete_script_eq (key : string) (i : Z) (fuel : nat) (s : store) (l : list string) :
  s !! key = Some (VList l) ->
  ListScripts.delete_script [Lua.Str key] [Lua.Str (Str.of_Z i)] fuel s =
    match norm_index (length l) i with
    | Some n =>
        Lua.Ret Lua.Nil
          (put_list key
             (fst (lrem 1 ListScripts.DELETE_MARK (<[n := ListScripts.DELETE_MARK]> l)))
             (<[key := VList (<[n := ListScripts.DELETE_MARK]> l)]> s))
    | None => Lua.Error ERR_INDEX s
    end.
Proof.
  intros Hs. unfold ListScripts.delete_script. cbn [Lua.index lookup list_lookup].
  unfold Lua.bind at 1. unfold Lua.redis_call at 1. cbn [Lua.arg_strings Lua.arg_string].
  cbn [command]. rewrite Hs, of_Z_to_Z.
  destruct (norm_index (length l) i) as [n|]; [|reflexivity].
  cbn [Lua.of_reply].
  unfold Lua.bind at 1. unfold Lua.redis_call at 1. cbn [Lua.arg_strings Lua.arg_string].
  cbn [command]. rewrite of_Z_to_Z, lookup_insert_eq.
  destruct (lrem 1 ListScripts.DELETE_MARK (<[n:=ListScripts.DELETE_MARK]> l)) as [r k].
  reflexivity.
Qed.

(** X2.  [del l[i]] on a list that does not hold the deletion mark: an
    index within the list takes that element out, an index outside
    raises [IndexError] and changes nothing. *)
Theorem delitem_removes (w : world) (key : string) (i : Z) (fuel : nat) (l : list string) :
  Script.consistent w "ListDelete" ->
  db w !! key = Some (VList l) ->
  ListScripts.DELETE_MARK ∉ l ->
  exists w',
    match norm_index (length l) i with
    | Some n =>
        ListPy.__delitem__ fuel key i w = Ret RNil w' /\
        db w' = put_list key (delete n l) (db w)
    | None =>
        ListPy.__delitem__ fuel key i w = Raise IndexError w' /\ db w' = db w
    end.
Proof.
  intros Hc Hs Hm.
  assert (Heq : ListPy._execute_script fuel "delete" [Script.AStr key; Script.AInt i] ∅ w =
                Client.evalsha "ListDelete" ListScripts.delete_script fuel
                  [key] [Str.of_Z i] (Script.registered_world ListScripts.ListDelete w)).
  { unfold ListPy._execute_script. unfold bind at 1.
    change (lift (ListPy.get_script "delete") w) with (Ret ListScripts.ListDelete w).
    cbn match. rewrite execute_eq.
    change (Resolution.resolved [Script.AStr key; Script.AInt i] ∅
              (Script.keys ListScripts.ListDelete ++ Script.args ListScripts.ListDelete)%list)
      with (Some [Script.AStr key; Script.AInt i]).
    cbn match. cbn [firstn skipn length Script.keys ListScripts.ListDelete].
    rewrite (call_registered ListScripts.ListDelete fuel _ _ w Hc). reflexivity. }
  unfold ListPy.__delitem__. rewrite Heq. clear Heq.
  unfold Client.evalsha. rewrite db_registered_world. cbn [map].
  rewrite (delete_script_eq key i fuel (db w) l Hs).
  destruct (norm_index (length l) i) as [n|] eqn:Hn.
  - eexists. split; [reflexivity|]. cbn [db]. rewrite put_list_insert.
    pose proof (norm_index_lt _ _ _ Hn) as Hlt.
    change (lrem 1 ListScripts.DELETE_MARK (<[n:=ListScripts.DELETE_MARK]> l))
      with (remove_first 1 ListScripts.DELETE_MARK (<[n:=ListScripts.DELETE_MARK]> l)).
    rewrite (remove_first_mark 0 n _ l Hm) by lia. reflexivity.
  - eexists. split; [reflexivity|]. reflexivity.
Qed.

Section Codec.
Context {pyval : Type}.
Variable json_dumps : pyval -> option string.
Variable json_loads : string -> option pyval.

(** X3.  [count] never counts: the indexed reads of its script leave the
    key out, and the server rejects the first of them. *)
Theorem count_raises (w : world) (key p : string) (i : Core.item) (fuel : nat) :
  Script.consistent w "ListCount" ->
  Core.encode json_dumps i = inr p ->
  exists w',
    ListPy.count json_dumps fuel key i w = Raise (ResponseError Lua.ERR_LUA_ARITY) w' /\
    db w' = db w.
Proof.
  intros Hc He. unfold ListPy.count, ListPy._execute_script.
  unfold bind at 1. rewrite He. cbn [lift ret]. unfold bind at 1.
  change (lift (ListPy.get_script "count") w) with (Ret ListScripts.ListCount w).
  cbn match. rewrite execute_eq.
  change (Resolution.resolved [Script.AStr key; Script.AStr p] ∅
            (Script.keys ListScripts.ListCount ++ Script.args ListScripts.ListCount)%list)
    with (Some [Script.AStr key; Script.AStr p]).
  cbn match. cbn [firstn skipn length Script.keys ListScripts.ListCount].
  rewrite (call_registered ListScripts.ListCount fuel _ _ w Hc).
  unfold Client.evalsha. rewrite db_registered_world.
  cbn [map Script.wire Script.script ListScripts.ListCount Script.name].
  eexists. split; [reflexivity|]. reflexivity.
Qed.

End Codec.

(** [pop(-1)] on a list of three. *)
Lemma pop_removes_witness :
  let l := ["redis:abs:1"; "redis:abs:2"; "redis:abs:3"] in
  let w := Script.fresh (<["L" := VList l]> ∅) in
  exists w',
    ListPy.pop 0 "L" (-1) w = Ret (RBulk "redis:abs:3") w' /\
    db w' = put_list "L" ["redis:abs:1"; "redis:abs:2"] (db w).
Proof.
  cbv zeta.
  refine (pop_removes
            (Script.fresh (<["L" := VList ["redis:abs:1"; "redis:abs:2"; "redis:abs:3"]]> ∅))
            "L" (-1) 0 2 ["redis:abs:1"; "redis:abs:2"; "redis:abs:3"] "redis:abs:3"
            _ eq_refl _ eq_refl eq_refl).
  - intros Hr. discriminate Hr.
  - intros Hm. apply list_elem_of_In in Hm. simpl in Hm.
    destruct Hm as [Hm | [Hm | [Hm | []]]]; discriminate Hm.
Defined.

(** [del l[0]] on a list of two. *)
Lemma delitem_removes_witness :
  let l := ["redis:abs:1"; "redis:abs:2"] in
  let w := Script.fresh (<["L" := VList l]> ∅) in
  exists w',
    ListPy.__delitem__ 0 "L" 0 w = Ret RNil w' /\
    db w' = put_list "L" ["redis:abs:2"] (db w).
Proof.
  cbv zeta.
  refine (delitem_removes
            (Script.fresh (<["L" := VList ["redis:abs:1"; "redis:abs:2"]]> ∅))
            "L" 0 0 ["redis:abs:1"; "redis:abs:2"] _ eq_refl _).
  - intros Hr. discriminate Hr.
  - intros Hm. apply list_elem_of_In in Hm. simpl in Hm.
    destruct Hm as [Hm | [Hm | []]]; discriminate Hm.
Defined.

(** [count(1)] on a list that holds [1]. *)
Lemma count_raises_witness :
  let w := Script.fresh (<["L" := VList ["redis:abs:1"]]> ∅) in
  exists w',
    ListPy.count IntJson.dumps 1 "L" (Core.Structure 1) w =
      Raise (ResponseError Lua.ERR_LUA_ARITY) w' /\
    db w' = db w.
Proof.
  cbv zeta.
  refine (count_raises IntJson.dumps (Script.fresh (<["L" := VList ["redis:abs:1"]]> ∅))
            "L" "redis:abs:1" (Core.Structure 1) 1 _ eq_refl).
  intros Hr. discriminate Hr.
Defined.

End MoreListFacts.


(** ** [datatype.py]: the earlier delete, decode and iteration *)

Module LegacyFacts.
Import Redis Py StrFacts LuaFacts ScriptFacts CoreFacts ListFacts.
Local Open Scope py_scope.

(** X4.  [datatype.py]'s [delete] makes one round trip, a [DEL] of the
    handle's own key, and removes nothing else. *)
Theorem legacy_delete_own_key (self : Handle.t) (w : world) :
  Legacy.delete self w =
    Ret tt {| db := delete (Handle.key self) (db w);
              classes := classes w;
              log := (log w ++ [Command ["DEL"; Handle.key self]])%list |}.
Proof.
  unfold Legacy.delete, Client.delete, bind, Client.execute_command.
  cbn [command foldr]. reflexivity.
Qed.

Section Codec.
Context {pyval : Type}.
Variable json_loads : string -> option pyval.

(** X5.  [datatype.py]'s [decode] of the reference payload for [key]
    takes what follows the first colon for the key: it asks the server
    for the type of [struct:key] and binds the handle to that. *)
Theorem legacy_decode_reference (key : string) (w : world) :
  let key' := "struct:" ++ key in
  let w' := logged w (Command ["TYPE"; key']) in
  Legacy.decode json_loads (Core.format2 Core.REDIS_STRUCTURE_PREFIX key) w =
    match Handle.get_handler (type_of (db w) key') with
    | inr k => Ret (Core.Redis (Handle.Make k key')) w'
    | inl e => Raise e w'
    end.
Proof.
  cbv zeta. unfold Legacy.decode. rewrite is_redis_value_reference.
  unfold Legacy._decode_redis_value.
  change (Str.split1 ":" (Core.format2 Core.REDIS_STRUCTURE_PREFIX key))
    with (Some ("redis", "struct:" ++ key)).
  cbn match. unfold bind at 1. rewrite client_type_eq.
  unfold bind, lift. destruct (Handle.get_handler _); reflexivity.
Qed.

Lemma legacy_decode_inline (t : string) (v : pyval) (w : world) :
  json_loads t = Some v ->
  Legacy.decode json_loads (Core.format2 Core.ABSOLUTE_VALUE_PREFIX t) w =
    Ret (Core.Structure v) w.
Proof.
  intros Hl. unfold Legacy.decode.
  rewrite is_redis_value_inline, is_structure_value_inline, decode_structure_value_eq.
  change (Str.drop 10 (Core.format2 Core.ABSOLUTE_VALUE_PREFIX t)) with t.
  rewrite Hl. reflexivity.
Qed.

Lemma lpop_eq (key : string) (w : world) (l : list string) :
  list_at (db w) key = Some l ->
  Client.lpop key w =
    Ret (head l) {| db := match l with
                          | [] => db w
                          | _ :: l' => put_list key l' (db w)
                          end;
                    classes := classes w;
                    log := (log w ++ [Command ["LPOP"; key]])%list |}.
Proof.
  unfold list_at. intros H. unfold Client.lpop, bind, Client.execute_command. cbn [command].
  destruct (db w !! key) as [v|] eqn:E.
  - destruct v; try discriminate. injection H as ->. destruct l; reflexivity.
  - injection H as <-. reflexivity.
Qed.

Lemma list_at_put_list (key : string) (l : list string) (s : store) :
  list_at (put_list key l s) key = Some l.
Proof.
  unfold list_at, put_list. destruct l.
  - rewrite lookup_delete_eq. reflexivity.
  - rewrite lookup_insert_eq. reflexivity.
Qed.

(** X6.  [datatype.py]'s iteration pops what it yields: over a list of
    inline payloads it yields the values in order, after it the list
    holds nothing, and a second iteration yields nothing. *)
Theorem legacy_iter_drains (key : string) (ts : list string) (vs : list pyval)
    (w : world) (fuel : nat) :
  list_at (db w) key = Some (map (Core.format2 Core.ABSOLUTE_VALUE_PREFIX) ts) ->
  Forall2 (fun t v => json_loads t = Some v) ts vs ->
  (length ts < fuel)%nat ->
  exists w' w'',
    Legacy.__iter__ json_loads fuel key w = Ret (map Core.Structure vs) w' /\
    list_at (db w') key = Some [] /\
    Legacy.__iter__ json_loads fuel key w' = Ret [] w''.
Proof.
  intros Hl Hv Hf.
  assert (Hmain : exists w', Legacy.drain json_loads fuel key true w =
                               Ret (map Core.Structure vs) w' /\
                             list_at (db w') key = Some []).
  { revert w fuel Hl Hf. induction Hv as [|t v ts vs Htv _ IH]; intros w fuel Hl Hf.
    - destruct fuel as [|fuel]; [simpl in Hf; lia|].
      cbn [Legacy.drain Legacy.next]. unfold bind at 1. unfold bind at 1.
      rewrite (lpop_eq key w [] Hl). cbn [head]. eexists. split; [reflexivity|]. exact Hl.
    - destruct fuel as [|fuel]; [simpl in Hf; lia|].
      cbn [Legacy.drain Legacy.next]. unfold bind at 1. unfold bind at 1.
      rewrite (lpop_eq key w _ Hl). cbn [map head].
      unfold bind at 1. rewrite (legacy_decode_inline t v _ Htv). cbn [ret].
      set (w1 := {| db := _ |}).
      destruct (IH w1 fuel) as (w' & Hd & Hl').
      + unfold w1. cbn [db]. apply list_at_put_list.
      + simpl in Hf. lia.
      + exists w'. unfold bind at 1. rewrite Hd. split; [reflexivity | exact Hl']. }
  destruct Hmain as (w' & Hd & Hl').
  exists w'. 
  destruct fuel as [|fuel]; [lia|].
  eexists. split; [exact Hd|]. split; [exact Hl'|].
  unfold Legacy.__iter__. cbn [Legacy.drain Legacy.next]. unfold bind at 1. unfold bind at 1.
  rewrite (lpop_eq key w' [] Hl'). reflexivity.
Qed.

End Codec.

(** The earlier iteration on a list of two. *)
Lemma legacy_iter_drains_witness :
  let w := Script.fresh (<["L" := VList ["redis:abs:1"; "redis:abs:2"]]> ∅) in
  exists w' w'',
    Legacy.__iter__ IntJson.loads 3 "L" w = Ret [Core.Structure 1; Core.Structure 2] w' /\
    list_at (db w') "L" = Some [] /\
    Legacy.__iter__ IntJson.loads 3 "L" w' = Ret [] w''.
Proof.
  cbv zeta.
  refine (legacy_iter_drains IntJson.loads "L" ["1"; "2"] [1; 2]
            (Script.fresh (<["L" := VList ["redis:abs:1"; "redis:abs:2"]]> ∅)) 3
            eq_refl _ _).
  - repeat constructor.
  - simpl. lia.
Defined.

End LegacyFacts.

(** ** Calling a script by position or by name *)

Module ScriptMoreFacts.
Import Redis Py Script Resolution ScriptFacts.
Local Open Scope py_scope.
Local Open Scope nat_scope.

(** The closed form and the two loops give the same values. *)
Lemma resolved_resolve (args_ : list arg) (kwargs : gmap string arg) (params : list string) :
  resolved args_ kwargs params =
    match resolve params args_ kwargs 0 with
    | inr (vs, _) => Some vs
    | inl _ => None
    end.
Proof.
  pose proof (resolve_closed args_ kwargs params []) as H.
  change (cursor kwargs [] (length (@nil string))) with 0 in H. simpl in H.
  rewrite H. unfold resolved. destruct (mapM _ _); reflexivity.
Qed.

Lemma resolve_positional (names : list string) (args_ : list arg) (i : nat) :
  i <= length args_ ->
  resolve names args_ ∅ i =
    if decide (i + length names <= length args_)
    then inr (firstn (length names) (skipn i args_), i + length names)
    else inl ScriptError.
Proof.
  revert i. induction names as [|key names IH]; intros i Hi.
  - simpl. rewrite Nat.add_0_r. destruct (decide _); [reflexivity | lia].
  - cbn [resolve length]. rewrite lookup_empty.
    destruct (args_ !! i) as [v|] eqn:Ev.
    + pose proof (lookup_lt_Some _ _ _ Ev) as Hlt. rewrite IH by lia.
      destruct (decide (S i + length names <= length args_)) as [H1|H1];
        destruct (decide (i + S (length names) <= length args_)) as [H2|H2]; try lia.
      * f_equal. f_equal; [|lia].
        rewrite (drop_S _ _ _ Ev). reflexivity.
      * reflexivity.
    + apply lookup_ge_None in Ev.
      destruct (decide (i + S (length names) <= length args_)); [lia | reflexivity].
Qed.

Lemma resolve_named (names : list string) (args_ : list arg) (kwargs : gmap string arg)
    (i : nat) (vs : list arg) :
  Forall2 (fun p v => kwargs !! p = Some v) names vs ->
  resolve names args_ kwargs i = inr (vs, i).
Proof.
  induction 1 as [|p v names vs Hp _ IH]; [reflexivity|].
  cbn [resolve]. rewrite Hp, IH. reflexivity.
Qed.

(** X9.  A script called with positional arguments only: with at least
    as many arguments as the class declares keys and args, the first of
    them become the keys, the next the args, and any further argument is
    dropped without an error; with fewer, [execute] raises [ScriptError]
    after the class was registered and before the script is invoked. *)
Theorem execute_positional (self : cls) (fuel : nat) (args_ : list arg) (w : world) :
  let nk := length (keys self) in
  let na := length (args self) in
  if decide (nk + na <= length args_)
  then execute self fuel args_ ∅ w =
         (register self ;; call self fuel (firstn nk args_) (firstn na (skipn nk args_))) w
  else execute self fuel args_ ∅ w = Raise ScriptError (registered_world self w).
Proof.
  intros nk na. rewrite execute_eq, resolved_resolve, resolve_positional by (simpl; lia).
  rewrite length_app. fold nk na. cbn [Nat.add].
  destruct (decide (nk + na <= length args_)) as [Hd|Hd]; [|reflexivity].
  unfold bind. rewrite register_eq. rewrite skipn_O.
  rewrite firstn_firstn, Nat.min_l by lia.
  replace (skipn nk (firstn (nk + na) args_)) with (firstn na (skipn nk args_)); [reflexivity|].
  rewrite skipn_firstn_comm. f_equal. lia.
Qed.

(** X10.  A script called with every declared key and arg given by name:
    the positional arguments are never read, whatever they are and
    however many, and the script is invoked on the named values in
    declaration order. *)
Theorem execute_named (self : cls) (fuel : nat) (args_ : list arg)
    (kwargs : gmap string arg) (ks as_ : list arg) (w : world) :
  Forall2 (fun p v => kwargs !! p = Some v) (keys self) ks ->
  Forall2 (fun p v => kwargs !! p = Some v) (args self) as_ ->
  execute self fuel args_ kwargs w = (register self ;; call self fuel ks as_) w.
Proof.
  intros Hk Ha. rewrite execute_eq, resolved_resolve.
  rewrite (resolve_named _ args_ kwargs 0 (ks ++ as_)) by (apply Forall2_app; assumption).
  rewrite (Forall2_length _ _ _ Hk).
  rewrite firstn_app, Nat.sub_diag, firstn_all, skipn_app, Nat.sub_diag, skipn_all.
  simpl. rewrite app_nil_r. unfold bind. rewrite register_eq. reflexivity.
Qed.

(** X10 at the pop script, with both names bound and two stray
    positional arguments. *)
Lemma execute_named_witness :
  execute ListScripts.ListPop 0 [AStr "stray"; AInt 7]
      {[ "key" := AStr "L"; "index" := AInt 1 ]} (fresh ∅) =
    (register ListScripts.ListPop ;; call ListScripts.ListPop 0 [AStr "L"] [AInt 1]) (fresh ∅).
Proof.
  refine (execute_named ListScripts.ListPop 0 [AStr "stray"; AInt 7]
            {[ "key" := AStr "L"; "index" := AInt 1 ]} [AStr "L"] [AInt 1] (fresh ∅) _ _);
    repeat constructor.
Defined.

End ScriptMoreFacts.
(** ** The cascading delete on nested structures *)

Module ReachFacts.
Import Redis Lua StrFacts LuaFacts DeleteAll DeleteAllFacts Reach.

Lemma shrunk_refl (s : store) : shrunk s s.
Proof. intros k. right. reflexivity. Qed.

Lemma shrunk_trans (s1 s2 s3 : store) : shrunk s1 s2 -> shrunk s2 s3 -> shrunk s1 s3.
Proof.
  intros H12 H23 k. destruct (H12 k) as [H|H]; [left; exact H|].
  rewrite H. apply H23.
Qed.

Lemma shrunk_delete (key : string) (s1 s : store) : shrunk s1 s -> shrunk (delete key s1) s.
Proof.
  intros H k. destruct (decide (k = key)) as [->|Hne].
  - left. apply lookup_delete_eq.
  - rewrite lookup_delete_ne by congruence. apply H.
Qed.

Lemma shrunk_Some (s1 s : store) (k : string) (v : rvalue) :
  shrunk s1 s -> s1 !! k = Some v -> s !! k = Some v.
Proof. intros H Hk. destruct (H k) as [E|E]; congruence. Qed.

Lemma edge_shrunk (s1 s : store) (a b : string) : shrunk s1 s -> edge s1 a b -> edge s a b.
Proof. intros H [v [Hv Hb]]. exists v. split; [eapply shrunk_Some; eassumption | exact Hb]. Qed.

Lemma reach_shrunk (s1 s : store) (a b : string) : shrunk s1 s -> reach s1 a b -> reach s a b.
Proof.
  intros H Hr. induction Hr as [|x y z Hxy _ IH]; [apply rtc_refl|].
  eapply rtc_l; [eapply edge_shrunk; eassumption | exact IH].
Qed.

Lemma depth_within_S (n : nat) (s : store) (key : string) :
  depth_within n s key = true -> depth_within (S n) s key = true.
Proof.
  revert key. induction n as [|n IH]; intros key; [discriminate|].
  intros H. cbn [depth_within] in H |- *.
  destruct (s !! key) as [v|]; [|reflexivity].
  rewrite forallb_forall in H |- *. intros c Hc. apply IH, H, Hc.
Qed.

Lemma depth_within_edge (n : nat) (s : store) (a c : string) :
  depth_within (S n) s a = true -> edge s a c -> depth_within n s c = true.
Proof.
  intros H [v [Hv Hc]]. cbn [depth_within] in H. rewrite Hv in H.
  rewrite forallb_forall in H. apply H. apply list_elem_of_In, Hc.
Qed.

Lemma depth_within_reach (n : nat) (s : store) (a k : string) :
  depth_within n s a = true -> reach s a k -> depth_within n s k = true.
Proof.
  intros H Hr. induction Hr as [|x y z Hxy _ IH]; [exact H|].
  apply IH. destruct n as [|n]; [discriminate|].
  apply depth_within_S. eapply depth_within_edge; eassumption.
Qed.

(** Where the references nest to a bounded depth no structure reaches
    itself. *)
Lemma no_cycle (n : nat) (s : store) (a c : string) :
  depth_within n s a = true -> edge s a c -> reach s c a -> False.
Proof.
  revert a c. induction n as [|n IH]; intros a c H Hac Hca; [discriminate|].
  pose proof (depth_within_edge n s a c H Hac) as Hc.
  pose proof (depth_within_reach n s c a Hc Hca) as Ha.
  exact (IH a c Ha Hac Hca).
Qed.

Lemma depth_within_shrunk (n : nat) (s1 s : store) (key : string) :
  shrunk s1 s -> depth_within n s key = true -> depth_within n s1 key = true.
Proof.
  intros Hs. revert key. induction n as [|n IH]; intros key H; [discriminate|].
  cbn [depth_within] in H |- *.
  destruct (s1 !! key) as [v|] eqn:E; [|reflexivity].
  rewrite (shrunk_Some s1 s key v Hs E) in H.
  rewrite forallb_forall in H |- *. intros c Hc. apply IH, H, Hc.
Qed.

Lemma sweeps_cons (n : nat) (b : string) (bs : list string) (s : store) :
  sweeps n (b :: bs) s = sweeps n bs (sweep n b s).
Proof. reflexivity. Qed.

Lemma sweep_S (n : nat) (key : string) (s : store) :
  sweep (S n) key s =
    match s !! key with
    | Some v => delete key (sweeps n (targets v) s)
    | None => s
    end.
Proof. reflexivity. Qed.

(** A sweep only deletes. *)
Lemma sweeps_shrunk_of (n : nat) (bs : list string) :
  (forall b s, shrunk (sweep n b s) s) -> forall s, shrunk (sweeps n bs s) s.
Proof.
  intros IH. induction bs as [|b bs IHbs]; intros s; [apply shrunk_refl|].
  rewrite sweeps_cons. eapply shrunk_trans; [apply IHbs | apply IH].
Qed.

Lemma sweep_shrunk (n : nat) (b : string) (s : store) : shrunk (sweep n b s) s.
Proof.
  revert b s. induction n as [|n IH]; intros b s; [apply shrunk_refl|].
  rewrite sweep_S. destruct (s !! b) as [v|]; [|apply shrunk_refl].
  apply shrunk_delete, sweeps_shrunk_of, IH.
Qed.

Lemma sweeps_shrunk (n : nat) (bs : list string) (s : store) : shrunk (sweeps n bs s) s.
Proof. apply sweeps_shrunk_of. intros. apply sweep_shrunk. Qed.

(** A sweep deletes nothing but what is reached. *)
Lemma sweeps_only_reach_of (n : nat) (bs : list string) :
  (forall b s k, sweep n b s !! k = None -> s !! k = None \/ reach s b k) ->
  forall s k, sweeps n bs s !! k = None -> s !! k = None \/ exists b, b ∈ bs /\ reach s b k.
Proof.
  intros IH. induction bs as [|b bs IHbs]; intros s k H; [left; exact H|].
  rewrite sweeps_cons in H. destruct (IHbs _ _ H) as [H1 | [c [Hc Hr]]].
  - destruct (IH _ _ _ H1) as [H2 | H2]; [left; exact H2|].
    right. exists b. split; [left | exact H2].
  - right. exists c. split; [right; exact Hc|].
    eapply reach_shrunk; [apply sweep_shrunk | exact Hr].
Qed.

Lemma sweep_only_reach (n : nat) (b : string) (s : store) (k : string) :
  sweep n b s !! k = None -> s !! k = None \/ reach s b k.
Proof.
  revert b s k. induction n as [|n IH]; intros b s k H; [left; exact H|].
  rewrite sweep_S in H. destruct (s !! b) as [v|] eqn:E; [|left; exact H].
  destruct (decide (k = b)) as [->|Hne]; [right; apply rtc_refl|].
  rewrite lookup_delete_ne in H by congruence.
  destruct (sweeps_only_reach_of n (targets v) IH s k H) as [H1 | [c [Hc Hr]]];
    [left; exact H1|].
  right. eapply rtc_l; [|exact Hr]. exists v. split; assumption.
Qed.

Lemma sweeps_only_reach (n : nat) (bs : list string) (s : store) (k : string) :
  sweeps n bs s !! k = None -> s !! k = None \/ exists b, b ∈ bs /\ reach s b k.
Proof. apply sweeps_only_reach_of. intros. eapply sweep_only_reach; eassumption. Qed.

(** What is reached in [s] is reached in a swept [s] or gone from it. *)
Lemma reach_swept (n : nat) (b0 : string) (s : store) (b k : string) :
  (forall k, reach s b0 k -> sweep n b0 s !! k = None) ->
  reach s b k -> reach (sweep n b0 s) b k \/ sweep n b0 s !! k = None.
Proof.
  intros H0 Hr. induction Hr as [|x y z Hxy Hyz IH]; [left; apply rtc_refl|].
  destruct IH as [IH | IH]; [|right; exact IH].
  destruct (sweep_shrunk n b0 s x) as [Hx | Hx].
  - right. apply H0.
    destruct (sweep_only_reach n b0 s x Hx) as [Hn | Hrx].
    + destruct Hxy as [v [Hv _]]. congruence.
    + eapply rtc_trans; [exact Hrx|].
      eapply rtc_l; [exact Hxy | exact Hyz].
  - left. eapply rtc_l; [|exact IH].
    destruct Hxy as [v [Hv Hy]]. exists v. split; [congruence | exact Hy].
Qed.

Lemma sweeps_reach_of (n : nat) (bs : list string) :
  (forall b s k, depth_within n s b = true -> reach s b k -> sweep n b s !! k = None) ->
  forall s b k, Forall (fun c => depth_within n s c = true) bs ->
    b ∈ bs -> reach s b k -> sweeps n bs s !! k = None.
Proof.
  intros IH. induction bs as [|b0 bs IHbs]; intros s b k Hd Hb Hr; [inversion Hb|].
  rewrite sweeps_cons. inversion Hd as [|? ? Hd0 Hds]; subst.
  assert (Hgone : forall k, sweep n b0 s !! k = None -> sweeps n bs (sweep n b0 s) !! k = None).
  { intros k' Hk'. destruct (sweeps_shrunk n bs (sweep n b0 s) k') as [E|E]; congruence. }
  apply elem_of_cons in Hb. destruct Hb as [-> | Hb].
  - apply Hgone, IH; assumption.
  - destruct (reach_swept n b0 s b k (fun k' => IH b0 s k' Hd0) Hr) as [Hr' | Hk].
    + apply (IHbs _ b k); [|exact Hb | exact Hr'].
      eapply Forall_impl; [exact Hds|]. intros c Hc.
      eapply depth_within_shrunk; [apply sweep_shrunk | exact Hc].
    + apply Hgone, Hk.
Qed.

Lemma depth_within_targets (n : nat) (s : store) (key : string) (v : rvalue) :
  depth_within (S n) s key = true -> s !! key = Some v ->
  Forall (fun c => depth_within n s c = true) (targets v).
Proof.
  intros H Hv. cbn [depth_within] in H. rewrite Hv in H.
  rewrite forallb_forall in H. apply Forall_forall. intros c Hc.
  apply H, list_elem_of_In, Hc.
Qed.

(** A sweep deletes all that is reached. *)
Lemma sweep_reach (n : nat) (b : string) (s : store) (k : string) :
  depth_within n s b = true -> reach s b k -> sweep n b s !! k = None.
Proof.
  revert b s k. induction n as [|n IH]; intros b s k Hd Hr; [discriminate|].
  rewrite sweep_S. destruct (s !! b) as [v|] eqn:E.
  - destruct (decide (k = b)) as [->|Hne]; [apply lookup_delete_eq|].
    rewrite lookup_delete_ne by congruence.
    apply rtc_inv in Hr. destruct Hr as [-> | [c [[v' [Hv' Hc]] Hr]]]; [congruence|].
    assert (v' = v) as -> by congruence.
    apply (sweeps_reach_of n (targets v) IH s c k); [|exact Hc | exact Hr].
    eapply depth_within_targets; eassumption.
  - apply rtc_inv in Hr. destruct Hr as [<- | [c [[v' [Hv' _]] _]]]; congruence.
Qed.

Lemma redis_call_smembers (key : string) (s : store) (m : list string) :
  s !! key = Some (VSet m) ->
  redis_call [Str "SMEMBERS"; Str key] s = Ret (Array (map Str m)) s.
Proof.
  intros H. unfold redis_call. cbn [arg_strings arg_string command]. rewrite H.
  cbn [of_reply]. rewrite map_map. reflexivity.
Qed.

Lemma refs_cons (p : string) (ps : list string) :
  refs (p :: ps) = if is_redis_datatype p then get_reference p :: refs ps else refs ps.
Proof. unfold refs. cbn [List.filter]. destruct (is_redis_datatype p); reflexivity. Qed.

Lemma refs_elem (p : string) (ps : list string) :
  p ∈ ps -> is_redis_datatype p = true -> get_reference p ∈ refs ps.
Proof.
  intros Hin Hp. unfold refs. apply list_elem_of_In, in_map, filter_In.
  split; [apply list_elem_of_In, Hin | exact Hp].
Qed.

Section Script.

Variable n : nat.
Hypothesis IHn : forall key s, depth_within n s key = true ->
  exists f0, forall f, (f0 <= f)%nat ->
    delete_references f (Str key) s = Ret tt (sweep n key s).

(** The walk over the values of a hash or the members of a set, which
    the script reads before it follows any of them. *)
Lemma for_each_sweep (ps : list string) (s : store) :
  Forall (fun c => depth_within n s c = true) (refs ps) ->
  exists f0, forall f, (f0 <= f)%nat ->
    for_each (check_references (delete_references f)) (map Str ps) s =
      Ret tt (sweeps n (refs ps) s).
Proof.
  revert s. induction ps as [|p ps IH]; intros s Hd.
  - exists 0%nat. reflexivity.
  - rewrite refs_cons in Hd |- *. destruct (is_redis_datatype p) eqn:Ep.
    + inversion Hd as [|? ? Hc Hds]; subst.
      destruct (IHn _ _ Hc) as [f1 Hf1].
      destruct (IH (sweep n (get_reference p) s)) as [f2 Hf2].
      { eapply Forall_impl; [exact Hds|]. intros c Hc'.
        eapply depth_within_shrunk; [apply sweep_shrunk | exact Hc']. }
      exists (f1 `max` f2)%nat. intros f Hf. cbn [map for_each].
      unfold bind at 1. unfold check_references at 1. rewrite Ep, Hf1 by lia.
      rewrite Hf2 by lia. reflexivity.
    + destruct (IH s Hd) as [f0 Hf0]. exists f0. intros f Hf. cbn [map for_each].
      unfold bind at 1. unfold check_references at 1. rewrite Ep. apply Hf0, Hf.
Qed.

(** The walk over a list, which the script reads element by element
    while it follows the references: no structure below the list
    reaches back to it, so the list is as it was at each read. *)
Lemma loop_sweep (key : string) (l rest : list string) :
  forall (pre : list string) (s : store),
  l = (pre ++ rest)%list -> s !! key = Some (VList l) -> depth_within (S n) s key = true ->
  exists f0, forall f nloop, (f0 <= f)%nat -> (length rest <= nloop)%nat ->
    delete_list_loop (check_references (delete_references f)) (Str key) nloop
      (Z.of_nat (length pre)) (of_reply (bulk_reply (l !! length pre))) s =
      Ret tt (sweeps n (refs rest) s).
Proof.
  induction rest as [|p rest IH]; intros pre s Hl Hk Hd.
  - exists 0%nat. intros f nloop _ _.
    rewrite Hl, app_nil_r, lookup_ge_None_2 by lia. destruct nloop; reflexivity.
  - assert (Hp : l !! length pre = Some p).
    { rewrite Hl. apply list_lookup_middle. reflexivity. }
    assert (Hl' : l = ((pre ++ [p]) ++ rest)%list) by (rewrite <- app_assoc; exact Hl).
    assert (Hlen : Z.of_nat (length pre) + 1 = Z.of_nat (length (pre ++ [p])%list))
      by (rewrite length_app; simpl; lia).
    rewrite refs_cons. destruct (is_redis_datatype p) eqn:Ep.
    + assert (He : edge s key (get_reference p)).
      { exists (VList l). split; [exact Hk|]. apply refs_elem; [|exact Ep].
        rewrite Hl. apply elem_of_app. right. left. }
      pose proof (depth_within_edge n s key _ Hd He) as Hc.
      destruct (IHn _ _ Hc) as [f1 Hf1].
      assert (Hk2 : sweep n (get_reference p) s !! key = Some (VList l)).
      { destruct (sweep_shrunk n (get_reference p) s key) as [E|E]; [|congruence].
        exfalso. destruct (sweep_only_reach n _ s key E) as [E2|Hr]; [congruence|].
        exact (no_cycle (S n) s key _ Hd He Hr). }
      destruct (IH (pre ++ [p])%list (sweep n (get_reference p) s) Hl' Hk2) as [f2 Hf2].
      { eapply depth_within_shrunk; [apply sweep_shrunk | exact Hd]. }
      exists (f1 `max` f2)%nat. intros f nloop Hf Hn.
      destruct nloop as [|nloop]; [simpl in Hn; lia|].
      rewrite Hp. cbn [bulk_reply of_reply delete_list_loop truthy].
      unfold bind at 1. unfold check_references at 1. rewrite Ep, Hf1 by lia.
      unfold bind at 1. rewrite Hlen, (redis_call_lindex key _ _ l Hk2), at_index_nat.
      rewrite Hf2 by (simpl in Hn; lia). reflexivity.
    + destruct (IH (pre ++ [p])%list s Hl' Hk Hd) as [f2 Hf2].
      exists f2. intros f nloop Hf Hn.
      destruct nloop as [|nloop]; [simpl in Hn; lia|].
      rewrite Hp. cbn [bulk_reply of_reply delete_list_loop truthy].
      unfold bind at 1. unfold check_references at 1. rewrite Ep.
      unfold ret at 1. unfold bind at 1.
      rewrite Hlen, (redis_call_lindex key _ _ l Hk), at_index_nat.
      apply Hf2; [exact Hf | simpl in Hn; lia].
Qed.

End Script.

(** With references nesting to a bounded depth, the script returns on
    every fuel from some bound on and leaves the swept key space. *)
Lemma delete_references_sweep (n : nat) (key : string) (s : store) :
  depth_within n s key = true ->
  exists f0, forall f, (f0 <= f)%nat ->
    delete_references f (Str key) s = Ret tt (sweep n key s).
Proof.
  revert key s. induction n as [|n IH]; intros key s Hd; [discriminate|].
  rewrite sweep_S. destruct (s !! key) as [v|] eqn:E.
  - pose proof (depth_within_targets n s key v Hd E) as Hts.
    destruct v as [x|l|h|m|z].
    + exists 1%nat. intros [|f] Hf; [lia|].
      rewrite delete_references_unfold. unfold bind at 1, get_type.
      rewrite redis_call_type. unfold type_of. rewrite E. cbn [field_ok type_name].
      unfold bind. destruct (redis_call_del key s) as [k ->]. reflexivity.
    + destruct (loop_sweep n IH key l l [] s eq_refl E Hd) as [f0 Hf0].
      exists (S (f0 `max` length l))%nat. intros [|f] Hf; [lia|].
      rewrite delete_references_unfold. unfold bind at 1, get_type.
      rewrite redis_call_type. unfold type_of. rewrite E. cbn [field_ok type_name].
      unfold delete_list. unfold bind at 1.
      rewrite (redis_call_lindex key 0 s l E).
      change (at_index l 0) with (at_index l (Z.of_nat 0)).
      rewrite (at_index_nat l 0). unfold bind at 1.
      specialize (Hf0 f f). change (Z.of_nat (length (@nil string))) with 0 in Hf0.
      change (length (@nil string)) with 0%nat in Hf0. rewrite Hf0 by lia.
      unfold bind. destruct (redis_call_del key (sweeps n (refs l) s)) as [k ->].
      reflexivity.
    + destruct (for_each_sweep n IH (map snd h) s Hts) as [f0 Hf0].
      exists (S f0). intros [|f] Hf; [lia|].
      rewrite delete_references_unfold. unfold bind at 1, get_type.
      rewrite redis_call_type. unfold type_of. rewrite E. cbn [field_ok type_name].
      unfold delete_hash. unfold bind at 1. rewrite (redis_call_hvals key s h E).
      cbn [elements]. rewrite <- (map_map snd Str). unfold bind at 1.
      rewrite Hf0 by lia.
      unfold bind. destruct (redis_call_del key (sweeps n (refs (map snd h)) s)) as [k ->].
      reflexivity.
    + destruct (for_each_sweep n IH m s Hts) as [f0 Hf0].
      exists (S f0). intros [|f] Hf; [lia|].
      rewrite delete_references_unfold. unfold bind at 1, get_type.
      rewrite redis_call_type. unfold type_of. rewrite E. cbn [field_ok type_name].
      unfold delete_set. unfold bind at 1. rewrite (redis_call_smembers key s m E).
      cbn [elements]. unfold bind at 1. rewrite Hf0 by lia.
      unfold bind. destruct (redis_call_del key (sweeps n (refs m) s)) as [k ->].
      reflexivity.
    + exists 1%nat. intros [|f] Hf; [lia|].
      rewrite delete_references_unfold. unfold bind at 1, get_type.
      rewrite redis_call_type. unfold type_of. rewrite E. cbn [field_ok type_name].
      unfold bind. destruct (redis_call_del key s) as [k ->]. reflexivity.
  - exists 1%nat. intros [|f] Hf; [lia|]. apply delete_references_absent, E.
Qed.

End ReachFacts.
(** ** The cascading delete on references that form a cycle *)

Module CycleFacts.
Import Redis Lua StrFacts LuaFacts DeleteAll DeleteAllFacts Reach ReachFacts.

Lemma swept_from_nil (s : store) : swept_from s [] s.
Proof. split; [apply shrunk_refl|]. intros k H. left. exact H. Qed.

Lemma swept_from_step (s s1 s2 : store) (bs : list string) (c : string) :
  swept_from s bs s1 -> swept_from s1 [c] s2 -> swept_from s (bs ++ [c]) s2.
Proof.
  intros [Hs1 Hr1] [Hs2 Hr2]. split; [eapply shrunk_trans; eassumption|].
  intros k Hk. destruct (Hr2 k Hk) as [H1 | [b [Hb Hr]]].
  - destruct (Hr1 k H1) as [H0 | [b [Hb Hr]]]; [left; exact H0|].
    right. exists b. split; [apply elem_of_app; left; exact Hb | exact Hr].
  - apply list_elem_of_singleton in Hb. subst b.
    right. exists c. split; [apply elem_of_app; right; left|].
    eapply reach_shrunk; eassumption.
Qed.

(** What is reached in [s] is reached in a swept [s], or from one of
    the swept keys. *)
Lemma reach_or_swept (s s1 : store) (bs : list string) (x y : string) :
  swept_from s bs s1 -> reach s x y ->
  reach s1 x y \/ exists b, b ∈ bs /\ reach s b y.
Proof.
  intros [Hs Hr] Hxy. induction Hxy as [|x x' y Hxx' Hx'y IH]; [left; apply rtc_refl|].
  destruct IH as [IH | IH]; [|right; exact IH].
  destruct (Hs x) as [Hx | Hx].
  - right. destruct (Hr x Hx) as [H0 | [b [Hb Hbx]]].
    + destruct Hxx' as [v [Hv _]]. congruence.
    + exists b. split; [exact Hb|].
      eapply rtc_trans; [exact Hbx|]. eapply rtc_l; eassumption.
  - left. eapply rtc_l; [|exact IH].
    destruct Hxx' as [v [Hv Hy]]. exists v. split; [congruence | exact Hy].
Qed.

Lemma loops_swept (s s1 : store) (bs : list string) (c : string) :
  swept_from s bs s1 -> (forall b, b ∈ bs -> ~ loops s b) -> loops s c -> loops s1 c.
Proof.
  intros Hsw Hbs (a & b & Hca & Hab & Hba).
  assert (Hno : forall b0, b0 ∈ bs -> reach s b0 a -> False).
  { intros b0 Hb0 Hr. apply (Hbs b0 Hb0). exists a, b. auto. }
  destruct (reach_or_swept s s1 bs c a Hsw Hca) as [Hca' | [b0 [Hb0 Hr]]];
    [|destruct (Hno b0 Hb0 Hr)].
  destruct (reach_or_swept s s1 bs b a Hsw Hba) as [Hba' | [b0 [Hb0 Hr]]];
    [|destruct (Hno b0 Hb0 Hr)].
  exists a, b. split; [exact Hca'|]. split; [|exact Hba'].
  destruct Hsw as [Hs Hr]. destruct Hab as [v [Hv Hb]]. exists v. split; [|exact Hb].
  destruct (Hs a) as [Ha | Ha]; [|congruence].
  destruct (Hr a Ha) as [H0 | [b0 [Hb0 Hr0]]]; [congruence | destruct (Hno b0 Hb0 Hr0)].
Qed.

Lemma loops_children (s : store) (key : string) (v : rvalue) :
  s !! key = Some v -> (forall b, b ∈ targets v -> ~ loops s b) -> ~ loops s key.
Proof.
  intros Hv Hbs (a & b & Hka & Hab & Hba).
  apply rtc_inv in Hka. destruct Hka as [<- | [c [[v' [Hv' Hc]] Hca]]].
  - destruct Hab as [v' [Hv' Hb]]. assert (v' = v) as -> by congruence.
    apply (Hbs b Hb). exists key, b. split; [exact Hba|]. split; [|exact Hba].
    exists v. split; assumption.
  - assert (v' = v) as -> by congruence.
    apply (Hbs c Hc). exists a, b. auto.
Qed.

Lemma loops_leaf (s : store) (key : string) :
  (forall v, s !! key = Some v -> targets v = []) -> ~ loops s key.
Proof.
  intros Hleaf (a & b & Hka & Hab & Hba).
  assert (Hno : forall c, ~ edge s key c).
  { intros c [v [Hv Hc]]. rewrite (Hleaf v Hv) in Hc. inversion Hc. }
  apply rtc_inv in Hka. destruct Hka as [<- | [c [Hc _]]].
  - exact (Hno b Hab).
  - exact (Hno c Hc).
Qed.

Lemma refs_app (ps qs : list string) : refs (ps ++ qs) = (refs ps ++ refs qs)%list.
Proof. unfold refs. rewrite List.filter_app, map_app. reflexivity. Qed.

Lemma swept_from_delete (s s2 : store) (key : string) (v : rvalue) :
  s !! key = Some v -> swept_from s (targets v) s2 -> swept_from s [key] (delete key s2).
Proof.
  intros Hv [Hs Hr]. split; [apply shrunk_delete, Hs|].
  intros k Hk. destruct (decide (k = key)) as [->|Hne].
  - right. exists key. split; [left | apply rtc_refl].
  - rewrite lookup_delete_ne in Hk by congruence.
    destruct (Hr k Hk) as [H0 | [b [Hb Hbk]]]; [left; exact H0|].
    right. exists key. split; [left|].
    eapply rtc_l; [|exact Hbk]. exists v. split; assumption.
Qed.

Lemma swept_from_leaf (s : store) (key : string) : swept_from s [key] (delete key s).
Proof.
  split; [apply shrunk_delete, shrunk_refl|].
  intros k Hk. destruct (decide (k = key)) as [->|Hne].
  - right. exists key. split; [left | apply rtc_refl].
  - rewrite lookup_delete_ne in Hk by congruence. left. exact Hk.
Qed.

Section Returns.

Variable f : nat.
Hypothesis IHf : forall key s s',
  delete_references f (Str key) s = Ret tt s' -> swept_from s [key] s' /\ ~ loops s key.

Lemma check_returns (s0 s1 s2 : store) (bs : list string) (p : string) :
  swept_from s0 bs s1 -> (forall b, b ∈ bs -> ~ loops s0 b) ->
  check_references (delete_references f) (Str p) s1 = Ret tt s2 ->
  swept_from s0 (bs ++ refs [p]) s2 /\ (forall b, b ∈ (bs ++ refs [p])%list -> ~ loops s0 b) /\
  (is_redis_datatype p = true ->
     swept_from s1 [get_reference p] s2 /\ ~ loops s1 (get_reference p)).
Proof.
  intros Hsw Hbs H. unfold check_references in H. rewrite refs_cons.
  destruct (is_redis_datatype p) eqn:Ep.
  - destruct (IHf _ _ _ H) as [Hsw' Hno].
    split; [eapply swept_from_step; eassumption|]. split; [|auto].
    intros b Hb. apply elem_of_app in Hb. destruct Hb as [Hb | Hb]; [apply Hbs, Hb|].
    apply list_elem_of_singleton in Hb. subst b.
    intros Hl. apply Hno. eapply loops_swept; eassumption.
  - injection H as <-. change (refs []) with (@nil string). rewrite app_nil_r.
    split; [exact Hsw|]. split; [exact Hbs | discriminate].
Qed.

Lemma for_each_returns (s0 : store) (ps : list string) :
  forall (bs : list string) (s1 s2 : store),
  swept_from s0 bs s1 -> (forall b, b ∈ bs -> ~ loops s0 b) ->
  for_each (check_references (delete_references f)) (map Str ps) s1 = Ret tt s2 ->
  swept_from s0 (bs ++ refs ps) s2 /\ (forall b, b ∈ (bs ++ refs ps)%list -> ~ loops s0 b).
Proof.
  induction ps as [|p ps IH]; intros bs s1 s2 Hsw Hbs H.
  - injection H as <-. change (refs []) with (@nil string). rewrite app_nil_r. auto.
  - cbn [map for_each] in H. unfold bind in H.
    destruct (check_references (delete_references f) (Str p) s1) as [[] s1'| |] eqn:E;
      try discriminate.
    destruct (check_returns s0 s1 s1' bs p Hsw Hbs E) as [Hsw' [Hbs' _]].
    change (p :: ps) with ([p] ++ ps)%list. rewrite refs_app, app_assoc.
    exact (IH _ _ _ Hsw' Hbs' H).
Qed.

Lemma loop_returns (s0 : store) (key : string) (l rest : list string) :
  forall (pre : list string) (s1 s2 : store) (nloop : nat),
  l = (pre ++ rest)%list -> s1 !! key = Some (VList l) ->
  swept_from s0 (refs pre) s1 -> (forall b, b ∈ refs pre -> ~ loops s0 b) ->
  delete_list_loop (check_references (delete_references f)) (Str key) nloop
    (Z.of_nat (length pre)) (of_reply (bulk_reply (l !! length pre))) s1 = Ret tt s2 ->
  swept_from s0 (refs l) s2 /\ (forall b, b ∈ refs l -> ~ loops s0 b).
Proof.
  induction rest as [|p rest IH]; intros pre s1 s2 nloop Hl Hk Hsw Hbs H.
  - rewrite app_nil_r in Hl. subst pre.
    rewrite lookup_ge_None_2 in H by lia.
    assert (s2 = s1) as ->
      by (destruct nloop; cbn [bulk_reply of_reply delete_list_loop truthy] in H;
          unfold ret in H; congruence).
    auto.
  - assert (Hp : l !! length pre = Some p).
    { rewrite Hl. apply list_lookup_middle. reflexivity. }
    rewrite Hp in H. destruct nloop as [|nloop]; [discriminate H|].
    cbn [bulk_reply of_reply delete_list_loop truthy] in H. unfold bind at 1 in H.
    destruct (check_references (delete_references f) (Str p) s1) as [[] s1'| |] eqn:E;
      try discriminate.
    destruct (check_returns s0 s1 s1' (refs pre) p Hsw Hbs E) as [Hsw' [Hbs' Href]].
    rewrite <- refs_app in Hsw', Hbs'.
    assert (Hk' : s1' !! key = Some (VList l)).
    { destruct (is_redis_datatype p) eqn:Ep.
      - destruct (Href eq_refl) as [[Hs Hr] Hno].
        destruct (Hs key) as [Hn | Hn]; [|congruence].
        exfalso. destruct (Hr key Hn) as [H0 | [b [Hb Hbk]]]; [congruence|].
        apply list_elem_of_singleton in Hb. subst b. apply Hno.
        exists key, (get_reference p). split; [exact Hbk|]. split; [|exact Hbk].
        exists (VList l). split; [exact Hk|]. apply refs_elem; [|exact Ep].
        rewrite Hl. apply elem_of_app. right. left.
      - unfold check_references in E. rewrite Ep in E. injection E as <-. exact Hk. }
    unfold bind at 1 in H.
    replace (Z.of_nat (length pre) + 1) with (Z.of_nat (length (pre ++ [p])%list)) in H
      by (rewrite length_app; simpl; lia).
    rewrite (redis_call_lindex key _ _ l Hk'), at_index_nat in H.
    apply (IH (pre ++ [p])%list s1' s2 nloop); try assumption.
    rewrite <- app_assoc. exact Hl.
Qed.

End Returns.

(** A run of the script that returns has deleted nothing but what the
    key reaches, and met no cycle. *)
Lemma delete_references_returns (f : nat) (key : string) (s s' : store) :
  delete_references f (Str key) s = Ret tt s' -> swept_from s [key] s' /\ ~ loops s key.
Proof.
  revert key s s'. induction f as [|f IH]; intros key s s' H; [discriminate H|].
  rewrite delete_references_unfold in H. unfold bind at 1, get_type in H.
  rewrite redis_call_type in H. unfold type_of in H.
  destruct (s !! key) as [v|] eqn:E.
  - destruct v as [x|l|h|m|z]; cbn [field_ok type_name] in H.
    + unfold bind in H. destruct (redis_call_del key s) as [k Hk]. rewrite Hk in H.
      injection H as <-. split; [apply swept_from_leaf|].
      apply loops_leaf. intros v Hv. rewrite E in Hv. injection Hv as <-. reflexivity.
    + unfold delete_list in H. unfold bind at 1 in H.
      rewrite (redis_call_lindex key 0 s l E) in H.
      change (at_index l 0) with (at_index l (Z.of_nat 0)) in H.
      rewrite (at_index_nat l 0) in H. unfold bind at 1 in H.
      destruct (delete_list_loop _ _ _ _ _ s) as [[] s2| |] eqn:El; try discriminate.
      destruct (loop_returns f IH s key l l [] s s2 f eq_refl E (swept_from_nil s)) as [Hsw Hbs];
        [intros b Hb; inversion Hb | exact El |].
      unfold bind in H. destruct (redis_call_del key s2) as [k Hk]. rewrite Hk in H.
      injection H as <-.
      split; [eapply (swept_from_delete s s2 key (VList l)); eassumption|].
      eapply loops_children; [exact E | exact Hbs].
    + unfold delete_hash in H. unfold bind at 1 in H.
      rewrite (redis_call_hvals key s h E) in H. cbn [elements] in H.
      rewrite <- (map_map snd Str) in H. unfold bind at 1 in H.
      destruct (for_each _ _ s) as [[] s2| |] eqn:El; try discriminate.
      destruct (for_each_returns f IH s (map snd h) [] s s2 (swept_from_nil s)) as [Hsw Hbs];
        [intros b Hb; inversion Hb | exact El |].
      unfold bind in H. destruct (redis_call_del key s2) as [k Hk]. rewrite Hk in H.
      injection H as <-.
      split; [eapply (swept_from_delete s s2 key (VHash h)); eassumption|].
      eapply loops_children; [exact E | exact Hbs].
    + unfold delete_set in H. unfold bind at 1 in H.
      rewrite (redis_call_smembers key s m E) in H. cbn [elements] in H.
      unfold bind at 1 in H.
      destruct (for_each _ _ s) as [[] s2| |] eqn:El; try discriminate.
      destruct (for_each_returns f IH s m [] s s2 (swept_from_nil s)) as [Hsw Hbs];
        [intros b Hb; inversion Hb | exact El |].
      unfold bind in H. destruct (redis_call_del key s2) as [k Hk]. rewrite Hk in H.
      injection H as <-.
      split; [eapply (swept_from_delete s s2 key (VSet m)); eassumption|].
      eapply loops_children; [exact E | exact Hbs].
    + unfold bind in H. destruct (redis_call_del key s) as [k Hk]. rewrite Hk in H.
      injection H as <-. split; [apply swept_from_leaf|].
      apply loops_leaf. intros v Hv. rewrite E in Hv. injection Hv as <-. reflexivity.
  - cbn [field_ok] in H.
    unfold bind in H. destruct (redis_call_del key s) as [k Hk]. rewrite Hk in H.
    injection H as <-. split; [apply swept_from_leaf|].
    apply loops_leaf. intros v Hv. congruence.
Qed.

End CycleFacts.
(** ** The cascading delete script on a key *)

Module CascadeFacts.
Import Redis Lua StrFacts LuaFacts DeleteAll DeleteAllFacts Reach ReachFacts CycleFacts.

(** X11.  The cascading delete script run on a key whose references
    nest to a bounded depth, through lists, hashes and sets (so they
    form no cycle): from some fuel on it returns, and it has deleted
    exactly the keys reached from that key through references, the key
    itself among them; every other key holds what it held. *)
Theorem script_sweeps_reachable (s : store) (key : string) (n : nat) :
  depth_within n s key = true ->
  exists fuel0, forall fuel, (fuel0 <= fuel)%nat ->
    exists s', script [Str key] [] fuel s = Ret Nil s' /\
      (forall k, reach s key k -> s' !! k = None) /\
      (forall k, ~ reach s key k -> s' !! k = s !! k).
Proof.
  intros Hd. destruct (delete_references_sweep n _ _ Hd) as [f0 Hf0].
  exists f0. intros fuel Hf. exists (sweep n key s).
  unfold script, bind. cbn [index lookup list_lookup].
  rewrite (Hf0 fuel Hf). split; [reflexivity|]. split.
  - intros k Hr. apply sweep_reach; assumption.
  - intros k Hr. destruct (sweep_shrunk n key s k) as [E|E]; [|exact E].
    destruct (sweep_only_reach n _ _ k E) as [E2|Hr2]; [congruence | contradiction].
Qed.

(** X11 at a list [L] that refers to a hash [H] and a set [S], where
    [H] refers to [S] as well, next to a string key. *)
Lemma script_sweeps_reachable_witness :
  let s : store :=
    <["L" := VList ["redis:abs:1"; "redis:struct:H"; "redis:struct:S"]]>
      (<["H" := VHash [("f", "redis:struct:S")]]>
         (<["S" := VSet ["redis:abs:2"]]> (<["other" := VString "x"]> ∅))) in
  exists fuel0, forall fuel, (fuel0 <= fuel)%nat ->
    exists s', script [Str "L"] [] fuel s = Ret Nil s' /\
      (forall k, reach s "L" k -> s' !! k = None) /\
      (forall k, ~ reach s "L" k -> s' !! k = s !! k).
Proof.
  cbv zeta.
  refine (script_sweeps_reachable
            (<["L" := VList ["redis:abs:1"; "redis:struct:H"; "redis:struct:S"]]>
               (<["H" := VHash [("f", "redis:struct:S")]]>
                  (<["S" := VSet ["redis:abs:2"]]> (<["other" := VString "x"]> ∅))))
            "L" 3 _).
  vm_compute. reflexivity.
Defined.

(** X19.  The cascading delete script run on a key from which a cycle
    of references is reached (a structure that refers, directly or
    through other lists, hashes or sets, to itself) never returns:
    whatever the fuel, it fails or is still following references when
    it runs out. *)
Theorem script_cycle_never_returns (s : store) (key : string) (fuel : nat) :
  loops s key ->
  returned (script [Str key] [] fuel s) = false.
Proof.
  intros Hl. unfold script, bind. cbn [index lookup list_lookup].
  destruct (delete_references fuel (Str key) s) as [[] s'| |] eqn:E; try reflexivity.
  exfalso. destruct (delete_references_returns fuel _ _ _ E) as [_ Hno]. exact (Hno Hl).
Qed.

(** X19 at a list [L] that refers to a hash [H] that refers back to
    [L]. *)
Lemma script_cycle_never_returns_witness :
  returned
    (script [Str "L"] [] 50%nat
       (<["L" := VList ["redis:abs:1"; "redis:struct:H"]]>
          (<["H" := VHash [("parent", "redis:struct:L")]]> ∅))) = false.
Proof.
  refine (script_cycle_never_returns
            (<["L" := VList ["redis:abs:1"; "redis:struct:H"]]>
               (<["H" := VHash [("parent", "redis:struct:L")]]> ∅))
            "L" 50 _).
  exists "L", "H". split; [apply rtc_refl|]. split.
  - exists (VList ["redis:abs:1"; "redis:struct:H"]). split; [reflexivity|].
    apply list_elem_of_In. vm_compute. left. reflexivity.
  - apply rtc_once. exists (VHash [("parent", "redis:struct:L")]). split; [reflexivity|].
    apply list_elem_of_In. vm_compute. left. reflexivity.
Defined.

End CascadeFacts.
(** ** The list: membership, assignment, appending *)

Module ListMoreFacts.
Import Redis Py StrFacts LuaFacts ScriptFacts CoreFacts ListFacts ListScriptFacts.
Local Open Scope py_scope.

Lemma list_at_cons (s : store) (key : string) (l : list string) :
  list_at s key = Some l -> l <> [] -> s !! key = Some (VList l).
Proof.
  unfold list_at. intros H Hl. destruct (s !! key) as [v|]; [|congruence].
  destruct v; congruence.
Qed.

Lemma redis_call_lindex_at (key : string) (i : Z) (s : store) (l : list string) :
  list_at s key = Some l ->
  Lua.redis_call [Lua.Str "LINDEX"; Lua.Str key; Lua.Num i] s =
    Lua.Ret (Lua.of_reply (bulk_reply (at_index l i))) s.
Proof.
  intros H. unfold list_at in H. destruct (s !! key) as [v|] eqn:E.
  - destruct v; try discriminate. injection H as ->. apply redis_call_lindex, E.
  - injection H as <-. unfold Lua.redis_call. cbn [Lua.arg_strings Lua.arg_string].
    rewrite (command_lindex_absent key i s E), at_index_nil. reflexivity.
Qed.

(** The loop of the contains script from the read of an index on. *)
Lemma contains_loop_eq (key p : string) (l : list string) (s : store) (rest : list string) :
  forall (pre : list string) (n : nat),
  list_at s key = Some l -> l = (pre ++ rest)%list -> (length rest <= n)%nat ->
  ListScripts.contains_loop n (Lua.Str key) (Lua.Str p) (Z.of_nat (length pre))
    (Lua.of_reply (bulk_reply (l !! length pre))) s =
    Lua.Ret (Lua.Bool (bool_decide (p ∈ rest))) s.
Proof.
  induction rest as [|x rest IH]; intros pre n Hs Hl Hn.
  - rewrite Hl, app_nil_r, lookup_ge_None_2 by lia. destruct n; reflexivity.
  - assert (Hx : l !! length pre = Some x).
    { rewrite Hl. apply list_lookup_middle. reflexivity. }
    destruct n as [|n]; [simpl in Hn; lia|].
    rewrite Hx. cbn [bulk_reply Lua.of_reply ListScripts.contains_loop Lua.truthy
                       ListScripts.value_eqb].
    destruct (String.eqb_spec x p) as [->|Hne].
    + rewrite bool_decide_eq_true_2 by left. reflexivity.
    + unfold Lua.bind.
      replace (Z.of_nat (length pre) + 1) with (Z.of_nat (length (pre ++ [x])%list))
        by (rewrite length_app; simpl; lia).
      rewrite (redis_call_lindex_at key _ s l Hs), at_index_nat.
      rewrite (IH (pre ++ [x])%list n Hs) by
        (first [rewrite <- app_assoc; exact Hl | simpl in Hn; lia]).
      f_equal. f_equal. apply bool_decide_ext. rewrite elem_of_cons. split; [auto|].
      intros [E|E]; [congruence | exact E].
Qed.

Lemma contains_script_eq (key p : string) (l : list string) (s : store) (fuel : nat) :
  list_at s key = Some l -> (length l <= fuel)%nat ->
  ListScripts.contains_script [Lua.Str key] [Lua.Str p] fuel s =
    Lua.Ret (Lua.Bool (bool_decide (p ∈ l))) s.
Proof.
  intros Hs Hf. unfold ListScripts.contains_script. cbn [Lua.index lookup list_lookup].
  unfold Lua.bind. rewrite (redis_call_lindex_at key 0 s l Hs).
  change (at_index l 0) with (at_index l (Z.of_nat 0)). rewrite (at_index_nat l 0).
  exact (contains_loop_eq key p l s l [] fuel Hs eq_refl Hf).
Qed.

Section Codec.
Context {pyval : Type}.
Variable json_dumps : pyval -> option string.
Variable json_loads : string -> option pyval.
Variable wrap : Core.item (pyval := pyval) -> Z -> Core.item (pyval := pyval).

(** X12.  [item in l] on a stored list (or a key that is not there),
    with fuel for one round per element: the contains script answers
    [1] when the payload [item] encodes to is among the stored
    payloads and nil when it is not, and the key space is as before. *)
Theorem contains_decides (w : world) (key p : string) (i : Core.item) (l : list string)
    (fuel : nat) :
  Script.consistent w "ListContains" ->
  Core.encode json_dumps i = inr p ->
  list_at (db w) key = Some l ->
  (length l <= fuel)%nat ->
  exists w',
    ListPy.__contains__ json_dumps fuel key i w =
      Ret (if bool_decide (p ∈ l) then RInt 1 else RNil) w' /\
    db w' = db w.
Proof.
  intros Hc He Hl Hf. unfold ListPy.__contains__. unfold bind at 1. rewrite He.
  cbn [lift ret]. unfold ListPy._execute_script. unfold bind at 1.
  change (lift (ListPy.get_script "contains") w) with (Ret ListScripts.ListContains w).
  cbn match. rewrite execute_eq.
  change (Resolution.resolved [Script.AStr key; Script.AStr p] ∅
            (Script.keys ListScripts.ListContains ++ Script.args ListScripts.ListContains)%list)
    with (Some [Script.AStr key; Script.AStr p]).
  cbn match. cbn [firstn skipn length Script.keys ListScripts.ListContains].
  rewrite (call_registered ListScripts.ListContains fuel _ _ w Hc).
  unfold Client.evalsha. rewrite db_registered_world.
  cbn [map Script.wire Script.script ListScripts.ListContains Script.name].
  rewrite (contains_script_eq key p l (db w) fuel Hl Hf).
  destruct (bool_decide (p ∈ l)); (eexists; split; [reflexivity|]; reflexivity).
Qed.

(** X13.  [l[i] = v] for an index within the stored list and a value
    the serializer round-trips: the payload of [v] replaces the one at
    that position and no other, and [l[i]] then gives [v] back, wrapped
    with the index. *)
Theorem setitem_getitem (w : world) (key : string) (l : list string) (i : Z) (n : nat)
    (v : pyval) (t : string) :
  db w !! key = Some (VList l) ->
  norm_index (length l) i = Some n ->
  json_dumps v = Some t -> json_loads t = Some v ->
  exists w1 w2,
    ListPy.__setitem__ json_dumps key i (Core.Structure v) w = Ret (RStatus "OK") w1 /\
    db w1 = <[key := VList (<[n := Core.format2 Core.ABSOLUTE_VALUE_PREFIX t]> l)]> (db w) /\
    ListPy.__getitem__ json_loads wrap key i w1 = Ret (wrap (Core.Structure v) i) w2 /\
    db w2 = db w1.
Proof.
  intros Hs Hn Hd Hl.
  unfold ListPy.__setitem__. unfold bind at 1.
  unfold Core.encode, Core._encode_structure_item. rewrite Hd. cbn [lift ret].
  unfold Client.execute_command. cbn [command]. rewrite Hs, of_Z_to_Z, Hn.
  eexists. eexists. split; [reflexivity|]. cbn [db]. split; [reflexivity|].
  erewrite getitem_eq by (unfold list_at; cbn [db]; rewrite lookup_insert_eq; reflexivity).
  unfold at_index. rewrite length_insert, Hn, list_lookup_insert_eq.
  2:{ exact (MoreListFacts.norm_index_lt _ _ _ Hn). }
  unfold bind. unfold Core.decode.
  rewrite is_redis_value_inline, is_structure_value_inline, decode_structure_value_eq.
  change (Str.drop 10 (Core.format2 Core.ABSOLUTE_VALUE_PREFIX t)) with t.
  rewrite Hl. split; reflexivity.
Qed.

(** X14.  [l[i] = v] for an index outside the stored list, or on a key
    that is not there: the server's error comes up as [ResponseError],
    not as the [IndexError] that [l[i]] and [del l[i]] raise, and the
    key space is as before. *)
Theorem setitem_out_of_range (w : world) (key p : string) (i : Z) (x : Core.item) :
  Core.encode json_dumps x = inr p ->
  (match db w !! key with
   | Some (VList l) => norm_index (length l) i = None
   | Some _ => False
   | None => True
   end) ->
  exists w' msg,
    ListPy.__setitem__ json_dumps key i x w = Raise (ResponseError msg) w' /\
    msg = match db w !! key with Some _ => ERR_INDEX | None => ERR_NO_KEY end /\
    db w' = db w.
Proof.
  intros He Hk. unfold ListPy.__setitem__. unfold bind at 1. rewrite He. cbn [lift ret].
  unfold Client.execute_command. cbn [command]. rewrite of_Z_to_Z.
  destruct (db w !! key) as [v|].
  - destruct v as [?|l|?|?|?]; try contradiction. rewrite Hk.
    eexists. eexists. split; [reflexivity|]. split; reflexivity.
  - eexists. eexists. split; [reflexivity|]. split; reflexivity.
Qed.

Lemma appends_eq (key : string) (vs : list pyval) (ts : list string) :
  Forall2 (fun v t => json_dumps v = Some t /\ json_loads t = Some v) vs ts ->
  forall (w : world) (l0 : list string),
  list_at (db w) key = Some l0 ->
  exists w1,
    ListMore.appends json_dumps key (map Core.Structure vs) w = Ret tt w1 /\
    list_at (db w1) key =
      Some (l0 ++ map (Core.format2 Core.ABSOLUTE_VALUE_PREFIX) ts)%list /\
    (forall k, k <> key -> db w1 !! k = db w !! k).
Proof.
  induction 1 as [|v t vs ts [Hd _] _ IH]; intros w l0 Hl.
  - exists w. rewrite app_nil_r. split; [reflexivity|]. split; [exact Hl | reflexivity].
  - cbn [map ListMore.appends]. unfold bind at 1.
    rewrite (append_eq json_dumps key (Core.format2 Core.ABSOLUTE_VALUE_PREFIX t) _ w l0)
      by (first [unfold Core.encode, Core._encode_structure_item; rewrite Hd; reflexivity
                | exact Hl]).
    destruct (IH {| db := <[key := VList (l0 ++ [Core.format2 Core.ABSOLUTE_VALUE_PREFIX t])]>
                            (db w);
                    classes := classes w;
                    log := (log w ++ [Command ["RPUSH"; key;
                                               Core.format2 Core.ABSOLUTE_VALUE_PREFIX t]])%list |}
                 (l0 ++ [Core.format2 Core.ABSOLUTE_VALUE_PREFIX t])%list)
      as [w1 [H1 [H2 H3]]].
    { unfold list_at. cbn [db]. rewrite lookup_insert_eq. reflexivity. }
    exists w1. split; [exact H1|]. split.
    + rewrite H2, <- app_assoc. reflexivity.
    + intros k Hk. rewrite (H3 k Hk). cbn [db]. apply lookup_insert_ne. congruence.
Qed.

Lemma yields_inline (s : store) (vs : list pyval) (ts : list string) :
  Forall2 (fun v t => json_dumps v = Some t /\ json_loads t = Some v) vs ts ->
  forall a : nat,
  ListPy.yields json_loads wrap s (Z.of_nat a)
      (map (Core.format2 Core.ABSOLUTE_VALUE_PREFIX) ts) =
    inr (imap (fun j v => wrap (Core.Structure v) (Z.of_nat (a + j))) vs).
Proof.
  induction 1 as [|v t vs ts [_ Hl] _ IH]; intros a; [reflexivity|].
  cbn [map ListPy.yields]. rewrite (decoded_inline json_loads s t v Hl).
  replace (Z.of_nat a + 1) with (Z.of_nat (S a)) by lia. rewrite IH.
  cbn [imap]. rewrite Nat.add_0_r. do 2 f_equal.
  apply imap_ext. intros j x _. cbn. do 2 f_equal. lia.
Qed.

(** X15.  On a key that is not there, appending values the serializer
    round-trips, one [append] each: the stored list holds their inline
    payloads in order and no other key changes, [len] is their number,
    and an iteration yields the values in order, each wrapped with its
    index, leaving the stored list as it is. *)
Theorem append_iter_roundtrip (w : world) (key : string) (vs : list pyval) (ts : list string)
    (fuel : nat) :
  db w !! key = None ->
  Forall2 (fun v t => json_dumps v = Some t /\ json_loads t = Some v) vs ts ->
  (length vs < fuel)%nat ->
  exists w1 w2 w3,
    ListMore.appends json_dumps key (map Core.Structure vs) w = Ret tt w1 /\
    list_at (db w1) key = Some (map (Core.format2 Core.ABSOLUTE_VALUE_PREFIX) ts) /\
    (forall k, k <> key -> db w1 !! k = db w !! k) /\
    ListPy.__len__ key w1 = Ret (RInt (Z.of_nat (length vs))) w2 /\
    ListPy.__iter__ json_loads wrap fuel key w2 =
      Ret (imap (fun j v => wrap (Core.Structure v) (Z.of_nat j)) vs) w3 /\
    db w3 = db w1.
Proof.
  intros Hk Hvs Hf.
  destruct (appends_eq key vs ts Hvs w []) as [w1 [H1 [H2 H3]]].
  { unfold list_at. rewrite Hk. reflexivity. }
  cbn [app] in H2. pose proof (Forall2_length _ _ _ Hvs) as Hlen.
  exists w1, (logged w1 (Command ["LLEN"; key])).
  destruct (drain_from json_loads wrap key (map (Core.format2 Core.ABSOLUTE_VALUE_PREFIX) ts) []
              (logged w1 (Command ["LLEN"; key])) fuel ListPy.GenStart)
    as [w3 [k [Hdr [Hdb _]]]].
  { exact H2. }
  { rewrite length_map. lia. }
  { discriminate. }
  { reflexivity. }
  exists w3. split; [exact H1|]. split; [exact H2|]. split; [exact H3|]. split.
  - unfold ListPy.__len__, Client.execute_command. cbn [command].
    unfold list_at in H2. destruct (db w1 !! key) as [x|].
    + destruct x; try discriminate. injection H2 as ->.
      rewrite length_map, Hlen. reflexivity.
    + injection H2 as H2. destruct ts; [|discriminate].
      destruct vs; [reflexivity | discriminate].
  - split; [|exact Hdb]. unfold ListPy.__iter__. rewrite Hdr.
    change (Z.of_nat (length (@nil string))) with (Z.of_nat 0).
    cbn [db logged]. rewrite (yields_inline (db w1) vs ts Hvs 0). reflexivity.
Qed.

(** X16.  [extend] spreads the payloads into the push and leaves the
    handle's key out: with two payloads or more, those after the first
    are pushed onto the list named by the first payload, and the
    handle's own list is as before; with one payload the server rejects
    the push for its argument count; with none the call itself fails;
    an item that does not encode raises before anything is sent. *)
Theorem extend_misplaces (w : world) (key : string) (items : list Core.item) :
  match ListMore.encode_all json_dumps items with
  | inl e => ListMore.extend json_dumps key items w = Raise e w
  | inr [] => ListMore.extend json_dumps key items w = Raise TypeError w
  | inr [p] =>
      exists w', ListMore.extend json_dumps key items w = Raise (ResponseError ERR_ARITY) w' /\
                 db w' = db w
  | inr (p :: q :: ps) =>
      forall l0, list_at (db w) p = Some l0 ->
      exists w', ListMore.extend json_dumps key items w = Ret tt w' /\
                 db w' = <[p := VList (l0 ++ q :: ps)]> (db w) /\
                 (key <> p -> db w' !! key = db w !! key)
  end.
Proof.
  unfold ListMore.extend.
  destruct (ListMore.encode_all json_dumps items) as [e|[|p [|q ps]]];
    cbv [lift ret raise bind Client.rpush Client.execute_command].
  - reflexivity.
  - reflexivity.
  - cbn [command]. eexists. split; reflexivity.
  - intros l0 Hl. cbn [command].
    unfold list_at in Hl. destruct (db w !! p) as [x|] eqn:E.
    + destruct x; try discriminate. injection Hl as ->.
      eexists. split; [reflexivity|]. cbn [db]. split; [reflexivity|].
      intros Hne. apply lookup_insert_ne. congruence.
    + injection Hl as <-.
      eexists. split; [reflexivity|]. cbn [db]. split; [reflexivity|].
      intros Hne. apply lookup_insert_ne. congruence.
Qed.

End Codec.

(** X12 at a stored list of two integers and the integer [2]. *)
Lemma contains_decides_witness :
  exists w',
    ListPy.__contains__ IntJson.dumps 2 "L" (Core.Structure 2)
        (Script.fresh (<["L" := VList ["redis:abs:1"; "redis:abs:2"]]> ∅)) =
      Ret (RInt 1) w' /\
    db w' = <["L" := VList ["redis:abs:1"; "redis:abs:2"]]> ∅.
Proof.
  refine (contains_decides IntJson.dumps
            (Script.fresh (<["L" := VList ["redis:abs:1"; "redis:abs:2"]]> ∅))
            "L" "redis:abs:2" (Core.Structure 2) ["redis:abs:1"; "redis:abs:2"] 2 _ _ _ _).
  - intros Hr. discriminate Hr.
  - reflexivity.
  - reflexivity.
  - simpl. lia.
Defined.

(** X13 at the last position of a list of two, given as [-1]. *)
Lemma setitem_getitem_witness :
  let w := Script.fresh (<["L" := VList ["redis:abs:1"; "redis:abs:2"]]> ∅) in
  exists w1 w2,
    ListPy.__setitem__ IntJson.dumps "L" (-1) (Core.Structure 7) w = Ret (RStatus "OK") w1 /\
    db w1 = <["L" := VList (<[1%nat := "redis:abs:7"]> ["redis:abs:1"; "redis:abs:2"])]> (db w) /\
    ListPy.__getitem__ IntJson.loads IntJson.wrap "L" (-1) w1 =
      Ret (IntJson.wrap (Core.Structure 7) (-1)) w2 /\
    db w2 = db w1.
Proof.
  cbv zeta.
  exact (setitem_getitem IntJson.dumps IntJson.loads IntJson.wrap
           (Script.fresh (<["L" := VList ["redis:abs:1"; "redis:abs:2"]]> ∅))
           "L" ["redis:abs:1"; "redis:abs:2"] (-1) 1 7 "7" eq_refl eq_refl eq_refl eq_refl).
Defined.

(** X14 at index [2] of a list of two. *)
Lemma setitem_out_of_range_witness :
  let w := Script.fresh (<["L" := VList ["redis:abs:1"; "redis:abs:2"]]> ∅) in
  exists w' msg,
    ListPy.__setitem__ IntJson.dumps "L" 2 (Core.Structure 7) w = Raise (ResponseError msg) w' /\
    msg = ERR_INDEX /\
    db w' = db w.
Proof.
  cbv zeta.
  exact (setitem_out_of_range IntJson.dumps
           (Script.fresh (<["L" := VList ["redis:abs:1"; "redis:abs:2"]]> ∅))
           "L" "redis:abs:7" 2 (Core.Structure 7) eq_refl eq_refl).
Defined.

(** X15 at three integers appended to a fresh list. *)
Lemma append_iter_roundtrip_witness :
  exists w1 w2 w3,
    ListMore.appends IntJson.dumps "L" (map Core.Structure [5; 6; 7]) (Script.fresh ∅) =
      Ret tt w1 /\
    list_at (db w1) "L" = Some ["redis:abs:5"; "redis:abs:6"; "redis:abs:7"] /\
    (forall k, k <> "L" -> db w1 !! k = (∅ : store) !! k) /\
    ListPy.__len__ "L" w1 = Ret (RInt 3) w2 /\
    ListPy.__iter__ IntJson.loads IntJson.wrap 4 "L" w2 =
      Ret [Core.Structure 5; Core.Structure 6; Core.Structure 7] w3 /\
    db w3 = db w1.
Proof.
  refine (append_iter_roundtrip IntJson.dumps IntJson.loads IntJson.wrap (Script.fresh ∅)
            "L" [5; 6; 7] ["5"; "6"; "7"] 4 _ _ _).
  - reflexivity.
  - repeat constructor.
  - simpl. lia.
Defined.

End ListMoreFacts.
(** ** The encoder: what [decode] leaves alone, and sorted sets *)

Module CodecMoreFacts.
Import Redis Py Core StrFacts CoreFacts.

Section Codec.

Context {pyval : Type}.
Variable json_dumps : pyval -> option string.
Variable json_loads : string -> option pyval.

(** X17.  [decode] only reads.  Whether it returns or raises, it comes
    back with the key space and the script classes as they were, having
    sent the one [TYPE] lookup of the named key for a payload with the
    reference tag and nothing for any other payload. *)
Theorem decode_read_only (value : string) (w : world) :
  exists w',
    world_of (decode json_loads value w) = Some w' /\
    db w' = db w /\ classes w' = classes w /\
    log w' = (log w ++ (if _is_redis_value value
                        then [Command ["TYPE"; Str.drop 13 value]] else []))%list.
Proof.
  unfold decode. destruct (_is_redis_value value).
  - rewrite decode_redis_value_eq. cbn zeta.
    destruct (String.eqb _ _).
    + eexists. split; [reflexivity|]. repeat split.
    + destruct (Handle.get_handler _); (eexists; split; [reflexivity|]; repeat split).
  - destruct (_is_structure_value value).
    + rewrite decode_structure_value_eq.
      destruct (json_loads _);
        (eexists; split; [reflexivity|]; rewrite app_nil_r; repeat split).
    + eexists. split; [reflexivity|]. rewrite app_nil_r. repeat split.
Qed.

(** X18.  A handle of a sorted set does not come back from its payload:
    [encode] gives the reference payload of its key, and [decode] of it
    raises [DataTypeError] whenever the key holds a sorted set, for the
    server reports [zset] and the class is registered as
    [sorted_set]. *)
Theorem sorted_set_not_decoded (key : string) (z : list (string * Z)) (w : world) :
  db w !! key = Some (VZSet z) ->
  exists p,
    encode json_dumps (Redis (Handle.Make Handle.KSortedSet key)) = inr p /\
    decode json_loads p w = Raise DataTypeError (logged w (Command ["TYPE"; key])).
Proof.
  intros Hk. exists (format2 REDIS_STRUCTURE_PREFIX key). split; [reflexivity|].
  unfold decode.
  rewrite is_redis_value_reference, decode_redis_value_eq.
  change (Str.drop 13 (format2 REDIS_STRUCTURE_PREFIX key)) with key.
  cbn zeta. unfold type_of. rewrite Hk. reflexivity.
Qed.

End Codec.

(** X18 at a sorted set of one member. *)
Lemma sorted_set_not_decoded_witness :
  exists p,
    encode IntJson.dumps (Redis (Handle.Make Handle.KSortedSet "Z")) = inr p /\
    decode IntJson.loads p (Script.fresh (<["Z" := VZSet [("m", 1)]]> ∅)) =
      Raise DataTypeError
        (logged (Script.fresh (<["Z" := VZSet [("m", 1)]]> ∅)) (Command ["TYPE"; "Z"])).
Proof.
  exact (sorted_set_not_decoded IntJson.dumps IntJson.loads "Z" [("m", 1)]
           (Script.fresh (<["Z" := VZSet [("m", 1)]]> ∅)) eq_refl).
Defined.

End CodecMoreFacts.
(** ** [datatype.py]: hashes, sets and [rename] *)

Module LegacyMoreFacts.
Import Redis Py RedisMore.
Local Open Scope py_scope.

Lemma hget_hset_eq (f v : string) (h : list (string * string)) :
  hget f (hset f v h) = Some v.
Proof.
  induction h as [|[g x] h IH]; cbn [hset hget].
  - rewrite String.eqb_refl. reflexivity.
  - destruct (String.eqb g f) eqn:E; cbn [hget]; rewrite E; [reflexivity | exact IH].
Qed.

Lemma hget_hset_ne (f g v : string) (h : list (string * string)) :
  g <> f -> hget g (hset f v h) = hget g h.
Proof.
  intros Hne. induction h as [|[k x] h IH]; cbn [hset hget].
  - destruct (String.eqb_spec f g); [congruence | reflexivity].
  - destruct (String.eqb_spec k f) as [->|Hk]; cbn [hget].
    + destruct (String.eqb_spec f g); [congruence | reflexivity].
    + destruct (String.eqb k g); [reflexivity | exact IH].
Qed.

Lemma hdel_absent (f : string) (h : list (string * string)) :
  hget f h = None -> hdel f h = h.
Proof.
  induction h as [|[g x] h IH]; [reflexivity|]. cbn [hget hdel List.filter fst].
  destruct (String.eqb g f); [discriminate|]. intros H. cbn [negb].
  f_equal. apply IH, H.
Qed.

Lemma sismember_spec (x : string) (l : list string) : sismember x l = true <-> x ∈ l.
Proof.
  unfold sismember. rewrite existsb_exists, list_elem_of_In. split.
  - intros [y [Hy E]]. apply String.eqb_eq in E. subst y. exact Hy.
  - intros H. exists x. split; [exact H | apply String.eqb_refl].
Qed.

Lemma sismember_false (x : string) (l : list string) : sismember x l = false <-> x ∉ l.
Proof.
  rewrite <- sismember_spec. destruct (sismember x l); split; congruence.
Qed.

Lemma elem_of_sadd (x m : string) (l : list string) : x ∈ sadd m l <-> x = m \/ x ∈ l.
Proof.
  unfold sadd. destruct (sismember m l) eqn:E.
  - apply sismember_spec in E. split; [auto|]. intros [->|H]; assumption.
  - rewrite elem_of_app, list_elem_of_singleton. tauto.
Qed.

Lemma elem_of_srem (x m : string) (l : list string) : x ∈ srem m l <-> x ∈ l /\ x <> m.
Proof.
  unfold srem. rewrite !list_elem_of_In, filter_In, negb_true_iff.
  split; intros [H1 H2]; (split; [exact H1|]).
  - intros ->. rewrite String.eqb_refl in H2. discriminate.
  - apply String.eqb_neq, H2.
Qed.

Lemma srem_absent (m : string) (l : list string) : m ∉ l -> srem m l = l.
Proof.
  induction l as [|x l IH]; [reflexivity|]. intros H. cbn [srem List.filter].
  destruct (String.eqb_spec x m) as [->|Hne]; [exfalso; apply H; left|].
  cbn [negb]. f_equal. apply IH. intros Hin. apply H. right. exact Hin.
Qed.

Lemma elem_of_fold_sadd (x : string) (l acc : list string) :
  x ∈ fold_left (fun a y => sadd y a) l acc <-> x ∈ acc \/ x ∈ l.
Proof.
  revert acc. induction l as [|y l IH]; intros acc; cbn [fold_left].
  - rewrite elem_of_nil. tauto.
  - rewrite IH, elem_of_sadd, elem_of_cons. tauto.
Qed.

Lemma elem_of_sunion2 (x : string) (a b : list string) :
  x ∈ sunion [a; b] <-> x ∈ a \/ x ∈ b.
Proof.
  unfold sunion. cbn [fold_left]. rewrite !elem_of_fold_sadd, elem_of_nil. tauto.
Qed.

Lemma elem_of_sinter2 (x : string) (a b : list string) :
  x ∈ sinter [a; b] <-> x ∈ a /\ x ∈ b.
Proof.
  unfold sinter. rewrite list_elem_of_In, filter_In, <- list_elem_of_In. cbn [forallb].
  rewrite andb_true_r, sismember_spec. tauto.
Qed.

Lemma elem_of_sdiff2 (x : string) (a b : list string) :
  x ∈ sdiff [a; b] <-> x ∈ a /\ x ∉ b.
Proof.
  unfold sdiff. rewrite list_elem_of_In, filter_In, <- list_elem_of_In. cbn [existsb].
  rewrite orb_false_r, negb_true_iff, sismember_false. tauto.
Qed.

Lemma hash_at_insert (s : store) (key : string) (h : list (string * string)) :
  hash_at (<[key := VHash h]> s) key = Some h.
Proof. unfold hash_at. rewrite lookup_insert_eq. reflexivity. Qed.

Lemma set_at_insert (s : store) (key : string) (m : list string) :
  set_at (<[key := VSet m]> s) key = Some m.
Proof. unfold set_at. rewrite lookup_insert_eq. reflexivity. Qed.

Lemma set_at_put_set (s : store) (key : string) (m : list string) :
  set_at (put_set key m s) key = Some m.
Proof.
  unfold set_at, put_set. destruct m.
  - rewrite lookup_delete_eq. reflexivity.
  - rewrite lookup_insert_eq. reflexivity.
Qed.

Lemma put_set_ne (s : store) (key k : string) (m : list string) :
  k <> key -> put_set key m s !! k = s !! k.
Proof.
  intros H. unfold put_set. destruct m.
  - apply lookup_delete_ne. congruence.
  - apply lookup_insert_ne. congruence.
Qed.

Lemma hget_eq (key f : string) (h : list (string * string)) (w : world) :
  hash_at (db w) key = Some h ->
  ClientMore.hget key f w = Ret (hget f h) (logged w (Command ["HGET"; key; f])).
Proof.
  intros H. unfold ClientMore.hget, bind, ClientMore.execute_command.
  cbn [RedisMore.command]. rewrite H. destruct (hget f h); reflexivity.
Qed.

Lemma hexists_eq (key f : string) (h : list (string * string)) (w : world) :
  hash_at (db w) key = Some h ->
  ClientMore.hexists key f w = Ret (hexists f h) (logged w (Command ["HEXISTS"; key; f])).
Proof.
  intros H. unfold ClientMore.hexists, bind, ClientMore.execute_command.
  cbn [RedisMore.command]. rewrite H. destruct (hexists f h); reflexivity.
Qed.

Lemma sismember_eq (key x : string) (m : list string) (w : world) :
  set_at (db w) key = Some m ->
  ClientMore.sismember key x w =
    Ret (sismember x m) (logged w (Command ["SISMEMBER"; key; x])).
Proof.
  intros H. unfold ClientMore.sismember, bind, ClientMore.execute_command.
  cbn [RedisMore.command]. rewrite H. destruct (sismember x m); reflexivity.
Qed.

(** X20.  [h[f] = v] on a stored hash (or a key that is not there)
    writes the field and changes no other key, and a read [h[g]] after
    it gives [v] for the field written and for every other field what
    the hash held before. *)
Theorem hash_setitem_getitem (w : world) (key f v : string) (h : list (string * string)) :
  hash_at (db w) key = Some h ->
  exists w1,
    LegacyHash.__setitem__ key f v w = Ret (RInt (if hexists f h then 0 else 1)) w1 /\
    (forall k, k <> key -> db w1 !! k = db w !! k) /\
    forall g, exists w2,
      LegacyHash.__getitem__ key g w1 =
        Ret (if String.eqb g f then Some v else hget g h) w2 /\
      db w2 = db w1.
Proof.
  intros H.
  set (w1 := {| db := <[key := VHash (hset f v h)]> (db w);
                classes := classes w;
                log := (log w ++ [Command ["HSET"; key; f; v]])%list |}).
  exists w1. split; [|split].
  - unfold LegacyHash.__setitem__, ClientMore.hset, ClientMore.execute_command.
    cbn [RedisMore.command]. rewrite H. destruct (hexists f h); reflexivity.
  - intros k Hk. apply lookup_insert_ne. congruence.
  - intros g. exists (logged w1 (Command ["HGET"; key; g])). split; [|reflexivity].
    unfold LegacyHash.__getitem__.
    rewrite (hget_eq key g (hset f v h)) by apply hash_at_insert.
    destruct (String.eqb_spec g f) as [->|Hne].
    + rewrite hget_hset_eq. reflexivity.
    + rewrite hget_hset_ne by exact Hne. reflexivity.
Qed.

(** X21.  A field the hash does not hold: [h[f]] returns [None] and
    [del h[f]] returns [0], neither raises [KeyError], [f in h] is
    false, and the hash and every other key are as before. *)
Theorem hash_missing_field (w : world) (key f : string) (h : list (string * string)) :
  hash_at (db w) key = Some h ->
  hget f h = None ->
  (exists w', LegacyHash.__getitem__ key f w = Ret None w' /\ db w' = db w) /\
  (exists w', LegacyHash.__contains__ key f w = Ret false w' /\ db w' = db w) /\
  (exists w', LegacyHash.__delitem__ key f w = Ret (RInt 0) w' /\
              hash_at (db w') key = Some h /\
              forall k, k <> key -> db w' !! k = db w !! k).
Proof.
  intros H Hf. split; [|split].
  - unfold LegacyHash.__getitem__. rewrite (hget_eq key f h w H), Hf.
    eexists. split; reflexivity.
  - unfold LegacyHash.__contains__, LegacyHash.has_key. rewrite (hexists_eq key f h w H).
    unfold hexists. rewrite Hf. eexists. split; reflexivity.
  - unfold LegacyHash.__delitem__, ClientMore.hdel, ClientMore.execute_command.
    cbn [RedisMore.command]. rewrite H. cbv beta iota zeta. cbn [fold_left].
    rewrite (hdel_absent f h Hf), Nat.sub_diag.
    eexists. split; [reflexivity|]. cbn [db]. split.
    + unfold hash_at, put_hash. destruct h.
      * rewrite lookup_delete_eq. reflexivity.
      * rewrite lookup_insert_eq. reflexivity.
    + intros k Hk. unfold put_hash. destruct h.
      * apply lookup_delete_ne. congruence.
      * apply lookup_insert_ne. congruence.
Qed.

(** X22.  [Hash.pop] does not take anything out: it returns the stored
    value of the field, or else its default, or else raises [KeyError],
    and in each case the key space is as before. *)
Theorem hash_pop_keeps (w : world) (key f : string) (args : list string)
    (h : list (string * string)) :
  hash_at (db w) key = Some h ->
  exists w',
    LegacyHash.pop key f args w =
      match hget f h, args with
      | Some v, _ => Ret v w'
      | None, a :: _ => Ret a w'
      | None, [] => Raise KeyError w'
      end /\
    db w' = db w.
Proof.
  intros H. unfold LegacyHash.pop, bind. rewrite (hget_eq key f h w H).
  exists (logged w (Command ["HGET"; key; f])). split; [|reflexivity].
  destruct (hget f h); [reflexivity|]. destruct args; reflexivity.
Qed.

(** X23.  [setdefault] on a field the hash holds returns the stored
    value and writes nothing; on a field it does not hold it writes the
    default and returns it. *)
Theorem hash_setdefault (w : world) (key f d : string) (h : list (string * string)) :
  hash_at (db w) key = Some h ->
  exists w',
    LegacyHash.setdefault key f d w = Ret (Some (default d (hget f h))) w' /\
    db w' = match hget f h with
            | Some _ => db w
            | None => <[key := VHash (hset f d h)]> (db w)
            end.
Proof.
  intros H. unfold LegacyHash.setdefault. unfold bind at 1.
  rewrite (hexists_eq key f h w H). unfold hexists.
  destruct (hget f h) as [v|] eqn:E.
  - rewrite (hget_eq key f h) by exact H. rewrite E.
    eexists. split; reflexivity.
  - unfold bind, ClientMore.hset, ClientMore.execute_command.
    cbn [RedisMore.command].
    change (db (logged w (Command ["HEXISTS"; key; f]))) with (db w).
    rewrite H. cbv beta iota. unfold hexists.
    eexists. split; reflexivity.
Qed.

(** X24.  [remove] takes a member out of the set and raises [KeyError]
    for an item that is not a member, leaving the key space as it was;
    [discard] takes the item out if it is there and does not raise. *)
Theorem set_remove_discard (w : world) (key item : string) (m : list string) :
  set_at (db w) key = Some m ->
  (if sismember item m
   then exists w', LegacySet.remove key item w = Ret tt w' /\
                   set_at (db w') key = Some (srem item m) /\
                   (forall k, k <> key -> db w' !! k = db w !! k)
   else exists w', LegacySet.remove key item w = Raise KeyError w' /\ db w' = db w) /\
  (exists w', LegacySet.discard key item w = Ret tt w' /\
              set_at (db w') key = Some (srem item m) /\
              (forall k, k <> key -> db w' !! k = db w !! k)) /\
  (forall x, x ∈ srem item m <-> x ∈ m /\ x <> item).
Proof.
  intros H. split; [|split; [|intros x; apply elem_of_srem]].
  - destruct (sismember item m) eqn:E;
      unfold LegacySet.remove, LegacySet.__contains__; unfold bind at 1;
      rewrite (sismember_eq key item m w H), E.
    + unfold bind, ClientMore.srem, ClientMore.execute_command.
      cbn [RedisMore.command].
      change (db (logged w (Command ["SISMEMBER"; key; item]))) with (db w).
      rewrite H. cbv beta iota zeta. cbn [fold_left].
      eexists. split; [reflexivity|]. cbn [db].
      split; [apply set_at_put_set | intros k Hk; apply put_set_ne, Hk].
    + eexists. split; reflexivity.
  - unfold LegacySet.discard, bind, ClientMore.srem, ClientMore.execute_command.
    cbn [RedisMore.command]. rewrite H. cbv beta iota zeta. cbn [fold_left].
    eexists. split; [reflexivity|]. cbn [db].
    split; [apply set_at_put_set | intros k Hk; apply put_set_ne, Hk].
Qed.

(** X25.  [update(other)] leaves in the set what was in it and every
    item of [other], and changes no other key. *)
Theorem set_update_union (key : string) (other : list string) (w : world) (m : list string) :
  set_at (db w) key = Some m ->
  exists w' m',
    LegacySet.update key other w = Ret tt w' /\
    set_at (db w') key = Some m' /\
    (forall x, x ∈ m' <-> x ∈ m \/ x ∈ other) /\
    (forall k, k <> key -> db w' !! k = db w !! k).
Proof.
  revert w m. induction other as [|item other IH]; intros w m H.
  - exists w, m. split; [reflexivity|]. split; [exact H|]. split; [|reflexivity].
    intros x. rewrite elem_of_nil. tauto.
  - cbn [LegacySet.update]. unfold bind at 1. unfold LegacySet.__contains__.
    rewrite (sismember_eq key item m w H).
    destruct (sismember item m) eqn:E; cbn [negb]; unfold bind at 1.
    + destruct (IH (logged w (Command ["SISMEMBER"; key; item])) m H)
        as (w' & m' & H1 & H2 & H3 & H4).
      exists w', m'. split; [exact H1|]. split; [exact H2|]. split; [|exact H4].
      intros x. rewrite H3, elem_of_cons. apply sismember_spec in E.
      split; [tauto|]. intros [Hx|[->|Hx]]; auto.
    + unfold LegacySet.add, bind, ClientMore.sadd, ClientMore.execute_command.
      cbn [RedisMore.command].
      change (db (logged w (Command ["SISMEMBER"; key; item]))) with (db w).
      rewrite H. cbv beta iota zeta. cbn [fold_left]. unfold ret at 1. cbv beta iota.
      match goal with |- context [LegacySet.update key other ?w1] =>
        destruct (IH w1 (sadd item m)) as (w' & m' & H1 & H2 & H3 & H4)
      end.
      { cbn [db]. apply set_at_insert. }
      exists w', m'. split; [exact H1|]. split; [exact H2|]. split.
      * intros x. rewrite H3, elem_of_sadd, elem_of_cons. tauto.
      * intros k Hk. rewrite (H4 k Hk). cbn [db]. apply lookup_insert_ne. congruence.
Qed.

(** X26.  [union], [intersection] and [difference] of two stored sets
    leave their result under the new key, replacing what that key
    held, return a set handle bound to it and change no other key: in
    the result is what is in either set, in both, or in the first and
    not in the second. *)
Theorem set_algebra (w : world) (key other newkey : string) (a b : list string) :
  set_at (db w) key = Some a ->
  set_at (db w) other = Some b ->
  let h := Handle.Make Handle.KSet newkey in
  (exists w' r, LegacySet.union key other newkey w = Ret h w' /\
                set_at (db w') newkey = Some r /\
                (forall x, x ∈ r <-> x ∈ a \/ x ∈ b) /\
                (forall k, k <> newkey -> db w' !! k = db w !! k)) /\
  (exists w' r, LegacySet.intersection key other newkey w = Ret h w' /\
                set_at (db w') newkey = Some r /\
                (forall x, x ∈ r <-> x ∈ a /\ x ∈ b) /\
                (forall k, k <> newkey -> db w' !! k = db w !! k)) /\
  (exists w' r, LegacySet.difference key other newkey w = Ret h w' /\
                set_at (db w') newkey = Some r /\
                (forall x, x ∈ r <-> x ∈ a /\ x ∉ b) /\
                (forall k, k <> newkey -> db w' !! k = db w !! k)).
Proof.
  intros Ha Hb h. split; [|split].
  - unfold LegacySet.union, bind, ClientMore.sunionstore, ClientMore.execute_command.
    cbn [RedisMore.command]. unfold store_set. cbn [sets_at]. rewrite Ha, Hb.
    eexists. exists (sunion [a; b]). split; [reflexivity|]. cbn [db].
    split; [apply set_at_put_set|]. split; [intros x; apply elem_of_sunion2|].
    intros k Hk. apply put_set_ne, Hk.
  - unfold LegacySet.intersection, bind, ClientMore.sinterstore, ClientMore.execute_command.
    cbn [RedisMore.command]. unfold store_set. cbn [sets_at]. rewrite Ha, Hb.
    eexists. exists (sinter [a; b]). split; [reflexivity|]. cbn [db].
    split; [apply set_at_put_set|]. split; [intros x; apply elem_of_sinter2|].
    intros k Hk. apply put_set_ne, Hk.
  - unfold LegacySet.difference, bind, ClientMore.sdiffstore, ClientMore.execute_command.
    cbn [RedisMore.command]. unfold store_set. cbn [sets_at]. rewrite Ha, Hb.
    eexists. exists (sdiff [a; b]). split; [reflexivity|]. cbn [db].
    split; [apply set_at_put_set|]. split; [intros x; apply elem_of_sdiff2|].
    intros k Hk. apply put_set_ne, Hk.
Qed.

(** X27.  [issuperset(other)] answers whether every item of [other] is
    a member, and only reads. *)
Theorem set_issuperset (key : string) (other : list string) (w : world) (m : list string) :
  set_at (db w) key = Some m ->
  exists w' r,
    LegacySet.issuperset key other w = Ret r w' /\
    (r = true <-> forall x, x ∈ other -> x ∈ m) /\
    db w' = db w.
Proof.
  revert w. induction other as [|item other IH]; intros w H.
  - exists w, true. split; [reflexivity|]. split; [|reflexivity].
    split; [|reflexivity]. intros _ x Hx. inversion Hx.
  - cbn [LegacySet.issuperset]. unfold bind at 1. unfold LegacySet.__contains__.
    rewrite (sismember_eq key item m w H).
    destruct (sismember item m) eqn:E; cbn [negb].
    + destruct (IH (logged w (Command ["SISMEMBER"; key; item])) H) as (w' & r & H1 & H2 & H3).
      exists w', r. split; [exact H1|]. split; [|exact H3].
      rewrite H2. apply sismember_spec in E. split.
      * intros Hall x Hx. apply elem_of_cons in Hx. destruct Hx as [->|Hx]; auto.
      * intros Hall x Hx. apply Hall. right. exact Hx.
    + eexists. exists false. split; [reflexivity|]. split; [|reflexivity].
      split; [discriminate|]. intros Hall. apply sismember_false in E.
      exfalso. apply E, Hall. left.
Qed.

Lemma strings_keys (h : list (string * string)) :
  ClientMore.strings (RMulti (map (fun fv => RBulk (fst fv)) h)) = map fst h.
Proof.
  unfold ClientMore.strings. induction h as [|[f v] h IH]; [reflexivity|].
  cbn [map omap list_omap Client.bulk fst]. cbn [map omap list_omap] in IH.
  rewrite IH. reflexivity.
Qed.

Lemma hget_NoDup (h : list (string * string)) :
  NoDup (map fst h) -> Forall (fun fv => hget (fst fv) h = Some (snd fv)) h.
Proof.
  induction h as [|[f v] h IH]; intros Hnd; [constructor|].
  cbn [map fst] in Hnd. apply NoDup_cons in Hnd. destruct Hnd as [Hf Hnd].
  constructor.
  - cbn [hget fst snd]. rewrite String.eqb_refl. reflexivity.
  - specialize (IH Hnd). rewrite Forall_forall in IH |- *. intros [g x] Hin.
    cbn [hget fst snd]. destruct (String.eqb_spec f g) as [->|Hne].
    + exfalso. apply Hf. apply list_elem_of_fmap. exists (g, x). split; [reflexivity | exact Hin].
    + apply (IH (g, x) Hin).
Qed.

Lemma items_loop_eq (key : string) (h rest : list (string * string)) :
  Forall (fun fv => hget (fst fv) h = Some (snd fv)) rest ->
  forall w, hash_at (db w) key = Some h ->
  exists w',
    LegacyHash.items_loop key (map fst rest) w =
      Ret (map (fun fv => (fst fv, Some (snd fv))) rest) w' /\
    db w' = db w /\
    length (log w') = (length (log w) + length rest)%nat.
Proof.
  induction 1 as [|[f v] rest Hf _ IH]; intros w H.
  - exists w. split; [reflexivity|]. split; [reflexivity|]. cbn [length]. lia.
  - cbn [map fst LegacyHash.items_loop]. unfold bind at 1.
    rewrite (hget_eq key f h w H). cbn [fst snd] in Hf. rewrite Hf.
    destruct (IH (logged w (Command ["HGET"; key; f])) H) as (w' & H1 & H2 & H3).
    exists w'. unfold bind at 1. rewrite H1. split; [reflexivity|].
    split; [exact H2|]. rewrite H3. cbn [logged log length].
    rewrite length_app. cbn [length]. lia.
Qed.

(** X30.  [items()] on a stored hash makes one round trip for the field
    names and one more for each field, returns every field paired with
    its value, in the order the server lists the fields, and changes
    nothing. *)
Theorem hash_items (w : world) (key : string) (h : list (string * string)) :
  hash_at (db w) key = Some h ->
  NoDup (map fst h) ->
  exists w',
    LegacyHash.items key w = Ret (map (fun fv => (fst fv, Some (snd fv))) h) w' /\
    db w' = db w /\
    length (log w') = (length (log w) + 1 + length h)%nat.
Proof.
  intros H Hnd. unfold LegacyHash.items. unfold bind at 1.
  unfold ClientMore.hkeys, bind, ClientMore.execute_command.
  cbn [RedisMore.command]. rewrite H. cbv beta iota. unfold ret at 1.
  rewrite strings_keys.
  match goal with |- context [LegacyHash.items_loop key (map fst h) ?w1] =>
    destruct (items_loop_eq key h h (hget_NoDup h Hnd) w1 H) as (w' & H1 & H2 & H3)
  end.
  exists w'. split; [exact H1|]. split; [exact H2|].
  rewrite H3. cbn [log]. rewrite length_app. cbn [length]. lia.
Qed.

Section Pick.

Variable pick : list string -> nat.

(** X28.  Iterating a set that holds a member: the first [next()] yields
    a member and changes nothing; the second raises [ResponseError],
    for the generator resumes with [srem(item)], a removal that names
    the item as the key and no member, which the server rejects for its
    argument count.  Nothing is removed. *)
Theorem set_iter_raises (w : world) (key : string) (m : list string) :
  set_at (db w) key = Some m ->
  m <> [] ->
  exists x w1 w2,
    LegacySet.next pick key LegacySet.GenStart w = Ret (Some x, LegacySet.GenAt x) w1 /\
    x ∈ m /\
    db w1 = db w /\
    LegacySet.next pick key (LegacySet.GenAt x) w1 = Raise (ResponseError ERR_ARITY) w2 /\
    db w2 = db w.
Proof.
  intros H Hm.
  assert (Hlt : (pick m mod length m < length m)%nat).
  { apply Nat.mod_upper_bound. destruct m; [congruence | discriminate]. }
  destruct (lookup_lt_is_Some_2 m _ Hlt) as [x Hx].
  exists x. cbn [LegacySet.next]. unfold LegacySet.fetch. unfold bind at 1.
  unfold ClientMore.srandmember at 1. rewrite H, Hx.
  eexists. eexists. split; [reflexivity|].
  split; [eapply list_elem_of_lookup_2; exact Hx|]. split; [reflexivity|].
  unfold bind, ClientMore.srem, ClientMore.execute_command.
  cbn [RedisMore.command]. split; reflexivity.
Qed.

End Pick.

(** X29.  [rename] to another key binds the handle to the new key
    before the command goes out.  Where the old key holds a value, the
    value moves to the new key, replacing what that held, and the old
    key is gone; where it holds none the server refuses,
    [ResponseError] is raised and the key space is as before, yet the
    handle is bound to the new key.  (Servers differ on renaming a key
    onto itself, so the two keys are taken to differ.) *)
Theorem rename_rebinds (w : world) (self : Handle.t) (key : option string) (unique : string) :
  let new := LegacyData.key_or key unique in
  let old := Handle.key self in
  new <> old ->
  fst (LegacyData.rename self key unique) = Handle.Make (Handle.cls self) new /\
  exists w',
    snd (LegacyData.rename self key unique) w =
      match db w !! old with
      | Some _ => Ret new w'
      | None => Raise (ResponseError ERR_NO_KEY) w'
      end /\
    db w' = match db w !! old with
            | Some v => <[new := v]> (delete old (db w))
            | None => db w
            end.
Proof.
  intros new old Hne. split; [reflexivity|].
  unfold LegacyData.rename. cbn [snd Handle.key]. fold new old.
  unfold bind, ClientMore.rename, ClientMore.execute_command. cbn [RedisMore.command].
  destruct (db w !! old); (eexists; split; reflexivity).
Qed.

(** X20 at a hash of one field: a second field is written. *)
Lemma hash_setitem_getitem_witness :
  let w := Script.fresh (<["H" := VHash [("a", "1")]]> ∅) in
  exists w1,
    LegacyHash.__setitem__ "H" "b" "2" w = Ret (RInt 1) w1 /\
    (forall k, k <> "H" -> db w1 !! k = db w !! k) /\
    forall g, exists w2,
      LegacyHash.__getitem__ "H" g w1 =
        Ret (if String.eqb g "b" then Some "2" else hget g [("a", "1")]) w2 /\
      db w2 = db w1.
Proof.
  cbv zeta.
  exact (hash_setitem_getitem (Script.fresh (<["H" := VHash [("a", "1")]]> ∅))
           "H" "b" "2" [("a", "1")] eq_refl).
Defined.

(** X21 at a hash of one field and another field. *)
Lemma hash_missing_field_witness :
  let w := Script.fresh (<["H" := VHash [("a", "1")]]> ∅) in
  (exists w', LegacyHash.__getitem__ "H" "b" w = Ret None w' /\ db w' = db w) /\
  (exists w', LegacyHash.__contains__ "H" "b" w = Ret false w' /\ db w' = db w) /\
  (exists w', LegacyHash.__delitem__ "H" "b" w = Ret (RInt 0) w' /\
              hash_at (db w') "H" = Some [("a", "1")] /\
              forall k, k <> "H" -> db w' !! k = db w !! k).
Proof.
  cbv zeta.
  exact (hash_missing_field (Script.fresh (<["H" := VHash [("a", "1")]]> ∅))
           "H" "b" [("a", "1")] eq_refl eq_refl).
Defined.

(** X22 at a field the hash holds. *)
Lemma hash_pop_keeps_witness :
  let w := Script.fresh (<["H" := VHash [("a", "1")]]> ∅) in
  exists w', LegacyHash.pop "H" "a" [] w = Ret "1" w' /\ db w' = db w.
Proof.
  cbv zeta.
  exact (hash_pop_keeps (Script.fresh (<["H" := VHash [("a", "1")]]> ∅))
           "H" "a" [] [("a", "1")] eq_refl).
Defined.

(** X23 at a field the hash does not hold. *)
Lemma hash_setdefault_witness :
  let w := Script.fresh (<["H" := VHash [("a", "1")]]> ∅) in
  exists w',
    LegacyHash.setdefault "H" "b" "2" w = Ret (Some "2") w' /\
    db w' = <["H" := VHash [("a", "1"); ("b", "2")]]> (db w).
Proof.
  cbv zeta.
  exact (hash_setdefault (Script.fresh (<["H" := VHash [("a", "1")]]> ∅))
           "H" "b" "2" [("a", "1")] eq_refl).
Defined.

(** X30 at a hash of two fields. *)
Lemma hash_items_witness :
  let w := Script.fresh (<["H" := VHash [("a", "1"); ("b", "2")]]> ∅) in
  exists w',
    LegacyHash.items "H" w = Ret [("a", Some "1"); ("b", Some "2")] w' /\
    db w' = db w /\
    length (log w') = 3%nat.
Proof.
  cbv zeta.
  refine (hash_items (Script.fresh (<["H" := VHash [("a", "1"); ("b", "2")]]> ∅))
            "H" [("a", "1"); ("b", "2")] eq_refl _).
  apply NoDup_cons. split; [|apply NoDup_cons; split; [|apply NoDup_nil; exact I]].
  - intros Hin. apply list_elem_of_singleton in Hin. discriminate Hin.
  - intros Hin. inversion Hin.
Defined.

(** X24 at a set of two and an item that is not in it. *)
Lemma set_remove_discard_witness :
  let w := Script.fresh (<["S" := VSet ["a"; "b"]]> ∅) in
  (exists w', LegacySet.remove "S" "c" w = Raise KeyError w' /\ db w' = db w) /\
  (exists w', LegacySet.discard "S" "c" w = Ret tt w' /\
              set_at (db w') "S" = Some (srem "c" ["a"; "b"]) /\
              (forall k, k <> "S" -> db w' !! k = db w !! k)) /\
  (forall x, x ∈ srem "c" ["a"; "b"] <-> x ∈ ["a"; "b"] /\ x <> "c").
Proof.
  cbv zeta.
  exact (set_remove_discard (Script.fresh (<["S" := VSet ["a"; "b"]]> ∅))
           "S" "c" ["a"; "b"] eq_refl).
Defined.

(** X25 at a set of two, updated with one member and one new item. *)
Lemma set_update_union_witness :
  let w := Script.fresh (<["S" := VSet ["a"; "b"]]> ∅) in
  exists w' m',
    LegacySet.update "S" ["b"; "c"] w = Ret tt w' /\
    set_at (db w') "S" = Some m' /\
    (forall x, x ∈ m' <-> x ∈ ["a"; "b"] \/ x ∈ ["b"; "c"]) /\
    (forall k, k <> "S" -> db w' !! k = db w !! k).
Proof.
  cbv zeta.
  exact (set_update_union "S" ["b"; "c"] (Script.fresh (<["S" := VSet ["a"; "b"]]> ∅))
           ["a"; "b"] eq_refl).
Defined.

(** X26 at two sets that share a member. *)
Lemma set_algebra_witness :
  let w := Script.fresh (<["S" := VSet ["a"; "b"]]> (<["T" := VSet ["b"; "c"]]> ∅)) in
  exists w' r, LegacySet.difference "S" "T" "N" w = Ret (Handle.Make Handle.KSet "N") w' /\
               set_at (db w') "N" = Some r /\
               (forall x, x ∈ r <-> x ∈ ["a"; "b"] /\ x ∉ ["b"; "c"]) /\
               (forall k, k <> "N" -> db w' !! k = db w !! k).
Proof.
  cbv zeta.
  exact (proj2 (proj2 (set_algebra
           (Script.fresh (<["S" := VSet ["a"; "b"]]> (<["T" := VSet ["b"; "c"]]> ∅)))
           "S" "T" "N" ["a"; "b"] ["b"; "c"] eq_refl eq_refl))).
Defined.

(** X27 at a set of two and two items, one of them a member. *)
Lemma set_issuperset_witness :
  let w := Script.fresh (<["S" := VSet ["a"; "b"]]> ∅) in
  exists w' r,
    LegacySet.issuperset "S" ["a"; "c"] w = Ret r w' /\
    (r = true <-> forall x, x ∈ ["a"; "c"] -> x ∈ ["a"; "b"]) /\
    db w' = db w.
Proof.
  cbv zeta.
  exact (set_issuperset "S" ["a"; "c"] (Script.fresh (<["S" := VSet ["a"; "b"]]> ∅))
           ["a"; "b"] eq_refl).
Defined.

(** X28 at a set of two, the server picking the second member. *)
Lemma set_iter_raises_witness :
  let w := Script.fresh (<["S" := VSet ["a"; "b"]]> ∅) in
  exists x w1 w2,
    LegacySet.next (fun _ => 1%nat) "S" LegacySet.GenStart w =
      Ret (Some x, LegacySet.GenAt x) w1 /\
    x ∈ ["a"; "b"] /\
    db w1 = db w /\
    LegacySet.next (fun _ => 1%nat) "S" (LegacySet.GenAt x) w1 =
      Raise (ResponseError ERR_ARITY) w2 /\
    db w2 = db w.
Proof.
  cbv zeta.
  refine (set_iter_raises (fun _ => 1%nat) (Script.fresh (<["S" := VSet ["a"; "b"]]> ∅))
            "S" ["a"; "b"] eq_refl _).
  discriminate.
Defined.

(** X29 at a list renamed onto a key that holds a string. *)
Lemma rename_rebinds_witness :
  let w := Script.fresh (<["old" := VList ["x"]]> (<["new" := VString "y"]> ∅)) in
  let self := Handle.Make Handle.KList "old" in
  fst (LegacyData.rename self (Some "new") "u") = Handle.Make Handle.KList "new" /\
  exists w',
    snd (LegacyData.rename self (Some "new") "u") w = Ret "new" w' /\
    db w' = <["new" := VList ["x"]]> (delete "old" (db w)).
Proof.
  cbv zeta.
  refine (rename_rebinds
            (Script.fresh (<["old" := VList ["x"]]> (<["new" := VString "y"]> ∅)))
            (Handle.Make Handle.KList "old") (Some "new") "u" _).
  discriminate.
Defined.

End LegacyMoreFacts.
